(** * Wisp server core (wisprtc): a shallow embedding and its properties

    The development follows the layout of the sources:
    - [Packet]       src/server/packet.ts: byte buffers, payloads, the codec
    - [Extensions]   src/server/extensions.ts: the extension records
    - [Options]      src/server/server/options.ts: the options record
    - [Net]          src/server/server/net.ts: the DNS cache, the sockets
    - [Filter]       src/server/server/filter.ts: destination policy, quotas
    - [DataChannel]  src/server/datachannel.ts: the carrier
    - [Connection]   src/server/server/connection.ts: streams, pumps,
                     routing, handshake
    - [Pump]         the life of one stream object, as a sequence of actions
    - [Loop]         the loop of a connection over the messages it receives
    - [Receiver]     src/server/datachannel.ts: the queue of received messages
    The statements and their proofs come after the embedding.

    JavaScript numbers that the code uses as integers are [Z]; a [Uint8Array]
    is a [list byte]; an exception is the [Throw] branch of [Result]; the
    stream table (a JS object keyed by stream id) and the DNS cache (a [Map])
    are [gmap]s.  What the platform provides and the repository does not
    define (TextEncoder/TextDecoder, String.prototype.trim, ipaddr.js,
    net.isIP) is gathered in the class [Platform]. *)

From Stdlib Require Import ZArith Lia.
From Stdlib.Strings Require Import Byte.
From stdpp Require Import base gmap strings list fin_maps.

#[local] Open Scope Z_scope.

(** ** Exceptions and the error monad *)

Inductive exn : Type :=
  | TypeError (msg : string)
  | RangeError
  | HandshakeError
  | Error (msg : string).

Inductive Result (A : Type) : Type :=
  | Ok (a : A)
  | Throw (e : exn).
Arguments Ok {A} a.
Arguments Throw {A} e.

#[global] Instance Result_ret : MRet Result := λ A a, Ok a.
#[global] Instance Result_bind : MBind Result := λ A B f m,
  match m with
  | Ok a => f a
  | Throw e => Throw e
  end.

#[global] Instance Result_fmap : FMap Result := λ A B f m,
  match m with
  | Ok a => Ok (f a)
  | Throw e => Throw e
  end.

(** ** Platform services used by the sources *)

(** A [PassThrough] of node:stream in object mode, as the sources use it:
    the chunks written and not yet read, oldest first, and whether [end()]
    was called. *)
Record PassThrough : Type := {
  queue : list (list byte);
  ended : bool;
}.

Class Platform : Type := {
  (** [new TextEncoder().encode] *)
  encode_text : string → list byte;
  (** [new TextDecoder().decode] *)
  decode_text : list byte → string;
  (** [String.prototype.trim] *)
  trim : string → string;
  (** [ipaddr.isValid] *)
  ipaddr_isValid : string → bool;
  (** [ipaddr.parse(s).range()] *)
  ipaddr_range : string → string;
  (** [net.isIP]: 4, 6 or 0 *)
  net_isIP : string → Z;
  (** [typeof process !== "undefined"] *)
  is_node : bool;
  (** [PassThrough.prototype.readableLength]: how many of the chunks held
      are counted on the readable side is decided by node:stream; what it
      does is stated as [Credit.readable_side]. *)
  readableLength : PassThrough → Z;
}.

(** ** Bytes *)

Definition u8 (b : byte) : Z := Z.of_N (Byte.to_N b).

(** The conversion a [Uint8Array] store applies to an integer: modulo 2^8. *)
Definition to_u8 (v : Z) : byte :=
  match Byte.of_N (Z.to_N (v mod 256)) with
  | Some b => b
  | None => x00
  end.

Arguments u8 : simpl never.
Arguments to_u8 : simpl never.

(** ** src/server/packet.ts *)

Module Packet.

(** [WispBuffer]: [bytes] is the list itself, [size] its length, [view] the
    [DataView] accessors below. *)
Abbreviation WispBuffer := (list byte) (only parsing).

Definition size (b : WispBuffer) : Z := Z.of_nat (length b).

(** [new WispBuffer(n)]: [n] zero bytes. *)
Definition zeroed (n : Z) : WispBuffer := replicate (Z.to_nat n) x00.

Definition concat (a b : WispBuffer) : WispBuffer := a ++ b.

(** [Uint8Array.prototype.slice]: a negative bound counts from the end,
    both bounds are clamped to the array. *)
Definition rel_index (len k : Z) : Z :=
  if k <? 0 then Z.max (len + k) 0 else Z.min k len.

Definition slice (b : WispBuffer) (index : Z) (size_ : option Z) : WispBuffer :=
  let len := size b in
  let from := rel_index len index in
  let to := match size_ with
            | None => len
            | Some e => rel_index len e
            end in
  take (Z.to_nat (to - from)) (drop (Z.to_nat from) b).

Definition get_string `{Platform} (b : WispBuffer) : string := decode_text b.

(** [DataView] reads and writes; an access outside the view throws a
    [RangeError].  Multi-byte accesses are little-endian, as at every call
    site. *)
Definition in_view (b : WispBuffer) (off width : Z) : bool :=
  (0 <=? off) && (off + width <=? size b).

Definition byte_at (b : WispBuffer) (off : Z) : Z :=
  match b !! Z.to_nat off with
  | Some x => u8 x
  | None => 0
  end.

Definition getUint8 (b : WispBuffer) (off : Z) : Result Z :=
  if in_view b off 1 then Ok (byte_at b off) else Throw RangeError.

Definition getUint16 (b : WispBuffer) (off : Z) : Result Z :=
  if in_view b off 2
  then Ok (byte_at b off + byte_at b (off + 1) * 2 ^ 8)
  else Throw RangeError.

Definition getUint32 (b : WispBuffer) (off : Z) : Result Z :=
  if in_view b off 4
  then Ok (byte_at b off + byte_at b (off + 1) * 2 ^ 8
           + byte_at b (off + 2) * 2 ^ 16 + byte_at b (off + 3) * 2 ^ 24)
  else Throw RangeError.

Definition put (b : WispBuffer) (off : Z) (v : Z) : WispBuffer :=
  <[Z.to_nat off := to_u8 v]> b.

Definition setUint8 (b : WispBuffer) (off v : Z) : Result WispBuffer :=
  if in_view b off 1 then Ok (put b off v) else Throw RangeError.

(** [setInt8] stores the same low eight bits. *)
Definition setInt8 (b : WispBuffer) (off v : Z) : Result WispBuffer :=
  setUint8 b off v.

Definition setUint16 (b : WispBuffer) (off v : Z) : Result WispBuffer :=
  if in_view b off 2
  then Ok (put (put b off v) (off + 1) (v / 2 ^ 8))
  else Throw RangeError.

Definition setUint32 (b : WispBuffer) (off v : Z) : Result WispBuffer :=
  if in_view b off 4
  then Ok (put (put (put (put b off v) (off + 1) (v / 2 ^ 8))
                     (off + 2) (v / 2 ^ 16)) (off + 3) (v / 2 ^ 24))
  else Throw RangeError.

(** *** Payloads *)

Record ConnectPayload : Type := {
  stream_type : Z;
  port : Z;
  hostname : string;
}.

Record DataPayload : Type := { data : WispBuffer }.

Record ContinuePayload : Type := { buffer_remaining : Z }.

Record ClosePayload : Type := { reason : Z }.

Record InfoPayload : Type := {
  major_ver : Z;
  minor_ver : Z;
  extensions : WispBuffer;
}.

(** The [payload?: any] field of a packet holds one of the five classes. *)
Inductive Payload : Type :=
  | Connect (p : ConnectPayload)
  | Data (p : DataPayload)
  | Continue (p : ContinuePayload)
  | Close (p : ClosePayload)
  | Info (p : InfoPayload).

(** The classes themselves, for their static members. *)
Inductive payload_class : Type :=
  | ConnectClass | DataClass | ContinueClass | CloseClass | InfoClass.

Definition min_size (c : payload_class) : Z :=
  match c with
  | ConnectClass => 3
  | DataClass => 0
  | ContinueClass => 4
  | CloseClass => 1
  | InfoClass => 2
  end.

Definition class_type (c : payload_class) : Z :=
  match c with
  | ConnectClass => 1
  | DataClass => 2
  | ContinueClass => 3
  | CloseClass => 4
  | InfoClass => 5
  end.

Definition class_of (p : Payload) : payload_class :=
  match p with
  | Connect _ => ConnectClass
  | Data _ => DataClass
  | Continue _ => ContinueClass
  | Close _ => CloseClass
  | Info _ => InfoClass
  end.

Definition packet_classes (t : Z) : option payload_class :=
  if t =? 1 then Some ConnectClass
  else if t =? 2 then Some DataClass
  else if t =? 3 then Some ContinueClass
  else if t =? 4 then Some CloseClass
  else if t =? 5 then Some InfoClass
  else None.

Module stream_types.
Definition TCP : Z := 1.
Definition UDP : Z := 2.
End stream_types.

Module close_reasons.
Definition Unknown : Z := 1.
Definition Voluntary : Z := 2.
Definition NetworkError : Z := 3.
Definition IncompatibleExtensions : Z := 4.
Definition UnreachableHost : Z := 66.
Definition NoResponse : Z := 67.
Definition ConnRefused : Z := 68.
Definition TransferTimeout : Z := 71.
Definition HostBlocked : Z := 72.
Definition ConnThrottled : Z := 73.
Definition ClientError : Z := 129.
Definition AuthBadPassword : Z := 192.
Definition AuthBadSignature : Z := 193.
Definition AuthMissingCredentials : Z := 194.
End close_reasons.

Section Codec.
Context `{Platform}.

Definition ConnectPayload_parse (b : WispBuffer) : Result ConnectPayload :=
  st ← getUint8 b 0;
  p ← getUint16 b 1;
  Ok {| stream_type := st; port := p; hostname := decode_text (slice b 3 None) |}.

Definition ConnectPayload_serialize (p : ConnectPayload) : Result WispBuffer :=
  b ← setUint8 (zeroed 3) 0 (stream_type p);
  b ← setUint16 b 1 (port p);
  Ok (concat b (encode_text (hostname p))).

Definition DataPayload_parse (b : WispBuffer) : Result DataPayload :=
  Ok {| data := b |}.

Definition DataPayload_serialize (p : DataPayload) : Result WispBuffer :=
  Ok (data p).

Definition ContinuePayload_parse (b : WispBuffer) : Result ContinuePayload :=
  r ← getUint32 b 0;
  Ok {| buffer_remaining := r |}.

Definition ContinuePayload_serialize (p : ContinuePayload) : Result WispBuffer :=
  setUint32 (zeroed 4) 0 (buffer_remaining p).

Definition ClosePayload_parse (b : WispBuffer) : Result ClosePayload :=
  r ← getUint8 b 0;
  Ok {| reason := r |}.

Definition ClosePayload_serialize (p : ClosePayload) : Result WispBuffer :=
  setUint8 (zeroed 1) 0 (reason p).

Definition InfoPayload_parse (b : WispBuffer) : Result InfoPayload :=
  ma ← getUint8 b 0;
  mi ← getUint8 b 1;
  Ok {| major_ver := ma; minor_ver := mi; extensions := slice b 2 None |}.

Definition InfoPayload_serialize (p : InfoPayload) : Result WispBuffer :=
  b ← setUint8 (zeroed 2) 0 (major_ver p);
  b ← setUint8 b 1 (minor_ver p);
  Ok (concat b (extensions p)).

Definition payload_parse (c : payload_class) (b : WispBuffer) : Result Payload :=
  match c with
  | ConnectClass => Connect <$> ConnectPayload_parse b
  | DataClass => Data <$> DataPayload_parse b
  | ContinueClass => Continue <$> ContinuePayload_parse b
  | CloseClass => Close <$> ClosePayload_parse b
  | InfoClass => Info <$> InfoPayload_parse b
  end.

Definition payload_serialize (p : Payload) : Result WispBuffer :=
  match p with
  | Connect c => ConnectPayload_serialize c
  | Data d => DataPayload_serialize d
  | Continue c => ContinuePayload_serialize c
  | Close c => ClosePayload_serialize c
  | Info i => InfoPayload_serialize i
  end.

(** *** Packets *)

Record WispPacket : Type := {
  type : Z;
  stream_id : Z;
  payload_bytes : option WispBuffer;
  payload : option Payload;
}.

(** The constructor: [payload_bytes] is taken from the payload when only
    the payload is given. *)
Definition new_WispPacket (ty sid : Z) (pl : option Payload)
    (pb : option WispBuffer) : Result WispPacket :=
  pb' ← match pl, pb with
        | Some p, None => Some <$> payload_serialize p
        | _, _ => Ok pb
        end;
  Ok {| type := ty; stream_id := sid; payload_bytes := pb'; payload := pl |}.

Definition parse (buffer : WispBuffer) : Result WispPacket :=
  ty ← getUint8 buffer 0;
  sid ← getUint32 buffer 1;
  new_WispPacket ty sid None (Some (slice buffer 5 None)).

Definition parse_all (buffer : WispBuffer) : Result WispPacket :=
  if size buffer <? 5 then Throw (TypeError "packet too small") else
  packet ← parse buffer;
  match packet_classes (type packet) with
  | None => Throw (TypeError "invalid packet type")
  | Some payload_class =>
      match payload_bytes packet with
      | Some pb =>
          if size pb <? min_size payload_class
          then Throw (TypeError "payload too small")
          else
            pl ← payload_parse payload_class pb;
            Ok {| type := type packet; stream_id := stream_id packet;
                  payload_bytes := payload_bytes packet; payload := Some pl |}
      | None => Throw (TypeError "payload_bytes is undefined")
      end
  end.

Definition serialize (p : WispPacket) : Result WispBuffer :=
  b ← setUint8 (zeroed 5) 0 (type p);
  b ← setUint32 b 1 (stream_id p);
  match payload p with
  | Some pl =>
      pb ← payload_serialize pl;
      Ok (concat b pb)
  | None => Throw (TypeError "payload is undefined")
  end.

End Codec.
End Packet.

(** ** src/server/extensions.ts *)

Module Extensions.
Import Packet.

(** [type Role = "client" | "server"] *)
Inductive Role : Type := client | server.

(** The payload classes an extension can carry: [EmptyPayload] and the
    server side of the MOTD extension. *)
Inductive ext_payload : Type :=
  | EmptyPayload
  | MOTDServer (message : string).

(** The extension classes ([BaseExtension] and its two subclasses). *)
Inductive ext_class : Type := BaseExtension | UDPExtension | MOTDExtension.

Definition class_id (c : ext_class) : Z :=
  match c with
  | BaseExtension => 0
  | UDPExtension => 1
  | MOTDExtension => 4
  end.

Definition class_name (c : ext_class) : string :=
  match c with
  | BaseExtension => ""
  | UDPExtension => "UDP"
  | MOTDExtension => "Server MOTD"
  end.

(** An instance: its class (whence [id] and [name]) and its payload, which
    stays undefined when the constructor is given no configuration. *)
Record extension : Type := {
  constructor : ext_class;
  payload : option ext_payload;
}.

Definition id (e : extension) : Z := class_id (constructor e).
Definition name (e : extension) : string := class_name (constructor e).

Section Ext.
Context `{Platform}.

(** [ext_class.Server.parse] and [ext_class.Client.parse] *)
Definition Server_parse (c : ext_class) (b : WispBuffer) : ext_payload :=
  match c with
  | MOTDExtension => MOTDServer (get_string b)
  | _ => EmptyPayload
  end.

Definition Client_parse (c : ext_class) (b : WispBuffer) : ext_payload :=
  EmptyPayload.

Definition payload_serialize (p : ext_payload) : WispBuffer :=
  match p with
  | EmptyPayload => zeroed 0
  | MOTDServer message => encode_text message
  end.

(** [BaseExtension.parse] *)
Definition parse (c : ext_class) (buffer : WispBuffer) (role : Role) : extension :=
  match role with
  | client =>
      {| constructor := c; payload := Some (Client_parse c (slice buffer 5 None)) |}
  | server =>
      {| constructor := c; payload := Some (Server_parse c (slice buffer 5 None)) |}
  end.

Definition serialize (e : extension) : Result WispBuffer :=
  match payload e with
  | None => Throw (TypeError "payload is undefined")
  | Some p =>
      let payload_buffer := payload_serialize p in
      b ← setInt8 (zeroed 5) 0 (class_id (constructor e));
      b ← setUint32 b 1 (size payload_buffer);
      Ok (concat b payload_buffer)
  end.

(** The inner [for] loop of [parse_extensions]: the first class of the
    allow-list with the given id. *)
Fixpoint find_class (valid_extensions : list ext_class) (ext_id : Z)
    : option ext_class :=
  match valid_extensions with
  | [] => None
  | extension :: rest =>
      if negb (class_id extension =? ext_id) then find_class rest ext_id
      else Some extension
  end.

(** The [while] loop of [parse_extensions].  [None] is the loop cut short by
    the counter; [parse_extensions_total] shows the counter used below is
    never exhausted. *)
Fixpoint parse_extensions_loop (fuel : nat) (payload_buffer : WispBuffer)
    (valid_extensions : list ext_class) (role : Role)
    (parsed_extensions : list extension) : option (Result (list extension)) :=
  let index := 0 in
  if size payload_buffer =? 0 then Some (Ok parsed_extensions) else
  match fuel with
  | O => None
  | S fuel' =>
      match getUint8 payload_buffer index with
      | Throw e => Some (Throw e)
      | Ok ext_id =>
        match getUint32 payload_buffer (index + 1) with
        | Throw e => Some (Throw e)
        | Ok ext_len =>
            let ext_payload := slice payload_buffer 0 (Some (5 + ext_len)) in
            let parsed_extensions' :=
              match find_class valid_extensions ext_id with
              | Some ext_class =>
                  parsed_extensions ++ [parse ext_class ext_payload role]
              | None => parsed_extensions
              end in
            parse_extensions_loop fuel' (slice payload_buffer (5 + ext_len) None)
              valid_extensions role parsed_extensions'
        end
      end
  end.

(** Every iteration that does not throw drops at least five bytes, so the
    length of the buffer bounds the number of iterations
    ([parse_extensions_loop_enough]); the last branch is never taken. *)
Definition parse_extensions (payload_buffer : WispBuffer)
    (valid_extensions : list ext_class) (role : Role)
    : Result (list extension) :=
  match parse_extensions_loop (length payload_buffer) payload_buffer
          valid_extensions role [] with
  | Some r => r
  | None => Throw (Error "parse_extensions: iteration bound")
  end.

Fixpoint serialize_extensions_from (ext_buffer : WispBuffer)
    (extensions : list extension) : Result WispBuffer :=
  match extensions with
  | [] => Ok ext_buffer
  | extension :: rest =>
      b ← serialize extension;
      serialize_extensions_from (concat ext_buffer b) rest
  end.

Definition serialize_extensions (extensions : list extension) : Result WispBuffer :=
  serialize_extensions_from (zeroed 0) extensions.

End Ext.
End Extensions.

(** ** src/server/server/options.ts *)

(** A [RegExp] is used through [test] only. *)
Definition RegExp : Type := string → bool.

(** An entry of a port list: a port or an inclusive [[lo, hi]] pair. *)
Inductive port_entry : Type :=
  | Port (n : Z)
  | PortRange (lo hi : Z).

Module Options.

Record t : Type := {
  hostname_blacklist : option (list RegExp);
  hostname_whitelist : option (list RegExp);
  port_blacklist : option (list port_entry);
  port_whitelist : option (list port_entry);
  allow_direct_ip : bool;
  allow_private_ips : bool;
  allow_loopback_ips : bool;
  stream_limit_per_host : Z;
  stream_limit_total : Z;
  allow_udp_streams : bool;
  allow_tcp_streams : bool;
  dns_ttl : Z;
  wisp_version : Z;
  wisp_motd : option string;
}.

(** The values the module is initialised with. *)
Definition options : t := {|
  hostname_blacklist := None;
  hostname_whitelist := None;
  port_blacklist := None;
  port_whitelist := None;
  allow_direct_ip := true;
  allow_private_ips := false;
  allow_loopback_ips := false;
  stream_limit_per_host := -1;
  stream_limit_total := -1;
  allow_udp_streams := true;
  allow_tcp_streams := true;
  dns_ttl := 120;
  wisp_version := 2;
  wisp_motd := None;
|}.

End Options.

(** ** src/server/server/net.ts: the DNS cache *)

Module Net.

Record cache_entry : Type := {
  time : Z;
  address : option string;
  error : option exn;
}.

(** What one call of [lookup_ip] observes of the outside: the two readings of
    [Date.now()] (milliseconds since the epoch), on entry and when the result
    is stored, and the outcome of [perform_lookup] should it be called. *)
Record lookup_io : Type := {
  now_on_entry : Z;
  resolution : Result string;
  now_on_store : Z;
}.

(** The result of a call: what is returned or thrown, the cache afterwards,
    and whether [perform_lookup] was called. *)
Record lookup_outcome : Type := {
  value : Result string;
  cache : gmap string cache_entry;
  resolved : bool;
}.

(** The entries the eviction loop leaves in the cache. *)
Definition fresh (dns_ttl now : Z) (kv : string * cache_entry) : Prop :=
  ¬ (now - time kv.2 > dns_ttl).

#[global] Instance fresh_dec dns_ttl now kv : Decision (fresh dns_ttl now kv).
Proof. unfold fresh. apply _. Defined.

Definition evict (dns_ttl now : Z) (dns_cache : gmap string cache_entry)
    : gmap string cache_entry :=
  filter (fresh dns_ttl now) dns_cache.

Section Lookup.
Context `{Platform}.

Definition lookup_ip (opts : Options.t) (io : lookup_io)
    (dns_cache : gmap string cache_entry) (hostname : string) : lookup_outcome :=
  if negb is_node then
    {| value := Ok hostname; cache := dns_cache; resolved := false |}
  else
  let ip_level := net_isIP hostname in
  if (ip_level =? 4) || (ip_level =? 6) then
    {| value := Ok hostname; cache := dns_cache; resolved := false |}
  else
  let now := now_on_entry io in
  let dns_cache := evict (Options.dns_ttl opts) now dns_cache in
  match dns_cache !! hostname with
  | Some cache_entry =>
      match error cache_entry with
      | Some e => {| value := Throw e; cache := dns_cache; resolved := false |}
      | None =>
          (* [cache_entry.address!]: an entry without error holds an address *)
          {| value := Ok (default hostname (address cache_entry));
             cache := dns_cache; resolved := false |}
      end
  | None =>
      match resolution io with
      | Ok address_ =>
          {| value := Ok address_;
             cache := <[hostname := {| time := now_on_store io;
                                       address := Some address_;
                                       error := None |}]> dns_cache;
             resolved := true |}
      | Throw e =>
          {| value := Throw e;
             cache := <[hostname := {| time := now_on_store io;
                                       address := None;
                                       error := Some e |}]> dns_cache;
             resolved := true |}
      end
  end.

End Lookup.

(** *** The destination sockets

    [NodeTCPSocket] and [NodeUDPSocket] differ in the node API they wrap;
    both are seen here through: whether the inner [socket] is set, the
    [connected] flag, and the chunks written to the destination. *)
Inductive SocketImpl : Type := NodeTCPSocket | NodeUDPSocket.

Record Socket : Type := {
  impl : SocketImpl;
  hostname : string;
  port : Z;
  socket : bool;
  connected : bool;
  written : list (list byte);
}.

Section Sockets.
Context `{Platform}.

(** The constructors start with [assert_on_node()]. *)
Definition new_Socket (i : SocketImpl) (hostname_ : string) (port_ : Z)
    : Result Socket :=
  if negb is_node then Throw (Error "not running on node.js") else
  Ok {| impl := i; hostname := hostname_; port := port_;
        socket := false; connected := false; written := [] |}.

(** How a call of [connect()] goes: [lookup_ip] throws, before a socket is
    made; or the socket is made and assigned to [this.socket], and then an
    error comes before the connect event, or the connect event comes. *)
Inductive connecting : Type :=
  | Unresolved
  | Refused
  | Accepted.

(** [connect()]: how the promise settles, and the socket object afterwards.
    A refusal rejects the promise and leaves [this.socket] assigned: the
    handler of the error removes the listener that would unset it. *)
Definition Socket_connect (s : Socket) (how : connecting) : Result unit * Socket :=
  match how with
  | Unresolved => (Throw (Error "lookup failed"), s)
  | Refused =>
      (Throw (Error "connect failed"),
       {| impl := impl s; hostname := hostname s; port := port s;
          socket := true; connected := connected s; written := written s |})
  | Accepted =>
      (Ok tt,
       {| impl := impl s; hostname := hostname s; port := port s;
          socket := true; connected := true; written := written s |})
  end.

(** [send(data)]; [ok] tells whether the write succeeded. *)
Definition Socket_send (s : Socket) (data : list byte) (ok : bool) : Result Socket :=
  if negb (socket s) then Throw (Error "socket not connected") else
  if ok then
    Ok {| impl := impl s; hostname := hostname s; port := port s;
          socket := socket s; connected := connected s;
          written := written s ++ [data] |}
  else Throw (Error "write failed").

Definition Socket_close (s : Socket) : Socket :=
  if negb (socket s) then s else
  {| impl := impl s; hostname := hostname s; port := port s;
     socket := false; connected := false; written := written s |}.

End Sockets.
End Net.

(** ** src/server/server/filter.ts *)

Module Filter.

Definition check_port_range (entry : port_entry) (port : Z) : bool :=
  match entry with
  | PortRange lo hi => (lo <=? port) && (hi >=? port)
  | Port n => n =? port
  end.

Fixpoint check_whitelist_from {T} (matched : bool) (entries : list T)
    (filter : T → bool) : bool :=
  match entries with
  | [] => negb matched
  | entry :: rest =>
      if filter entry then negb true
      else check_whitelist_from matched rest filter
  end.

Definition check_whitelist {T} (entries : list T) (filter : T → bool) : bool :=
  check_whitelist_from false entries filter.

Fixpoint check_blacklist {T} (entries : list T) (filter : T → bool) : bool :=
  match entries with
  | [] => false
  | entry :: rest => if filter entry then true else check_blacklist rest filter
  end.

Section Policy.
Context `{Platform}.
(** The [connection: any] argument is used through [connection.streams]
    and [stream.socket.hostname] only. *)
Context {Stream : Type} (socket_hostname : Stream → string).

Definition check_ip_range (ip : string) (range : list string) : bool :=
  existsb (λ r, String.eqb (ipaddr_range ip) r) range.

Definition is_ip_blocked (opts : Options.t) (ip_str : string) : bool :=
  if negb (ipaddr_isValid ip_str) then false else
  let ip := ip_str in
  let loopback_ranges := ["loopback"; "unspecified"]%string in
  let private_ranges :=
    ["broadcast"; "linkLocal"; "carrierGradeNat"; "private"; "reserved"]%string in
  if negb (Options.allow_loopback_ips opts) && check_ip_range ip loopback_ranges
  then true
  else if negb (Options.allow_private_ips opts) && check_ip_range ip private_ranges
  then true
  else false.

(** The counting loop over [Object.values(connection.streams)]. *)
Definition streams_per_host (streams : gmap Z Stream) (hostname : string) : Z :=
  map_fold (λ _ stream n,
              if String.eqb (socket_hostname stream) hostname then n + 1 else n)
           0 streams.

(** [lookup] is the outcome of awaiting [net.lookup_ip(hostname)], consulted
    only when the hostname is not an address literal.  The result is the
    close reason, [0] when the stream is allowed. *)
Definition is_stream_allowed (opts : Options.t)
    (connection : option (gmap Z Stream))
    (type : Z) (hostname : string) (port : Z) (lookup : Result string) : Z :=
  if negb (Options.allow_tcp_streams opts) && (type =? Packet.stream_types.TCP)
  then Packet.close_reasons.HostBlocked else
  if negb (Options.allow_udp_streams opts) && (type =? Packet.stream_types.UDP)
  then Packet.close_reasons.HostBlocked else
  if match Options.hostname_whitelist opts, Options.hostname_blacklist opts with
     | Some whitelist, _ => check_whitelist whitelist (λ entry, entry hostname)
     | None, Some blacklist => check_blacklist blacklist (λ entry, entry hostname)
     | None, None => false
     end
  then Packet.close_reasons.HostBlocked else
  if match Options.port_whitelist opts, Options.port_blacklist opts with
     | Some whitelist, _ =>
         check_whitelist whitelist (λ entry, check_port_range entry port)
     | None, Some blacklist =>
         check_blacklist blacklist (λ entry, check_port_range entry port)
     | None, None => false
     end
  then Packet.close_reasons.HostBlocked else
  let direct := ipaddr_isValid hostname in
  if direct && negb (Options.allow_direct_ip opts)
  then Packet.close_reasons.HostBlocked else
  let ip_str :=
    if direct then hostname
    else match lookup with
         | Ok a => a
         | Throw _ => hostname
         end in
  if is_ip_blocked opts ip_str then Packet.close_reasons.HostBlocked else
  match connection with
  | None => 0
  | Some streams =>
      if negb (Options.stream_limit_total opts =? -1)
         && (Z.of_nat (size streams) >=? Options.stream_limit_total opts)
      then Packet.close_reasons.ConnThrottled
      else if negb (Options.stream_limit_per_host opts =? -1)
              && (streams_per_host streams hostname
                  >=? Options.stream_limit_per_host opts)
      then Packet.close_reasons.ConnThrottled
      else 0
  end.

End Policy.
End Filter.

(** ** src/server/logging.ts and src/server/datachannel.ts *)

Module logging.
Inductive level : Type := debug | info | warn | error.
End logging.

Module DataChannel.

Inductive ready_state : Type := rs_connecting | rs_open | rs_closing | rs_closed.

Definition is_open (r : ready_state) : bool :=
  match r with rs_open => true | _ => false end.

(** [AsyncRTCDataChannel] with the channel it wraps: the channel's
    [readyState] and the wrapper's [connected] flag. *)
Record AsyncRTCDataChannel : Type := {
  readyState : ready_state;
  connected : bool;
}.

(** [connect()]; [opens] tells whether a channel still connecting reports
    open (rather than close or error). *)
Definition connect (ws : AsyncRTCDataChannel) (opens : bool)
    : Result AsyncRTCDataChannel :=
  if connected ws then Ok ws else
  match readyState ws with
  | rs_open => Ok {| readyState := rs_open; connected := true |}
  | rs_closing | rs_closed => Throw (Error "RTCDataChannel is already closed")
  | rs_connecting =>
      if opens then Ok {| readyState := rs_open; connected := true |}
      else Throw (Error "RTCDataChannel closed before open")
  end.

(** [send(data)] for a [WispPacket]: the bytes handed to [channel.send],
    which itself refuses a channel that is not open.  The waits on
    [bufferedAmount] that follow take time only. *)
Definition send `{Platform} (ws : AsyncRTCDataChannel) (data : Packet.WispPacket)
    : Result (list byte) :=
  if negb (connected ws) && negb (is_open (readyState ws))
  then Throw (Error "RTCDataChannel is not open") else
  bytes ← Packet.serialize data;
  if is_open (readyState ws) then Ok bytes
  else Throw (Error "InvalidStateError").

Definition close (ws : AsyncRTCDataChannel) : AsyncRTCDataChannel :=
  match readyState ws with
  | rs_closing | rs_closed => ws
  | _ => {| readyState := rs_closed; connected := connected ws |}
  end.

End DataChannel.

(** ** src/server/server/connection.ts *)

Module Connection.

(** *** The per-stream buffer *)

Definition PassThrough_new : PassThrough := {| queue := []; ended := false |}.

(** [write(chunk)]: the chunk is queued whatever the depth; the high-water
    mark only decides the boolean [write] returns, which [put_data] drops.
    After [end()] the chunk is refused. *)
Definition PassThrough_write (p : PassThrough) (chunk : list byte) : PassThrough :=
  if ended p then p else {| queue := queue p ++ [chunk]; ended := ended p |}.

Definition PassThrough_end (p : PassThrough) : PassThrough :=
  {| queue := queue p; ended := true |}.

(** What the async iterator hands over next. *)
Definition PassThrough_next (p : PassThrough) : option (list byte * PassThrough) :=
  match queue p with
  | [] => None
  | chunk :: rest => Some (chunk, {| queue := rest; ended := ended p |})
  end.

(** *** ServerStream *)

Definition buffer_size : Z := 128.

Record ServerStream : Type := {
  stream_id : Z;
  socket : Net.Socket;
  clientToTarget : PassThrough;
  packets_sent : Z;
  closed : bool;
}.

Definition new_ServerStream (stream_id_ : Z) (socket_ : Net.Socket) : ServerStream :=
  {| stream_id := stream_id_; socket := socket_;
     clientToTarget := PassThrough_new; packets_sent := 0; closed := false |}.

Definition put_data (this : ServerStream) (data : list byte) : ServerStream :=
  {| stream_id := stream_id this; socket := socket this;
     clientToTarget := PassThrough_write (clientToTarget this) data;
     packets_sent := packets_sent this; closed := closed this |}.

(** The iterator of [for await (const data of this.clientToTarget)]. *)
Definition take_chunk (this : ServerStream) : option (list byte * ServerStream) :=
  match PassThrough_next (clientToTarget this) with
  | None => None
  | Some (data, rest) =>
      Some (data, {| stream_id := stream_id this; socket := socket this;
                     clientToTarget := rest;
                     packets_sent := packets_sent this; closed := closed this |})
  end.

(** The part of [close] before the CLOSE packet: mark, end the buffer, close
    the socket. *)
Definition shut (this : ServerStream) : ServerStream :=
  {| stream_id := stream_id this; socket := Net.Socket_close (socket this);
     clientToTarget := PassThrough_end (clientToTarget this);
     packets_sent := packets_sent this; closed := true |}.

Section Engine.
Context `{Platform}.
(** The process-wide [options] record. *)
Context (options : Options.t).

(** The body of the loop of [ws_to_tcp], once the iterator has handed over
    [data]: the stream afterwards and the CONTINUE packet to send, if any.
    [send_ok] tells whether the destination accepted the write. *)
Definition ws_to_tcp_body (this : ServerStream) (data : list byte) (send_ok : bool)
    : Result (ServerStream * option Packet.WispPacket) :=
  socket' ← Net.Socket_send (socket this) data send_ok;
  let this := {| stream_id := stream_id this; socket := socket';
                 clientToTarget := clientToTarget this;
                 packets_sent := packets_sent this + 1;
                 closed := closed this |} in
  if negb (packets_sent this mod (buffer_size / 2) =? 0) then Ok (this, None) else
  let buffer_remaining := buffer_size - readableLength (clientToTarget this) in
  packet ← Packet.new_WispPacket (Packet.class_type Packet.ContinueClass)
              (stream_id this)
              (Some (Packet.Continue
                       {| Packet.buffer_remaining := buffer_remaining |}))
              None;
  Ok (this, Some packet).

(** *** ServerConnection *)

(** The background task [create_stream] starts for a new stream. *)
Record task : Type := {
  task_stream : nat;
  task_stream_id : Z;
  task_type : Z;
  task_hostname : string;
  task_port : Z;
}.

(** What the connection did to the outside, in order. *)
Inductive io : Type :=
  | CarrierSend (bytes : list byte)
  | SocketSend (stream : nat) (data : list byte).

(** [objects] holds every [ServerStream] created on the connection; a
    stream object is referred to by its position there, so that the table
    [streams], the pumps and the tasks share it. *)
Record ServerConnection : Type := {
  ws : DataChannel.AsyncRTCDataChannel;
  wisp_version : Z;
  wisp_extensions : option (list Extensions.extension);
  objects : list ServerStream;
  streams : gmap Z nat;
  server_exts : gmap Z Extensions.extension;
  client_exts : gmap Z Extensions.extension;
  tasks : list task;
  trace : list io;
  log : list (logging.level * string);
}.

Definition with_ws (c : ServerConnection) (x : DataChannel.AsyncRTCDataChannel) :=
  {| ws := x; wisp_version := wisp_version c; wisp_extensions := wisp_extensions c;
     objects := objects c; streams := streams c; server_exts := server_exts c;
     client_exts := client_exts c; tasks := tasks c; trace := trace c; log := log c |}.

Definition with_objects (c : ServerConnection) (x : list ServerStream) :=
  {| ws := ws c; wisp_version := wisp_version c; wisp_extensions := wisp_extensions c;
     objects := x; streams := streams c; server_exts := server_exts c;
     client_exts := client_exts c; tasks := tasks c; trace := trace c; log := log c |}.

Definition with_streams (c : ServerConnection) (x : gmap Z nat) :=
  {| ws := ws c; wisp_version := wisp_version c; wisp_extensions := wisp_extensions c;
     objects := objects c; streams := x; server_exts := server_exts c;
     client_exts := client_exts c; tasks := tasks c; trace := trace c; log := log c |}.

Definition with_exts (c : ServerConnection) (s k : gmap Z Extensions.extension) :=
  {| ws := ws c; wisp_version := wisp_version c; wisp_extensions := wisp_extensions c;
     objects := objects c; streams := streams c; server_exts := s;
     client_exts := k; tasks := tasks c; trace := trace c; log := log c |}.

Definition with_tasks (c : ServerConnection) (x : list task) :=
  {| ws := ws c; wisp_version := wisp_version c; wisp_extensions := wisp_extensions c;
     objects := objects c; streams := streams c; server_exts := server_exts c;
     client_exts := client_exts c; tasks := x; trace := trace c; log := log c |}.

Definition with_trace (c : ServerConnection) (x : list io) :=
  {| ws := ws c; wisp_version := wisp_version c; wisp_extensions := wisp_extensions c;
     objects := objects c; streams := streams c; server_exts := server_exts c;
     client_exts := client_exts c; tasks := tasks c; trace := x; log := log c |}.

Definition with_log (c : ServerConnection) (x : list (logging.level * string)) :=
  {| ws := ws c; wisp_version := wisp_version c; wisp_extensions := wisp_extensions c;
     objects := objects c; streams := streams c; server_exts := server_exts c;
     client_exts := client_exts c; tasks := tasks c; trace := trace c; log := x |}.

(** Methods run on the connection and may throw: a state and error monad.
    An exception keeps the changes made before it. *)
Definition M (A : Type) : Type := ServerConnection → Result A * ServerConnection.

#[global] Instance M_ret : MRet M := λ A a conn, (Ok a, conn).
#[global] Instance M_bind : MBind M := λ A B f m conn,
  match m conn with
  | (Ok a, conn') => f a conn'
  | (Throw e, conn') => (Throw e, conn')
  end.

Definition get : M ServerConnection := λ conn, (Ok conn, conn).
Definition modify (f : ServerConnection → ServerConnection) : M unit :=
  λ conn, (Ok tt, f conn).
Definition throw {A} (e : exn) : M A := λ conn, (Throw e, conn).
Definition lift {A} (r : Result A) : M A := λ conn, (r, conn).
Definition skip : M unit := mret tt.

(** [try { m } catch (e) { h e }] *)
Definition try_catch {A} (m : M A) (h : exn → M A) : M A := λ conn,
  match m conn with
  | (Throw e, conn') => h e conn'
  | r => r
  end.

(** A call of an async method whose promise is neither awaited nor caught:
    it runs, and a rejection goes unobserved.  Where the method awaits, it
    awaits work that is done by then, and it is run to its end here. *)
Definition detached (m : M unit) : M unit := λ conn, (Ok tt, (m conn).2).

(** A line of the log: its level and its text, without the values the
    source interpolates. *)
Definition logging_at (l : logging.level) (msg : string) : M unit :=
  modify (λ conn, with_log conn (log conn ++ [(l, msg)])).

(** [this.ws.send(packet)] *)
Definition ws_send (packet : Packet.WispPacket) : M unit :=
  conn ← get;
  bytes ← lift (DataChannel.send (ws conn) packet);
  modify (λ conn, with_trace conn (trace conn ++ [CarrierSend bytes])).

Definition set_object (r : nat) (s : ServerStream) : M unit :=
  modify (λ conn, with_objects conn (<[r := s]> (objects conn))).

(** [ServerStream.close(reason)] on the stream object [r]. *)
Definition ServerStream_close (r : nat) (reason : option Z) : M unit :=
  conn ← get;
  match objects conn !! r with
  | None => skip
  | Some this =>
      if closed this then skip else
      set_object r (shut this);;
      match reason with
      | None => skip
      | Some reason =>
          packet ← lift (Packet.new_WispPacket
                           (Packet.class_type Packet.CloseClass) (stream_id this)
                           (Some (Packet.Close {| Packet.reason := reason |}))
                           None);
          ws_send packet
      end
  end.

(** Truth of [reason] in [reason && !quiet]. *)
Definition truthy (reason : option Z) : bool :=
  match reason with
  | Some r => negb (r =? 0)
  | None => false
  end.

Definition close_stream (stream_id_ : Z) (reason : option Z) (quiet : bool) : M unit :=
  conn ← get;
  match streams conn !! stream_id_ with
  | None => skip
  | Some stream =>
      (if truthy reason && negb quiet
       then logging_at logging.info "closing stream" else skip);;
      ServerStream_close stream reason;;
      modify (λ conn, with_streams conn (delete stream_id_ (streams conn)))
  end.

(** The synchronous part of [create_stream]: the socket and the stream
    object are created, the stream is entered in the table, and the
    background task is started. *)
Definition create_stream (stream_id_ type : Z) (hostname : string) (port : Z) : M unit :=
  let SocketImpl :=
    if type =? Packet.stream_types.TCP then Net.NodeTCPSocket else Net.NodeUDPSocket in
  socket_ ← lift (Net.new_Socket SocketImpl hostname port);
  let stream := new_ServerStream stream_id_ socket_ in
  conn ← get;
  let r := length (objects conn) in
  modify (λ conn, with_objects conn (objects conn ++ [stream]));;
  modify (λ conn, with_streams conn (<[stream_id_ := r]> (streams conn)));;
  modify (λ conn, with_tasks conn
                    (tasks conn ++ [{| task_stream := r; task_stream_id := stream_id_;
                                       task_type := type; task_hostname := hostname;
                                       task_port := port |}])).

(** [stream.socket.hostname] for an entry of the table. *)
Definition socket_hostname (conn : ServerConnection) (r : nat) : string :=
  match objects conn !! r with
  | Some stream => Net.hostname (socket stream)
  | None => ""
  end.

(** The stream object after [this.socket.connect()]. *)
Definition connect_socket (this : ServerStream) (how : Net.connecting) : ServerStream :=
  {| stream_id := stream_id this;
     socket := (Net.Socket_connect (socket this) how).2;
     clientToTarget := clientToTarget this;
     packets_sent := packets_sent this; closed := closed this |}.

(** [ServerStream.setup]: connect the destination; the two pumps then run
    as [tcp_to_ws_data], [tcp_to_ws_end] and [ws_to_tcp_step]. *)
Definition ServerStream_setup (r : nat) (how : Net.connecting) : M unit :=
  conn ← get;
  match objects conn !! r with
  | None => skip
  | Some this =>
      set_object r (connect_socket this how);;
      lift (Net.Socket_connect (socket this) how).1
  end.

(** The background task of [create_stream], run on the connection as it is
    then.  [lookup] is the outcome of the DNS lookup of the policy check,
    [how] the way the call of [connect()] goes. *)
Definition run_task (t : task) (lookup : Result string) (how : Net.connecting)
    : M unit :=
  conn ← get;
  let close_reason :=
    Filter.is_stream_allowed (socket_hostname conn) options (Some (streams conn))
      (task_type t) (task_hostname t) (task_port t) lookup in
  if negb (close_reason =? 0) then
    logging_at logging.warn "refusing to create a stream";;
    close_stream (task_stream_id t) (Some close_reason) true
  else
    try_catch (ServerStream_setup (task_stream t) how)
      (λ error,
         logging_at logging.warn "creating a stream failed";;
         close_stream (task_stream_id t) (Some Packet.close_reasons.NetworkError) false).

(** [tcp_to_ws]: one chunk from the destination, and its graceful end. *)
Definition tcp_to_ws_data (r : nat) (data : list byte) : M unit :=
  conn ← get;
  match objects conn !! r with
  | None => skip
  | Some this =>
      packet ← lift (Packet.new_WispPacket (Packet.class_type Packet.DataClass)
                       (stream_id this)
                       (Some (Packet.Data {| Packet.data := data |})) None);
      ws_send packet
  end.

Definition tcp_to_ws_end (r : nat) : M unit :=
  conn ← get;
  match objects conn !! r with
  | None => skip
  | Some this =>
      close_stream (stream_id this) (Some Packet.close_reasons.Voluntary) false
  end.

(** [ws_to_tcp]: one turn of the loop on the stream object [r].  With an
    empty buffer the loop waits, or ends when the buffer was ended and then
    closes the stream. *)
Definition ws_to_tcp_iteration (r : nat) (send_ok : bool) : M unit :=
  conn ← get;
  match objects conn !! r with
  | None => skip
  | Some this =>
      match take_chunk this with
      | None =>
          if ended (clientToTarget this) then ServerStream_close r None else skip
      | Some (data, this) =>
          set_object r this;;
          '(this, packet) ← lift (ws_to_tcp_body this data send_ok);
          set_object r this;;
          modify (λ conn, with_trace conn (trace conn ++ [SocketSend r data]));;
          match packet with
          | Some packet => detached (ws_send packet)
          | None => skip
          end
      end
  end.

(** The [catch] that [setup] attaches to the pump. *)
Definition ws_to_tcp_step (r : nat) (send_ok : bool) : M unit :=
  try_catch (ws_to_tcp_iteration r send_ok)
    (λ error,
       logging_at logging.error "a ws to tcp/udp task encountered an error";;
       ServerStream_close r None).

(** [route_packet].  The branches on [packet.type] are the branches on the
    class of the payload, since [parse_all] parses the payload with the
    class its type names; an INFO packet meets no branch. *)
Definition route_packet (buffer : list byte) : M unit :=
  packet ← lift (Packet.parse_all buffer);
  conn ← get;
  let stream := streams conn !! Packet.stream_id packet in
  if bool_decide (stream = None)
     && (Packet.type packet =? Packet.class_type Packet.DataClass)
  then
    logging_at logging.warn "received a DATA packet for a stream which doesn't exist"
  else
  match Packet.payload packet with
  | Some (Packet.Connect payload) =>
      logging_at logging.info "opening new stream";;
      create_stream (Packet.stream_id packet) (Packet.stream_type payload)
        (trim (Packet.hostname payload)) (Packet.port payload)
  | Some (Packet.Data payload) =>
      match stream with
      | Some r =>
          conn ← get;
          match objects conn !! r with
          | Some this => set_object r (put_data this (Packet.data payload))
          | None => skip
          end
      | None => throw (TypeError "stream is undefined")
      end
  | Some (Packet.Continue _) =>
      logging_at logging.warn "client sent a CONTINUE packet, this should never be possible"
  | Some (Packet.Close payload) =>
      detached (close_stream (Packet.stream_id packet)
                  (Some (Packet.reason payload)) false)
  | Some (Packet.Info _) => skip
  | None => skip
  end.

(** One turn of the loop of [run]. *)
Definition run_message (data : list byte) : M unit :=
  try_catch (route_packet data)
    (λ error, logging_at logging.warn "routing a packet failed").

(** The loop of [cleanup] over the keys of the table. *)
Definition close_all (ks : list Z) : M unit :=
  foldr (λ stream_id_ rest, close_stream stream_id_ None false;; rest) skip ks.

Definition cleanup : M unit :=
  conn ← get;
  close_all (map_to_list (streams conn)).*1;;
  logging_at logging.info "wisp connection closed";;
  modify (λ conn, with_ws conn (DataChannel.close (ws conn))).

(** The two nested loops at the end of [setup_wisp_v2]: an extension is
    recorded on both sides when the client and the server have it. *)
Definition record_extensions (exts client_extensions : list Extensions.extension)
    (conn : ServerConnection) : ServerConnection :=
  foldl (λ conn client_ext,
    foldl (λ conn server_ext,
      if Extensions.id server_ext =? Extensions.id client_ext
      then with_exts conn
             (<[Extensions.id server_ext := server_ext]> (server_exts conn))
             (<[Extensions.id client_ext := client_ext]> (client_exts conn))
      else conn) conn exts) conn client_extensions.

(** [setup_wisp_v2]; [data] is what [this.ws.recv()] resolves to, [None]
    for a carrier closed before a message came. *)
Definition setup_wisp_v2 (data : option (list byte)) : M unit :=
  conn ← get;
  ext_buffer ← match wisp_extensions conn with
               | Some exts => lift (Extensions.serialize_extensions exts)
               | None => throw (TypeError "extensions is not iterable")
               end;
  info_packet ← lift (Packet.new_WispPacket (Packet.class_type Packet.InfoClass) 0
                        (Some (Packet.Info {| Packet.major_ver := wisp_version conn;
                                              Packet.minor_ver := 0;
                                              Packet.extensions := ext_buffer |}))
                        None);
  detached (ws_send info_packet);;
  match data with
  | None =>
      logging_at logging.warn "handshake error: ws closed before handshake complete";;
      cleanup;;
      throw HandshakeError
  | Some data =>
      packet ← lift (Packet.parse_all data);
      if negb (Packet.type packet =? Packet.class_type Packet.InfoClass) then
        logging_at logging.warn "handshake error: unexpected packet";;
        cleanup;;
        throw HandshakeError
      else
        match Packet.payload packet, wisp_extensions conn with
        | Some (Packet.Info payload), Some exts =>
            client_extensions ←
              lift (Extensions.parse_extensions (Packet.extensions payload)
                      (Extensions.constructor <$> exts) Extensions.client);
            modify (record_extensions exts client_extensions)
        | _, _ => throw (TypeError "unreachable")
        end
  end.

(** [setup]; [opens] is the outcome of [ws.connect()] for a channel still
    connecting. *)
Definition setup (opens : bool) (data : option (list byte)) : M unit :=
  logging_at logging.info "setting up new wisp connection";;
  conn ← get;
  ws' ← lift (DataChannel.connect (ws conn) opens);
  modify (λ conn, with_ws conn ws');;
  (if wisp_version conn =? 2 then setup_wisp_v2 data else skip);;
  continue_packet ← lift (Packet.new_WispPacket
                            (Packet.class_type Packet.ContinueClass) 0
                            (Some (Packet.Continue
                                     {| Packet.buffer_remaining := buffer_size |}))
                            None);
  detached (ws_send continue_packet).

(** The constructor, with [add_extensions]. *)
Definition add_extensions : list Extensions.extension :=
  (if Options.allow_udp_streams options
   then [{| Extensions.constructor := Extensions.UDPExtension;
            Extensions.payload := Some Extensions.EmptyPayload |}]
   else [])
  ++
  match Options.wisp_motd options with
  | Some message =>
      if String.eqb message "" then []
      else [{| Extensions.constructor := Extensions.MOTDExtension;
               Extensions.payload := Some (Extensions.MOTDServer message) |}]
  | None => []
  end.

Definition new_ServerConnection (ws_ : DataChannel.AsyncRTCDataChannel)
    (wisp_version_ : option Z) (wisp_extensions_ : option (list Extensions.extension))
    : ServerConnection :=
  let version := match wisp_version_ with
                 | Some v => if v =? 0 then 1 else v
                 | None => 1
                 end in
  {| ws := ws_; wisp_version := version;
     wisp_extensions :=
       match wisp_extensions_ with
       | Some e => Some e
       | None => if version =? 2 then Some add_extensions else None
       end;
     objects := []; streams := ∅; server_exts := ∅; client_exts := ∅;
     tasks := []; trace := []; log := [] |}.

End Engine.
End Connection.

(** *** The life of one stream object

    What happens to a stream object once its socket is connected, seen from
    the stream: the router puts DATA payloads in its buffer, the loop of
    [ws_to_tcp] takes turns, and the stream may be closed from elsewhere
    (a CLOSE from the client, the end of the destination, [cleanup]). *)

Module Pump.
Import Connection.

Inductive action : Type :=
  | Put (data : list byte)
  | Turn (send_ok : bool)
  | Shut.

(** What the loop does to the outside: a chunk written to the destination
    socket, a packet handed to [ws.send]. *)
Inductive event : Type :=
  | Sent (data : list byte)
  | Issued (packet : Packet.WispPacket).

(** The stream object and whether the loop of [ws_to_tcp] is still running. *)
Record state : Type := {
  this : ServerStream;
  running : bool;
}.

(** [close()] without reason, as the pump and its [catch] call it. *)
Definition close_silently (s : ServerStream) : ServerStream :=
  if closed s then s else shut s.

Section Run.
Context `{Platform}.

Definition step (s : state) (a : action) : state * list event :=
  match a with
  | Put data => ({| this := put_data (this s) data; running := running s |}, [])
  | Shut => ({| this := close_silently (this s); running := running s |}, [])
  | Turn send_ok =>
      if negb (running s) then (s, []) else
      match take_chunk (this s) with
      | None =>
          if ended (clientToTarget (this s))
          then ({| this := close_silently (this s); running := false |}, [])
          else (s, [])
      | Some (data, this1) =>
          match ws_to_tcp_body this1 data send_ok with
          | Ok (this2, packet) =>
              ({| this := this2; running := true |},
               Sent data :: match packet with
                            | Some packet => [Issued packet]
                            | None => []
                            end)
          | Throw _ =>
              ({| this := close_silently this1; running := false |}, [])
          end
      end
  end.

Fixpoint run (s : state) (actions : list action) : state * list event :=
  match actions with
  | [] => (s, [])
  | a :: rest =>
      let '(s1, events1) := step s a in
      let '(s2, events2) := run s1 rest in
      (s2, events1 ++ events2)
  end.

End Run.
End Pump.

(** *** The loop of a connection

    [ServerConnection.run]: the messages the iterator of the carrier yields
    before it ends are routed one by one, each under its own [catch], and
    [cleanup] follows. *)

Module Loop.

Section Loop.
Context `{Platform}.

Definition run (messages : list (list byte)) : Connection.M unit :=
  foldr (λ data rest, Connection.run_message data;; rest)
        Connection.cleanup messages.

End Loop.
End Loop.

(** ** src/server/datachannel.ts: the receiving side

    The queue of [AsyncRTCDataChannel] between the events of the channel
    and the calls of [recv] and of the iterator.  A promise returned by
    [_getNext] is named by a number; what the wrapper does to the outside
    is the list of the promises it resolves, each with a message or with
    null. *)

Module Receiver.

Record t : Type := {
  (** [channel.readyState] and [connected] *)
  base : DataChannel.AsyncRTCDataChannel;
  _queue : list (list byte);
  (** the [resolve] callbacks of the promises that wait, oldest first *)
  _waiters : list nat;
  _closed : bool;
  _lastError : option exn;
}.

(** A promise resolved, with a message or with null. *)
Definition resolution : Type := (nat * option (list byte))%type.

(** The state the constructor leaves. *)
Definition new (channel : DataChannel.ready_state) : t :=
  {| base := {| DataChannel.readyState := channel; DataChannel.connected := false |};
     _queue := []; _waiters := []; _closed := false; _lastError := None |}.

(** [while (this._waiters.length > 0) this._waiters.shift()!(null)] *)
Definition resolve_all (waiters : list nat) : list resolution :=
  (λ w, (w, None)) <$> waiters.

Definition _onMessage (s : t) (data : list byte) : t * list resolution :=
  match _waiters s with
  | waiter :: rest =>
      ({| base := base s; _queue := _queue s; _waiters := rest;
          _closed := _closed s; _lastError := _lastError s |},
       [(waiter, Some data)])
  | [] =>
      ({| base := base s; _queue := _queue s ++ [data]; _waiters := _waiters s;
          _closed := _closed s; _lastError := _lastError s |},
       [])
  end.

Definition _onClose (s : t) : t * list resolution :=
  ({| base := {| DataChannel.readyState := DataChannel.readyState (base s);
                 DataChannel.connected := false |};
      _queue := _queue s; _waiters := []; _closed := true;
      _lastError := _lastError s |},
   resolve_all (_waiters s)).

Definition _onError (s : t) (err : exn) : t * list resolution :=
  let lastError := match _lastError s with
                   | Some e => Some e
                   | None => Some err
                   end in
  if negb (DataChannel.connected (base s)) then
    ({| base := base s; _queue := _queue s; _waiters := []; _closed := true;
        _lastError := lastError |},
     resolve_all (_waiters s))
  else
    ({| base := base s; _queue := _queue s; _waiters := _waiters s;
        _closed := _closed s; _lastError := lastError |},
     []).

(** [_getNext()], for the promise [p] it returns: resolved at once with the
    oldest message queued, or with null once closed, or left to wait. *)
Definition _getNext (s : t) (p : nat) : t * list resolution :=
  match _queue s with
  | data :: rest =>
      ({| base := base s; _queue := rest; _waiters := _waiters s;
          _closed := _closed s; _lastError := _lastError s |},
       [(p, Some data)])
  | [] =>
      if _closed s then (s, [(p, None)])
      else
        ({| base := base s; _queue := _queue s; _waiters := _waiters s ++ [p];
            _closed := _closed s; _lastError := _lastError s |},
         [])
  end.

Definition recv (s : t) (p : nat) : t * list resolution := _getNext s p.

Definition _cleanup (s : t) : t * list resolution :=
  ({| base := base s; _queue := []; _waiters := []; _closed := true;
      _lastError := _lastError s |},
   resolve_all (_waiters s)).

(** [close()] *)
Definition close (s : t) : t * list resolution :=
  _cleanup {| base := DataChannel.close (base s); _queue := _queue s;
              _waiters := _waiters s; _closed := _closed s;
              _lastError := _lastError s |}.

(** [connect()]; [opens] as for [DataChannel.connect].  A rejection is the
    caller's to handle and leaves the wrapper as it is. *)
Definition connect (s : t) (opens : bool) : t * list resolution :=
  match DataChannel.connect (base s) opens with
  | Ok b =>
      ({| base := b; _queue := _queue s; _waiters := _waiters s;
          _closed := _closed s; _lastError := _lastError s |},
       [])
  | Throw _ => (s, [])
  end.

(** What happens to the wrapper while its listeners are attached: the
    events of the channel, the calls of [connect] and those of
    [_getNext]. *)
Inductive event : Type :=
  | Message (data : list byte)
  | CloseEvent
  | ErrorEvent (err : exn)
  | Connect (opens : bool)
  | GetNext (p : nat).

Definition handle (s : t) (e : event) : t * list resolution :=
  match e with
  | Message data => _onMessage s data
  | CloseEvent => _onClose s
  | ErrorEvent err => _onError s err
  | Connect opens => connect s opens
  | GetNext p => _getNext s p
  end.

Fixpoint handle_all (s : t) (events : list event) : t * list resolution :=
  match events with
  | [] => (s, [])
  | e :: rest =>
      let '(s1, out1) := handle s e in
      let '(s2, out2) := handle_all s1 rest in
      (s2, out1 ++ out2)
  end.

End Receiver.

(** ** Vocabulary of the statements *)

(** Bytes on the wire. *)
Module Wire.

(** The bytes [setUint32] stores, as a list. *)
Definition le32 (v : Z) : list byte :=
  [to_u8 v; to_u8 (v / 2 ^ 8); to_u8 (v / 2 ^ 16); to_u8 (v / 2 ^ 24)].

Definition le16 (v : Z) : list byte := [to_u8 v; to_u8 (v / 2 ^ 8)].

(** The bytes of a CLOSE packet. *)
Definition close_bytes (sid reason : Z) : list byte :=
  to_u8 4 :: le32 sid ++ [to_u8 reason].

(** The bytes of the server's INFO packet. *)
Definition info_bytes (version : Z) (ext_buffer : list byte) : list byte :=
  to_u8 5 :: le32 0 ++ to_u8 version :: to_u8 0 :: ext_buffer.

(** The CONTINUE packet for a stream id and a credit. *)
Definition continue_packet (sid credit : Z) : Packet.WispPacket :=
  {| Packet.type := 3; Packet.stream_id := sid;
     Packet.payload_bytes := Some (le32 credit);
     Packet.payload :=
       Some (Packet.Continue {| Packet.buffer_remaining := credit |}) |}.

(** A complete record: id, length, payload. *)
Definition record_bytes (r : Z * list byte) : list byte :=
  to_u8 r.1 :: le32 (Packet.size r.2) ++ r.2.

Definition encode_records (rs : list (Z * list byte)) : list byte :=
  flat_map record_bytes rs.

Definition wf_record (r : Z * list byte) : Prop :=
  0 ≤ r.1 < 2 ^ 8 ∧ Packet.size r.2 < 2 ^ 32.

Section Parsed.
Context `{Platform}.

(** A payload is well formed when each field fits the width it is written
    with, and the hostname survives the platform's UTF-8 encoder and
    decoder. *)
Definition wf_payload (pl : Packet.Payload) : Prop :=
  match pl with
  | Packet.Connect c =>
      0 ≤ Packet.stream_type c < 2 ^ 8 ∧ 0 ≤ Packet.port c < 2 ^ 16 ∧
      decode_text (encode_text (Packet.hostname c)) = Packet.hostname c
  | Packet.Data _ => True
  | Packet.Continue c => 0 ≤ Packet.buffer_remaining c < 2 ^ 32
  | Packet.Close c => 0 ≤ Packet.reason c < 2 ^ 8
  | Packet.Info i =>
      0 ≤ Packet.major_ver i < 2 ^ 8 ∧ 0 ≤ Packet.minor_ver i < 2 ^ 8
  end.

(** What the parser makes of a record with id [r.1] and payload [r.2]. *)
Definition parsed_record (valid : list Extensions.ext_class)
    (role : Extensions.Role) (r : Z * list byte) : list Extensions.extension :=
  match Extensions.find_class valid r.1 with
  | Some c =>
      [{| Extensions.constructor := c;
          Extensions.payload :=
            Some match role with
                 | Extensions.client => Extensions.Client_parse c r.2
                 | Extensions.server => Extensions.Server_parse c r.2
                 end |}]
  | None => []
  end.

Definition parsed_records (valid : list Extensions.ext_class)
    (role : Extensions.Role) (rs : list (Z * list byte))
    : list Extensions.extension :=
  flat_map (parsed_record valid role) rs.

End Parsed.
End Wire.

(** States of the options and of the connection that the statements name. *)
Module Shape.
Import Wire.

(** [options] with the two stream-kind switches set. *)
Definition with_kind_gates (o : Options.t) (tcp udp : bool) : Options.t :=
  {| Options.hostname_blacklist := Options.hostname_blacklist o;
     Options.hostname_whitelist := Options.hostname_whitelist o;
     Options.port_blacklist := Options.port_blacklist o;
     Options.port_whitelist := Options.port_whitelist o;
     Options.allow_direct_ip := Options.allow_direct_ip o;
     Options.allow_private_ips := Options.allow_private_ips o;
     Options.allow_loopback_ips := Options.allow_loopback_ips o;
     Options.stream_limit_per_host := Options.stream_limit_per_host o;
     Options.stream_limit_total := Options.stream_limit_total o;
     Options.allow_udp_streams := udp;
     Options.allow_tcp_streams := tcp;
     Options.dns_ttl := Options.dns_ttl o;
     Options.wisp_version := Options.wisp_version o;
     Options.wisp_motd := Options.wisp_motd o |}.

(** [options] with the two quotas set. *)
Definition with_limits (o : Options.t) (total per_host : Z) : Options.t :=
  {| Options.hostname_blacklist := Options.hostname_blacklist o;
     Options.hostname_whitelist := Options.hostname_whitelist o;
     Options.port_blacklist := Options.port_blacklist o;
     Options.port_whitelist := Options.port_whitelist o;
     Options.allow_direct_ip := Options.allow_direct_ip o;
     Options.allow_private_ips := Options.allow_private_ips o;
     Options.allow_loopback_ips := Options.allow_loopback_ips o;
     Options.stream_limit_per_host := per_host;
     Options.stream_limit_total := total;
     Options.allow_udp_streams := Options.allow_udp_streams o;
     Options.allow_tcp_streams := Options.allow_tcp_streams o;
     Options.dns_ttl := Options.dns_ttl o;
     Options.wisp_version := Options.wisp_version o;
     Options.wisp_motd := Options.wisp_motd o |}.

(** Every entry of the stream table refers to a stream object that exists. *)
Definition table_refs_valid (conn : Connection.ServerConnection) : Prop :=
  ∀ k r, Connection.streams conn !! k = Some r →
         (r < length (Connection.objects conn))%nat.

(** The stream object [create_stream] makes. *)
Definition created_stream (sid ty : Z) (h : string) (p : Z)
    : Connection.ServerStream :=
  Connection.new_ServerStream sid
    {| Net.impl := if ty =? Packet.stream_types.TCP
                   then Net.NodeTCPSocket else Net.NodeUDPSocket;
       Net.hostname := h; Net.port := p; Net.socket := false;
       Net.connected := false; Net.written := [] |}.

(** The connection after the synchronous part of [create_stream]. *)
Definition entered (conn : Connection.ServerConnection) (sid ty : Z)
    (h : string) (p : Z) : Connection.ServerConnection :=
  Connection.with_tasks
    (Connection.with_streams
       (Connection.with_objects conn
          (Connection.objects conn ++ [created_stream sid ty h p]))
       (<[sid := length (Connection.objects conn)]> (Connection.streams conn)))
    (Connection.tasks conn
     ++ [{| Connection.task_stream := length (Connection.objects conn);
            Connection.task_stream_id := sid; Connection.task_type := ty;
            Connection.task_hostname := h; Connection.task_port := p |}]).

(** The connection after [ServerStream.close(reason)] on the object [r],
    which holds [this], over an open carrier. *)
Definition after_close (conn : Connection.ServerConnection) (r : nat)
    (this : Connection.ServerStream) (reason : option Z)
    : Connection.ServerConnection :=
  if Connection.closed this then conn else
  let conn :=
    Connection.with_objects conn
      (<[r := Connection.shut this]> (Connection.objects conn)) in
  match reason with
  | None => conn
  | Some reason =>
      Connection.with_trace conn
        (Connection.trace conn
         ++ [Connection.CarrierSend
               (close_bytes (Connection.stream_id this) reason)])
  end.

(** The connection after [close_stream(stream_id, reason, quiet)] when the
    table maps [stream_id] to the object [r]. *)
Definition after_close_stream (conn : Connection.ServerConnection) (sid : Z)
    (r : nat) (this : Connection.ServerStream) (reason : option Z) (quiet : bool)
    : Connection.ServerConnection :=
  let conn :=
    if Connection.truthy reason && negb quiet
    then Connection.with_log conn
           (Connection.log conn ++ [(logging.info, "closing stream"%string)])
    else conn in
  let conn := after_close conn r this reason in
  Connection.with_streams conn (delete sid (Connection.streams conn)).

(** A method that leaves the table referring to existing stream objects. *)
Definition keeps {A} (m : Connection.M A) : Prop :=
  ∀ conn, table_refs_valid conn → table_refs_valid (m conn).2.

Definition deletes (m : gmap Z nat) (ks : list Z) : gmap Z nat :=
  foldl (λ m k, delete k m) m ks.

End Shape.

(** Reading the events of a pump. *)
Module Spacing.

Definition is_sent (e : Pump.event) : Prop :=
  match e with Pump.Sent _ => True | Pump.Issued _ => False end.

(** Reading a trace with a counter of the writes since the last packet:
    every packet comes when the counter is at [buffer_size / 2]. *)
Fixpoint spaced (c : Z) (t : list Pump.event) : Prop :=
  match t with
  | [] => True
  | Pump.Sent _ :: t => spaced (c + 1) t
  | Pump.Issued _ :: t => c = Connection.buffer_size / 2 ∧ spaced 0 t
  end.

Fixpoint tail_count (c : Z) (t : list Pump.event) : Z :=
  match t with
  | [] => c
  | Pump.Sent _ :: t => tail_count (c + 1) t
  | Pump.Issued _ :: t => tail_count 0 t
  end.

(** The chunks written and the packets issued in a trace. *)
Fixpoint sents (t : list Pump.event) : Z :=
  match t with
  | [] => 0
  | Pump.Sent _ :: t => 1 + sents t
  | Pump.Issued _ :: t => sents t
  end.

Fixpoint issues (t : list Pump.event) : Z :=
  match t with
  | [] => 0
  | Pump.Sent _ :: t => issues t
  | Pump.Issued _ :: t => 1 + issues t
  end.

(** Reading a trace with the counter of the stream, [c] chunks written so
    far: a write makes it [c + 1]; [due] tells that the write just read
    made it a multiple of [buffer_size / 2].  A packet comes when one is
    due, at once, and nowhere else, and the trace does not end while one
    is due. *)
Fixpoint paced (c : Z) (due : bool) (t : list Pump.event) : Prop :=
  match t with
  | [] => due = false
  | Pump.Sent _ :: t =>
      due = false
      ∧ paced (c + 1) ((c + 1) mod (Connection.buffer_size / 2) =? 0) t
  | Pump.Issued _ :: t => due = true ∧ paced c false t
  end.

(** What the connection does to the outside for an event of the pump of
    the stream object [r]. *)
Definition io_of `{Platform} (r : nat) (e : Pump.event) : list Connection.io :=
  match e with
  | Pump.Sent data => [Connection.SocketSend r data]
  | Pump.Issued packet =>
      match Packet.serialize packet with
      | Ok bytes => [Connection.CarrierSend bytes]
      | Throw _ => []
      end
  end.

End Spacing.

(** The credit of a CONTINUE packet and the buffer of its stream. *)
Module Credit.



(** The credit carried by a packet, for a CONTINUE packet. *)
Definition credit (p : Packet.WispPacket) : option Z :=
  match Packet.payload p with
  | Some (Packet.Continue c) => Some (Packet.buffer_remaining c)
  | _ => None
  end.

End Credit.

(** What the codec makes of a payload: each numeric field is stored modulo
    the width it is written with, the hostname goes through the platform's
    encoder and decoder. *)
Module Canon.

Section Canon.
Context `{Platform}.

Definition wrap_payload (pl : Packet.Payload) : Packet.Payload :=
  match pl with
  | Packet.Connect c =>
      Packet.Connect
        {| Packet.stream_type := Packet.stream_type c mod 2 ^ 8;
           Packet.port := Packet.port c mod 2 ^ 16;
           Packet.hostname := decode_text (encode_text (Packet.hostname c)) |}
  | Packet.Data d => Packet.Data d
  | Packet.Continue c =>
      Packet.Continue
        {| Packet.buffer_remaining := Packet.buffer_remaining c mod 2 ^ 32 |}
  | Packet.Close c => Packet.Close {| Packet.reason := Packet.reason c mod 2 ^ 8 |}
  | Packet.Info i =>
      Packet.Info
        {| Packet.major_ver := Packet.major_ver i mod 2 ^ 8;
           Packet.minor_ver := Packet.minor_ver i mod 2 ^ 8;
           Packet.extensions := Packet.extensions i |}
  end.

(** The bytes a packet that [parse_all] accepted serializes to, given the
    bytes [b] it was parsed from: the header, and of the payload what its
    parser read. *)
Definition reserialized (pl : Packet.Payload) (b : list byte) : list byte :=
  match pl with
  | Packet.Connect _ => take 8 b ++ encode_text (decode_text (drop 8 b))
  | Packet.Data _ => b
  | Packet.Continue _ => take 9 b
  | Packet.Close _ => take 6 b
  | Packet.Info _ => b
  end.

End Canon.

(** The 32-bit little-endian value at an offset. *)
Definition u32_at (b : list byte) (off : Z) : Z :=
  Packet.byte_at b off + Packet.byte_at b (off + 1) * 2 ^ 8
  + Packet.byte_at b (off + 2) * 2 ^ 16 + Packet.byte_at b (off + 3) * 2 ^ 24.

End Canon.

(** Extensions as records on the wire. *)
Module Records.

Section Records.
Context `{Platform}.

(** The record an extension is written as: its id and its payload bytes. *)
Definition record_of (e : Extensions.extension) : Z * list byte :=
  (Extensions.id e,
   match Extensions.payload e with
   | Some p => Extensions.payload_serialize p
   | None => []
   end).

(** An extension as the server configures it: the payload is of the class
    the extension names for the server side, and a message survives the
    platform's encoder and decoder. *)
Definition server_made (e : Extensions.extension) : Prop :=
  match Extensions.constructor e, Extensions.payload e with
  | Extensions.MOTDExtension, Some (Extensions.MOTDServer m) =>
      decode_text (encode_text m) = m
  | Extensions.MOTDExtension, _ => False
  | _, Some Extensions.EmptyPayload => True
  | _, _ => False
  end.

(** The same extension with the payload the client side parses. *)
Definition client_read (e : Extensions.extension) : Extensions.extension :=
  {| Extensions.constructor := Extensions.constructor e;
     Extensions.payload := Some Extensions.EmptyPayload |}.

(** What the parser may return for an allow-list and a role. *)
Definition parsed_from (valid : list Extensions.ext_class) (role : Extensions.Role)
    (e : Extensions.extension) : Prop :=
  Extensions.constructor e ∈ valid
  ∧ ∃ p, Extensions.payload e = Some p
         ∧ (role = Extensions.client → p = Extensions.EmptyPayload).

End Records.
End Records.

(** Settings of the options that the statements on the policy name. *)
Module Settings.

(** [options] with the two hostname lists set. *)
Definition with_hostname_lists (o : Options.t)
    (whitelist blacklist : option (list RegExp)) : Options.t :=
  {| Options.hostname_blacklist := blacklist;
     Options.hostname_whitelist := whitelist;
     Options.port_blacklist := Options.port_blacklist o;
     Options.port_whitelist := Options.port_whitelist o;
     Options.allow_direct_ip := Options.allow_direct_ip o;
     Options.allow_private_ips := Options.allow_private_ips o;
     Options.allow_loopback_ips := Options.allow_loopback_ips o;
     Options.stream_limit_per_host := Options.stream_limit_per_host o;
     Options.stream_limit_total := Options.stream_limit_total o;
     Options.allow_udp_streams := Options.allow_udp_streams o;
     Options.allow_tcp_streams := Options.allow_tcp_streams o;
     Options.dns_ttl := Options.dns_ttl o;
     Options.wisp_version := Options.wisp_version o;
     Options.wisp_motd := Options.wisp_motd o |}.

(** [options] with the two port lists set. *)
Definition with_port_lists (o : Options.t)
    (whitelist blacklist : option (list port_entry)) : Options.t :=
  {| Options.hostname_blacklist := Options.hostname_blacklist o;
     Options.hostname_whitelist := Options.hostname_whitelist o;
     Options.port_blacklist := blacklist;
     Options.port_whitelist := whitelist;
     Options.allow_direct_ip := Options.allow_direct_ip o;
     Options.allow_private_ips := Options.allow_private_ips o;
     Options.allow_loopback_ips := Options.allow_loopback_ips o;
     Options.stream_limit_per_host := Options.stream_limit_per_host o;
     Options.stream_limit_total := Options.stream_limit_total o;
     Options.allow_udp_streams := Options.allow_udp_streams o;
     Options.allow_tcp_streams := Options.allow_tcp_streams o;
     Options.dns_ttl := Options.dns_ttl o;
     Options.wisp_version := Options.wisp_version o;
     Options.wisp_motd := Options.wisp_motd o |}.

(** One of the two quotas is set and reached by a table of [n] streams, [k]
    of them to the host asked for. *)
Definition quota_met (o : Options.t) (n k : Z) : Prop :=
  (Options.stream_limit_total o ≠ -1 ∧ Options.stream_limit_total o ≤ n)
  ∨ (Options.stream_limit_per_host o ≠ -1 ∧ Options.stream_limit_per_host o ≤ k).

End Settings.

(** Stream objects after a close. *)
Module Teardown.

(** A stream object after [close()]: as it is when it was closed already. *)
Definition closed_version (this : Connection.ServerStream) : Connection.ServerStream :=
  if Connection.closed this then this else Connection.shut this.

(** The stream objects after [close()] on the object [r]. *)
Definition close_object (objs : list Connection.ServerStream) (r : nat)
    : list Connection.ServerStream :=
  match objs !! r with
  | Some this => <[r := closed_version this]> objs
  | None => objs
  end.

(** Some id of [ks] is mapped to the object [r] by the table. *)
Definition referred (table : gmap Z nat) (ks : list Z) (r : nat) : Prop :=
  ∃ k, k ∈ ks ∧ table !! k = Some r.

End Teardown.

(** What a pump was given and what it delivered. *)
Module Delivery.

(** The chunks written to the destination, in order. *)
Definition sent_data (events : list Pump.event) : list (list byte) :=
  flat_map (λ e, match e with
                 | Pump.Sent data => [data]
                 | Pump.Issued _ => []
                 end) events.

(** The chunks the router put in the buffer, in order. *)
Definition puts (actions : list Pump.action) : list (list byte) :=
  flat_map (λ a, match a with
                 | Pump.Put data => [data]
                 | _ => []
                 end) actions.

(** The chunks held by the buffer of a stream object. *)
Definition held (s : Pump.state) : list (list byte) :=
  queue (Connection.clientToTarget (Pump.this s)).

(** The chunks written to the socket of a stream object since it was made. *)
Definition written (s : Pump.state) : list (list byte) :=
  Net.written (Connection.socket (Pump.this s)).

End Delivery.

(** The extensions of a handshake. *)
Module Negotiation.

(** The inner loop of the end of [setup_wisp_v2], for one extension of the
    client. *)
Definition record_one (exts : list Extensions.extension)
    (client_ext : Extensions.extension) (conn : Connection.ServerConnection)
    : Connection.ServerConnection :=
  foldl (λ conn server_ext,
    if Extensions.id server_ext =? Extensions.id client_ext
    then Connection.with_exts conn
           (<[Extensions.id server_ext := server_ext]> (Connection.server_exts conn))
           (<[Extensions.id client_ext := client_ext]> (Connection.client_exts conn))
    else conn) conn exts.

(** Some extension of the list has the id [i]. *)
Definition has_id (exts : list Extensions.extension) (i : Z) : Prop :=
  ∃ e, e ∈ exts ∧ Extensions.id e = i.

(** The id [i] is on both sides. *)
Definition common (exts client_extensions : list Extensions.extension) (i : Z) : Prop :=
  has_id exts i ∧ has_id client_extensions i.

End Negotiation.

(** Reading the events and the resolutions of the receiving side. *)
Module Inbox.

(** The messages of the events, in the order they came. *)
Definition arrived (events : list Receiver.event) : list (list byte) :=
  flat_map (λ e, match e with
                 | Receiver.Message data => [data]
                 | _ => []
                 end) events.

(** The promises of the events, in the order they were made. *)
Definition requested (events : list Receiver.event) : list nat :=
  flat_map (λ e, match e with
                 | Receiver.GetNext p => [p]
                 | _ => []
                 end) events.

(** The messages handed over, in the order of the resolutions. *)
Definition delivered (out : list Receiver.resolution) : list (list byte) :=
  flat_map (λ r, match r.2 with
                 | Some data => [data]
                 | None => []
                 end) out.

(** The promises resolved, in the order of the resolutions. *)
Definition resolved (out : list Receiver.resolution) : list nat := out.*1.

(** No message waits while a promise waits, and no promise waits once the
    wrapper is closed. *)
Definition balanced (s : Receiver.t) : Prop :=
  (Receiver._queue s = [] ∨ Receiver._waiters s = [])
  ∧ (Receiver._closed s = true → Receiver._waiters s = []).

End Inbox.

(** ** Sample inputs *)

(** A platform to run the definitions on: strings are ASCII, [trim] leaves
    them alone, no string is an address literal, and the readable side of a
    [PassThrough] holds what is queued up to the high-water mark. *)
Definition example_platform : Platform := {|
  encode_text := String.list_byte_of_string;
  decode_text := String.string_of_list_byte;
  trim := λ s, s;
  ipaddr_isValid := λ _, false;
  ipaddr_range := λ _, "unicast"%string;
  net_isIP := λ _, 0;
  is_node := true;
  readableLength := λ p, Z.min (Z.of_nat (length (queue p))) 128;
|}.

(** A version 1 connection over an open carrier, with no stream yet. *)
Definition example_conn : Connection.ServerConnection :=
  Connection.new_ServerConnection Options.options
    {| DataChannel.readyState := DataChannel.rs_open;
       DataChannel.connected := true |}
    (Some 1) None.


(** A stream object whose socket is connected, with [n] chunks written so
    far. *)
Definition example_stream (n : Z) : Connection.ServerStream :=
  {| Connection.stream_id := 1;
     Connection.socket :=
       {| Net.impl := Net.NodeTCPSocket; Net.hostname := "example.com";
          Net.port := 80; Net.socket := true; Net.connected := true;
          Net.written := [] |};
     Connection.clientToTarget := Connection.PassThrough_new;
     Connection.packets_sent := n;
     Connection.closed := false |}.

(** CONNECT, stream 1, TCP, port 80, "example.com". *)
Definition connect_bytes : list byte :=
  [x01; x01; x00; x00; x00; x01; x50; x00;
   x65; x78; x61; x6d; x70; x6c; x65; x2e; x63; x6f; x6d].

(** The task [create_stream] starts for that CONNECT. *)
Definition connect_task : Connection.task :=
  {| Connection.task_stream := 0; Connection.task_stream_id := 1;
     Connection.task_type := 1; Connection.task_hostname := "example.com";
     Connection.task_port := 80 |}.

(** * Properties *)

(** ** Bytes *)

Lemma u8_range b : 0 ≤ u8 b < 256.
Proof.
  unfold u8. pose proof (Byte.to_N_bounded b) as H.
  split; [apply N2Z.is_nonneg|].
  apply N2Z.inj_le in H. change (Z.of_N 255) with 255 in H. lia.
Qed.

Lemma u8_to_u8 v : u8 (to_u8 v) = v mod 256.
Proof.
  unfold u8, to_u8.
  assert (Hr : 0 ≤ v mod 256 < 256) by (apply Z.mod_pos_bound; lia).
  destruct (Byte.of_N (Z.to_N (v mod 256))) as [b|] eqn:E.
  - apply Byte.to_of_N in E. rewrite E. rewrite Z2N.id; lia.
  - apply Byte.of_N_None_iff in E. lia.
Qed.

Lemma to_u8_u8 b : to_u8 (u8 b) = b.
Proof.
  unfold to_u8. pose proof (u8_range b) as Hr.
  rewrite Z.mod_small by lia. unfold u8. rewrite N2Z.id.
  by rewrite Byte.of_to_N.
Qed.

Lemma u8_to_u8_small v : 0 ≤ v < 256 → u8 (to_u8 v) = v.
Proof. intros. rewrite u8_to_u8. apply Z.mod_small. lia. Qed.

(** ** Facts about the codec *)

Module PacketFacts.
Import Packet Wire.

Lemma in_view_true b off w :
  0 ≤ off → off + w ≤ size b → in_view b off w = true.
Proof. intros. unfold in_view. apply andb_true_iff. split; apply Z.leb_le; lia. Qed.

Lemma in_view_false b off w :
  size b < off + w → in_view b off w = false.
Proof. intros. unfold in_view. apply andb_false_iff. right. apply Z.leb_gt. lia. Qed.

Lemma size_app a b : size (a ++ b) = size a + size b.
Proof. unfold size. rewrite length_app. lia. Qed.

Lemma size_nonneg b : 0 ≤ size b.
Proof. unfold size. lia. Qed.

Lemma slice_from b k : 0 ≤ k → slice b k None = drop (Z.to_nat k) b.
Proof.
  intros Hk. unfold slice, rel_index.
  destruct (k <? 0) eqn:E; [apply Z.ltb_lt in E; lia|].
  unfold size.
  destruct (Z.min_spec k (Z.of_nat (length b))) as [[Hlt ->]|[Hge ->]].
  - apply take_ge. rewrite length_drop. lia.
  - rewrite Nat2Z.id, !drop_ge by lia. by rewrite take_nil.
Qed.

Lemma slice_app_from a b :
  slice (a ++ b) (size a) None = b.
Proof.
  rewrite slice_from by apply size_nonneg.
  unfold size. rewrite Nat2Z.id. by rewrite drop_app_length.
Qed.

Lemma slice_prefix b e : 0 ≤ e → slice b 0 (Some e) = take (Z.to_nat e) b.
Proof.
  intros He. unfold slice, rel_index. cbn [Z.ltb Z.compare].
  destruct (e <? 0) eqn:E; [apply Z.ltb_lt in E; lia|].
  rewrite (Z.min_l 0) by apply size_nonneg.
  change (Z.to_nat 0) with 0%nat. rewrite drop_0, Z.sub_0_r. unfold size.
  destruct (Z.min_spec e (Z.of_nat (length b))) as [[Hlt ->]|[Hge ->]]; [done|].
  rewrite Nat2Z.id. rewrite !take_ge; [done|lia|lia].
Qed.

(** Little-endian bytes of a 16- and a 32-bit value recompose to it. *)
Lemma le16_recompose v :
  0 ≤ v < 2 ^ 16 → v mod 256 + (v / 2 ^ 8) mod 256 * 2 ^ 8 = v.
Proof. intros. Z.to_euclidean_division_equations. lia. Qed.

Lemma le32_recompose v :
  0 ≤ v < 2 ^ 32 →
  v mod 256 + (v / 2 ^ 8) mod 256 * 2 ^ 8 + (v / 2 ^ 16) mod 256 * 2 ^ 16
  + (v / 2 ^ 24) mod 256 * 2 ^ 24 = v.
Proof. intros. Z.to_euclidean_division_equations. lia. Qed.

(** Offsets into a buffer are literals at every call site. *)
Ltac concrete_idx :=
  change (Z.to_nat 0) with 0%nat in *; change (Z.to_nat 1) with 1%nat in *;
  change (Z.to_nat 2) with 2%nat in *; change (Z.to_nat 3) with 3%nat in *;
  change (Z.to_nat 4) with 4%nat in *; change (Z.to_nat 5) with 5%nat in *.

Lemma byte_at_app pre l k :
  0 ≤ k → byte_at (pre ++ l) (size pre + k) = byte_at l k.
Proof.
  intros Hk. unfold byte_at, size.
  replace (Z.to_nat (Z.of_nat (length pre) + k))
    with (length pre + Z.to_nat k)%nat by lia.
  by rewrite lookup_app_r, Nat.add_sub' by lia.
Qed.

Lemma getUint32_le32 pre v rest :
  0 ≤ v < 2 ^ 32 →
  getUint32 (pre ++ le32 v ++ rest) (size pre) = Ok v.
Proof.
  intros Hv. unfold getUint32.
  rewrite in_view_true;
    [| apply size_nonneg | rewrite !size_app; pose proof (size_nonneg rest);
                           change (size (le32 v)) with 4; lia].
  f_equal. rewrite <- (Z.add_0_r (size pre)) at 1.
  rewrite !byte_at_app by lia.
  unfold byte_at. concrete_idx. cbn. rewrite !u8_to_u8. by apply le32_recompose.
Qed.

Lemma getUint16_le16 pre v rest :
  0 ≤ v < 2 ^ 16 →
  getUint16 (pre ++ le16 v ++ rest) (size pre) = Ok v.
Proof.
  intros Hv. unfold getUint16.
  rewrite in_view_true;
    [| apply size_nonneg | rewrite !size_app; pose proof (size_nonneg rest);
                           change (size (le16 v)) with 2; lia].
  f_equal. rewrite <- (Z.add_0_r (size pre)) at 1.
  rewrite !byte_at_app by lia.
  unfold byte_at. concrete_idx. cbn. rewrite !u8_to_u8. by apply le16_recompose.
Qed.

Lemma getUint8_head x rest : getUint8 (x :: rest) 0 = Ok (u8 x).
Proof.
  unfold getUint8. rewrite in_view_true; [done|lia|].
  unfold size. cbn [length]. lia.
Qed.

(** The same facts at the literal offsets of the call sites. *)
Lemma getUint16_at1 x v rest :
  0 ≤ v < 2 ^ 16 →
  getUint16 (x :: to_u8 v :: to_u8 (v / 2 ^ 8) :: rest) 1 = Ok v.
Proof. intros Hv. exact (getUint16_le16 [x] v rest Hv). Qed.

Lemma getUint32_at1 x v rest :
  0 ≤ v < 2 ^ 32 →
  getUint32 (x :: to_u8 v :: to_u8 (v / 2 ^ 8) :: to_u8 (v / 2 ^ 16)
               :: to_u8 (v / 2 ^ 24) :: rest) 1 = Ok v.
Proof. intros Hv. exact (getUint32_le32 [x] v rest Hv). Qed.

Lemma getUint32_at0 v rest :
  0 ≤ v < 2 ^ 32 →
  getUint32 (to_u8 v :: to_u8 (v / 2 ^ 8) :: to_u8 (v / 2 ^ 16)
               :: to_u8 (v / 2 ^ 24) :: rest) 0 = Ok v.
Proof. intros Hv. exact (getUint32_le32 [] v rest Hv). Qed.

Lemma getUint8_at1 x y rest : getUint8 (x :: y :: rest) 1 = Ok (u8 y).
Proof.
  unfold getUint8. rewrite in_view_true; [done|lia|].
  unfold size. cbn [length]. lia.
Qed.

Lemma slice_2 x y rest : slice (x :: y :: rest) 2 None = rest.
Proof. exact (slice_app_from [x; y] rest). Qed.

Lemma slice_3 x y z rest : slice (x :: y :: z :: rest) 3 None = rest.
Proof. exact (slice_app_from [x; y; z] rest). Qed.

Lemma slice_5 a b c d e rest :
  slice (a :: b :: c :: d :: e :: rest) 5 None = rest.
Proof. exact (slice_app_from [a; b; c; d; e] rest). Qed.

Section Roundtrip.
Context `{Platform}.

Lemma packet_classes_class_type c : packet_classes (class_type c) = Some c.
Proof. by destruct c. Qed.

Lemma ConnectPayload_serialize_eq c :
  ConnectPayload_serialize c
  = Ok (to_u8 (stream_type c) :: le16 (port c) ++ encode_text (hostname c)).
Proof. reflexivity. Qed.

Lemma ContinuePayload_serialize_eq c :
  ContinuePayload_serialize c = Ok (le32 (buffer_remaining c)).
Proof. reflexivity. Qed.

Lemma ClosePayload_serialize_eq c :
  ClosePayload_serialize c = Ok [to_u8 (reason c)].
Proof. reflexivity. Qed.

Lemma InfoPayload_serialize_eq i :
  InfoPayload_serialize i
  = Ok (to_u8 (major_ver i) :: to_u8 (minor_ver i) :: extensions i).
Proof. reflexivity. Qed.

Lemma payload_serialize_total pl : ∃ pb, payload_serialize pl = Ok pb.
Proof.
  destruct pl as [c|d|c|c|i]; cbn [payload_serialize].
  - rewrite ConnectPayload_serialize_eq; eauto.
  - unfold DataPayload_serialize; eauto.
  - rewrite ContinuePayload_serialize_eq; eauto.
  - rewrite ClosePayload_serialize_eq; eauto.
  - rewrite InfoPayload_serialize_eq; eauto.
Qed.

Lemma payload_roundtrip pl pb :
  wf_payload pl →
  payload_serialize pl = Ok pb →
  min_size (class_of pl) ≤ size pb ∧ payload_parse (class_of pl) pb = Ok pl.
Proof.
  destruct pl as [c|d|c|c|i]; cbn [payload_serialize wf_payload class_of min_size payload_parse].
  - intros (Hst & Hp & Hh). rewrite ConnectPayload_serialize_eq.
    intros [= <-]. split.
    { unfold size. cbn [length le16 app]. lia. }
    unfold ConnectPayload_parse. rewrite getUint8_head.
    cbn [mbind Result_bind].
    rewrite getUint16_at1 by done.
    cbn [mbind Result_bind fmap Result_fmap].
    rewrite slice_3, Hh, u8_to_u8_small by done. by destruct c.
  - intros _. unfold DataPayload_serialize. intros [= <-]. split.
    { apply size_nonneg. }
    by destruct d.
  - intros Hr. rewrite ContinuePayload_serialize_eq. intros [= <-]. split.
    { unfold size. cbn [length le32]. lia. }
    unfold ContinuePayload_parse, le32.
    rewrite getUint32_at0 by done.
    by destruct c.
  - intros Hr. rewrite ClosePayload_serialize_eq. intros [= <-]. split.
    { unfold size. cbn [length]. lia. }
    unfold ClosePayload_parse. rewrite getUint8_head.
    cbn [mbind Result_bind fmap Result_fmap].
    rewrite u8_to_u8_small by done. by destruct c.
  - intros (Hma & Hmi). rewrite InfoPayload_serialize_eq. intros [= <-]. split.
    { unfold size. cbn [length]. lia. }
    unfold InfoPayload_parse. rewrite getUint8_head.
    cbn [mbind Result_bind].
    rewrite getUint8_at1.
    cbn [mbind Result_bind fmap Result_fmap].
    rewrite slice_2, !u8_to_u8_small by done. by destruct i.
Qed.

Lemma serialize_eq p pl pb :
  payload p = Some pl →
  payload_serialize pl = Ok pb →
  serialize p = Ok (to_u8 (type p) :: le32 (stream_id p) ++ pb).
Proof.
  intros Hpl Hpb. unfold serialize. rewrite Hpl.
  change (setUint8 (zeroed 5) 0 (type p))
    with (Ok (A:=list byte) [to_u8 (type p); x00; x00; x00; x00]).
  cbn [mbind Result_bind].
  change (setUint32 [to_u8 (type p); x00; x00; x00; x00] 1 (stream_id p))
    with (Ok (A:=list byte) (to_u8 (type p) :: le32 (stream_id p))).
  cbn [mbind Result_bind]. by rewrite Hpb.
Qed.

Lemma parse_all_wire ty sid c pb pl :
  0 ≤ ty < 2 ^ 8 → 0 ≤ sid < 2 ^ 32 →
  packet_classes ty = Some c →
  min_size c ≤ size pb →
  payload_parse c pb = Ok pl →
  parse_all (to_u8 ty :: le32 sid ++ pb)
  = Ok {| type := ty; stream_id := sid;
          payload_bytes := Some pb; payload := Some pl |}.
Proof.
  intros Hty Hsid Hc Hmin Hparse. unfold parse_all.
  assert (Hsz : size (to_u8 ty :: le32 sid ++ pb) = 5 + size pb).
  { unfold size. cbn [length le32 app]. lia. }
  pose proof (size_nonneg pb) as Hpb.
  destruct (size (to_u8 ty :: le32 sid ++ pb) <? 5) eqn:E;
    [apply Z.ltb_lt in E; lia|].
  unfold parse. rewrite getUint8_head. cbn [mbind Result_bind le32 app].
  rewrite getUint32_at1 by done.
  cbn [mbind Result_bind]. unfold new_WispPacket.
  cbn [mbind Result_bind type payload_bytes stream_id le32 app].
  rewrite u8_to_u8_small by done. rewrite Hc, slice_5.
  destruct (size pb <? min_size c) eqn:E2; [apply Z.ltb_lt in E2; lia|].
  by rewrite Hparse.
Qed.

(** A packet that [parse_all] accepts carries the payload of the class its
    type names. *)
Lemma parse_all_payload b p :
  Packet.parse_all b = Ok p →
  ∃ c pl, Packet.packet_classes (Packet.type p) = Some c
          ∧ Packet.payload p = Some pl ∧ Packet.class_of pl = c.
Proof.
  unfold Packet.parse_all. destruct (Packet.size b <? 5); [done|].
  destruct (Packet.parse b) as [packet|] eqn:Hp; [|done].
  cbn [mbind Result_bind].
  destruct (Packet.packet_classes (Packet.type packet)) as [c|] eqn:Hc; [|done].
  destruct (Packet.payload_bytes packet) as [pb|]; [|done].
  destruct (Packet.size pb <? Packet.min_size c); [done|].
  destruct (Packet.payload_parse c pb) as [pl|] eqn:Hpl; [|done].
  cbn [mbind Result_bind]. intros [= <-]. exists c, pl.
  cbn [Packet.type Packet.payload]. split; [done|]. split; [done|].
  destruct c; cbn [Packet.payload_parse] in Hpl;
    match type of Hpl with
    | _ <$> ?x = _ => destruct x; [|done]
    end; cbn [fmap Result_fmap] in Hpl; by injection Hpl as <-.
Qed.

Lemma packet_classes_inv t c :
  Packet.packet_classes t = Some c → t = Packet.class_type c.
Proof.
  unfold Packet.packet_classes. intros Hc.
  repeat match type of Hc with
         | context [t =? ?k] =>
             destruct (t =? k) eqn:E;
             [apply Z.eqb_eq in E; by injection Hc as <-|clear E]
         end.
  discriminate Hc.
Qed.

(** The type of a parsed packet is the type of the class of its payload. *)
Lemma parse_all_type b p pl :
  Packet.parse_all b = Ok p → Packet.payload p = Some pl →
  Packet.type p = Packet.class_type (Packet.class_of pl).
Proof.
  intros Hp Hpl. apply parse_all_payload in Hp as (c & pl' & Hc & Hpl' & <-).
  rewrite Hpl in Hpl'. injection Hpl' as <-. by apply packet_classes_inv.
Qed.

End Roundtrip.
End PacketFacts.

(** C6. Encoding then decoding a packet is the identity: for each of the
    five payload classes, every stream id, every close reason code and every
    stream kind code (any byte), a packet built by the constructor from a
    well-formed payload serializes to a buffer that [parse_all] parses back
    to the same packet: same type, stream id, payload bytes and payload. *)
Theorem packet_encode_decode_identity `{Platform} (pl : Packet.Payload) (sid : Z) :
  Wire.wf_payload pl →
  0 ≤ sid < 2 ^ 32 →
  ∃ p b,
    Packet.new_WispPacket (Packet.class_type (Packet.class_of pl)) sid (Some pl) None
      = Ok p
    ∧ Packet.type p = Packet.class_type (Packet.class_of pl)
    ∧ Packet.stream_id p = sid
    ∧ Packet.payload p = Some pl
    ∧ Packet.serialize p = Ok b
    ∧ Packet.parse_all b = Ok p.
Proof.
  intros Hwf Hsid.
  destruct (PacketFacts.payload_serialize_total pl) as [pb Hpb].
  destruct (PacketFacts.payload_roundtrip pl pb Hwf Hpb) as [Hmin Hparse].
  eexists _, _. unfold Packet.new_WispPacket. rewrite Hpb.
  cbn [fmap Result_fmap mbind Result_bind].
  split; [reflexivity|]. cbn [Packet.type Packet.stream_id Packet.payload].
  do 3 (split; [reflexivity|]). split.
  - by apply (PacketFacts.serialize_eq _ pl pb).
  - cbn [Packet.type Packet.stream_id].
    apply (PacketFacts.parse_all_wire _ sid (Packet.class_of pl) pb pl);
      try done.
    + by destruct pl.
    + apply PacketFacts.packet_classes_class_type.
Qed.

Lemma packet_encode_decode_identity_witness :
  let pl := Packet.Connect {| Packet.stream_type := 1; Packet.port := 80;
                              Packet.hostname := "example.com" |} in
  @Wire.wf_payload example_platform pl ∧ 0 ≤ 1 < 2 ^ 32 ∧
  ∃ p b,
    @Packet.new_WispPacket example_platform
      (Packet.class_type (Packet.class_of pl)) 1 (Some pl) None = Ok p
    ∧ Packet.type p = Packet.class_type (Packet.class_of pl)
    ∧ Packet.stream_id p = 1
    ∧ Packet.payload p = Some pl
    ∧ @Packet.serialize example_platform p = Ok b
    ∧ @Packet.parse_all example_platform b = Ok p.
Proof.
  intros pl.
  assert (Hwf : @Wire.wf_payload example_platform pl).
  { cbn. split; [lia|]. split; [lia|]. reflexivity. }
  assert (Hsid : 0 ≤ 1 < 2 ^ 32) by lia.
  split; [exact Hwf|]. split; [exact Hsid|].
  exact (@packet_encode_decode_identity example_platform pl 1 Hwf Hsid).
Defined.

(** ** Facts about the extension list parser *)

Module ExtensionsFacts.
Import Packet PacketFacts Wire.

Section Parser.
Context `{Platform}.

Lemma byte_at_nonneg b off : 0 ≤ byte_at b off.
Proof.
  unfold byte_at. destruct (b !! Z.to_nat off); [apply u8_range|lia].
Qed.

Lemma getUint32_Ok b off v :
  getUint32 b off = Ok v → 0 ≤ off ∧ off + 4 ≤ size b ∧ 0 ≤ v.
Proof.
  unfold getUint32, in_view.
  destruct (0 <=? off) eqn:E1; [|discriminate].
  destruct (off + 4 <=? size b) eqn:E2; [|discriminate].
  cbn [andb]. intros [= <-].
  apply Z.leb_le in E1, E2.
  pose proof (byte_at_nonneg b off). pose proof (byte_at_nonneg b (off + 1)).
  pose proof (byte_at_nonneg b (off + 2)). pose proof (byte_at_nonneg b (off + 3)).
  lia.
Qed.

(** The counter of [parse_extensions] is never exhausted. *)
Lemma parse_extensions_loop_enough fuel b valid role acc :
  (length b ≤ fuel)%nat →
  ∃ r, Extensions.parse_extensions_loop fuel b valid role acc = Some r.
Proof.
  revert b acc. induction fuel as [|fuel IH]; intros b acc Hlen.
  - destruct b; [|cbn in Hlen; lia]. cbn. eauto.
  - cbn [Extensions.parse_extensions_loop].
    destruct (size b =? 0); [eauto|].
    destruct (getUint8 b 0); [|eauto].
    destruct (getUint32 b (0 + 1)) as [ext_len|] eqn:E; [|eauto].
    apply getUint32_Ok in E as (_ & Hsz & Hlen').
    apply IH. rewrite slice_from by lia. rewrite length_drop.
    unfold size in Hsz. lia.
Qed.

Lemma parse_extensions_total b valid role :
  ∃ r, Extensions.parse_extensions_loop (length b) b valid role [] = Some r
       ∧ Extensions.parse_extensions b valid role = r.
Proof.
  destruct (parse_extensions_loop_enough (length b) b valid role []) as [r Hr];
    [done|].
  exists r. split; [done|]. unfold Extensions.parse_extensions. by rewrite Hr.
Qed.

Lemma loop_nil fuel valid role acc :
  Extensions.parse_extensions_loop fuel [] valid role acc = Some (Ok acc).
Proof. by destruct fuel. Qed.

(** One turn of the loop on a record whose declared length [len] is at
    least the number of bytes that follow: the record is cut at the end of
    the buffer, and the loop ends there. *)
Lemma loop_last_record fuel valid role acc id_ len rest :
  0 ≤ id_ < 2 ^ 8 → size rest ≤ len < 2 ^ 32 →
  Extensions.parse_extensions_loop (S fuel) (to_u8 id_ :: le32 len ++ rest)
    valid role acc
  = Some (Ok (acc ++ parsed_record valid role (id_, rest))).
Proof.
  intros Hid Hlen. cbn [Extensions.parse_extensions_loop].
  assert (Hsz : size (to_u8 id_ :: le32 len ++ rest) = 5 + size rest).
  { unfold size. cbn [length le32 app]. lia. }
  pose proof (size_nonneg rest) as Hrest.
  destruct (size (to_u8 id_ :: le32 len ++ rest) =? 0) eqn:E;
    [apply Z.eqb_eq in E; lia|].
  rewrite getUint8_head. change (0 + 1) with 1. cbn [le32 app].
  rewrite getUint32_at1 by lia.
  rewrite u8_to_u8_small by done.
  rewrite (slice_from _ (5 + len)) by lia.
  rewrite drop_ge, loop_nil by (unfold size in *; cbn [length] in *; lia).
  f_equal. f_equal. unfold parsed_record. cbn [fst snd].
  destruct (Extensions.find_class valid id_) as [c|]; [|by rewrite app_nil_r].
  f_equal. f_equal. unfold Extensions.parse.
  rewrite slice_prefix by lia.
  rewrite take_ge by (unfold size in *; cbn [length] in *; lia).
  rewrite slice_5. by destruct role.
Qed.

(** One turn of the loop on a complete record followed by [tail]. *)
Lemma loop_complete_record fuel valid role acc r tail :
  wf_record r →
  Extensions.parse_extensions_loop (S fuel) (record_bytes r ++ tail) valid role acc
  = Extensions.parse_extensions_loop fuel tail valid role
      (acc ++ parsed_record valid role r).
Proof.
  destruct r as [id_ pl]. intros [Hid Hlen]. cbn [fst snd] in *.
  cbn [Extensions.parse_extensions_loop].
  pose proof (size_nonneg pl) as Hpl. pose proof (size_nonneg tail) as Htl.
  assert (Hsz : size (record_bytes (id_, pl) ++ tail) = 5 + size pl + size tail).
  { unfold size, record_bytes. cbn [fst snd]. rewrite ?length_app.
    cbn [length le32 app]. rewrite ?length_app. cbn [length]. lia. }
  destruct (size (record_bytes (id_, pl) ++ tail) =? 0) eqn:E;
    [apply Z.eqb_eq in E; lia|].
  unfold record_bytes. cbn [fst snd le32 app].
  rewrite getUint8_head. change (0 + 1) with 1.
  rewrite <- ?app_assoc. cbn [app].
  rewrite getUint32_at1 by lia.
  rewrite u8_to_u8_small by done.
  set (hd := [to_u8 id_; to_u8 (size pl); to_u8 (size pl / 2 ^ 8);
              to_u8 (size pl / 2 ^ 16); to_u8 (size pl / 2 ^ 24)]).
  change (to_u8 id_ :: to_u8 (size pl) :: to_u8 (size pl / 2 ^ 8)
          :: to_u8 (size pl / 2 ^ 16) :: to_u8 (size pl / 2 ^ 24) :: pl ++ tail)
    with (hd ++ pl ++ tail).
  assert (Hhd : length hd = 5%nat) by done.
  rewrite (slice_from _ (5 + size pl)) by lia.
  replace (Z.to_nat (5 + size pl)) with (length (hd ++ pl))
    by (rewrite length_app, Hhd; unfold size; lia).
  rewrite (app_assoc hd pl tail), drop_app_length.
  f_equal. f_equal. unfold parsed_record. cbn [fst snd].
  destruct (Extensions.find_class valid id_) as [c|]; [|by rewrite app_nil_r].
  f_equal. f_equal. unfold Extensions.parse.
  rewrite slice_prefix by lia.
  replace (Z.to_nat (5 + size pl)) with (length (hd ++ pl))
    by (rewrite length_app, Hhd; unfold size; lia).
  rewrite take_app_length.
  change (hd ++ pl) with (to_u8 id_ :: to_u8 (size pl) :: to_u8 (size pl / 2 ^ 8)
          :: to_u8 (size pl / 2 ^ 16) :: to_u8 (size pl / 2 ^ 24) :: pl).
  rewrite slice_5. by destruct role.
Qed.

Lemma loop_complete_records rs : ∀ fuel valid role acc tail,
  Forall wf_record rs →
  Extensions.parse_extensions_loop (length rs + fuel) (encode_records rs ++ tail)
    valid role acc
  = Extensions.parse_extensions_loop fuel tail valid role
      (acc ++ parsed_records valid role rs).
Proof.
  induction rs as [|r rs IH]; intros fuel valid role acc tail Hwf.
  - cbn. by rewrite app_nil_r.
  - apply Forall_cons in Hwf as [Hr Hrs].
    unfold encode_records, parsed_records. cbn [flat_map length Nat.add].
    rewrite <- app_assoc, loop_complete_record by done.
    fold (encode_records rs). rewrite IH by done.
    by rewrite <- app_assoc.
Qed.

Lemma length_encode_records rs : (length rs ≤ length (encode_records rs))%nat.
Proof.
  induction rs as [|r rs IH]; [done|].
  unfold encode_records in *. cbn [flat_map]. rewrite length_app.
  unfold record_bytes at 1. cbn [length]. lia.
Qed.

End Parser.
End ExtensionsFacts.

(** C5 as stated fails: a UDP record (id 1) declaring ten bytes of payload
    with a single byte left in the buffer is accepted, and no error is
    raised. *)
Lemma overlong_extension_accepted :
  @Extensions.parse_extensions example_platform
    [x01; x0a; x00; x00; x00; xaa] [Extensions.UDPExtension] Extensions.client
  = Ok [{| Extensions.constructor := Extensions.UDPExtension;
           Extensions.payload := Some Extensions.EmptyPayload |}].
Proof. vm_compute. reflexivity. Qed.

(** C5, amended. For a buffer made of complete records followed by a record
    whose declared length exceeds the bytes that remain after its five-byte
    header, [parse_extensions] does not fail: the record is cut at the end
    of the buffer, it is accepted with the remaining bytes as its payload
    when its id is in the allow-list and skipped otherwise, and parsing ends
    there. *)
Theorem overlong_extension_is_clamped `{Platform}
    (valid : list Extensions.ext_class) (role : Extensions.Role)
    (rs : list (Z * list byte)) (id_ len : Z) (rest : list byte) :
  Forall Wire.wf_record rs →
  0 ≤ id_ < 2 ^ 8 →
  Packet.size rest < len < 2 ^ 32 →
  Extensions.parse_extensions
    (Wire.encode_records rs ++ to_u8 id_ :: Wire.le32 len ++ rest)
    valid role
  = Ok (Wire.parsed_records valid role rs
        ++ Wire.parsed_record valid role (id_, rest)).
Proof.
  intros Hrs Hid Hlen. unfold Extensions.parse_extensions.
  pose proof (ExtensionsFacts.length_encode_records rs) as Hle.
  set (bad := to_u8 id_ :: Wire.le32 len ++ rest).
  assert (Hfuel : ∃ k, length (Wire.encode_records rs ++ bad)
                       = (length rs + S k)%nat).
  { exists (length (Wire.encode_records rs ++ bad) - length rs - 1)%nat.
    rewrite length_app. unfold bad. cbn [length]. lia. }
  destruct Hfuel as [k ->].
  rewrite ExtensionsFacts.loop_complete_records by done.
  unfold bad. rewrite ExtensionsFacts.loop_last_record by lia.
  reflexivity.
Qed.

Lemma overlong_extension_is_clamped_witness :
  Forall Wire.wf_record [(4, [x68; x69])] ∧
  0 ≤ 1 < 2 ^ 8 ∧
  Packet.size [xaa] < 10 < 2 ^ 32 ∧
  @Extensions.parse_extensions example_platform
    (Wire.encode_records [(4, [x68; x69])]
     ++ to_u8 1 :: Wire.le32 10 ++ [xaa])
    [Extensions.UDPExtension; Extensions.MOTDExtension] Extensions.client
  = Ok (@Wire.parsed_records example_platform
          [Extensions.UDPExtension; Extensions.MOTDExtension] Extensions.client
          [(4, [x68; x69])]
        ++ @Wire.parsed_record example_platform
             [Extensions.UDPExtension; Extensions.MOTDExtension] Extensions.client
             (1, [xaa])).
Proof.
  assert (H1 : Forall Wire.wf_record [(4, [x68; x69])]).
  { repeat constructor; vm_compute; congruence. }
  assert (H2 : 0 ≤ 1 < 2 ^ 8) by lia.
  assert (H3 : Packet.size [xaa] < 10 < 2 ^ 32) by (vm_compute; done).
  split; [exact H1|]. split; [exact H2|]. split; [exact H3|].
  exact (@overlong_extension_is_clamped example_platform _ _ _ _ _ _ H1 H2 H3).
Defined.

(** ** Facts about the DNS cache *)

Module NetFacts.

Section Cache.
Context `{Platform}.

(** The eviction keeps exactly the entries whose age, the difference of two
    readings of [Date.now()], is at most [dns_ttl]. *)
Lemma evict_lookup dns_ttl now (dns_cache : gmap string Net.cache_entry) h e :
  Net.evict dns_ttl now dns_cache !! h = Some e
  ↔ dns_cache !! h = Some e ∧ now - Net.time e ≤ dns_ttl.
Proof.
  unfold Net.evict. rewrite map_lookup_filter_Some. unfold Net.fresh.
  cbn [snd]. split; intros [? ?]; (split; [done|lia]).
Qed.

(** A name that is not an address literal, looked up on node, with an entry
    still in the cache after eviction: the stored address is returned and
    no resolution is made. *)
Lemma lookup_ip_hit opts io (dns_cache : gmap string Net.cache_entry) h e a :
  is_node = true → net_isIP h ≠ 4 → net_isIP h ≠ 6 →
  dns_cache !! h = Some e →
  Net.now_on_entry io - Net.time e ≤ Options.dns_ttl opts →
  Net.error e = None → Net.address e = Some a →
  Net.value (Net.lookup_ip opts io dns_cache h) = Ok a
  ∧ Net.resolved (Net.lookup_ip opts io dns_cache h) = false.
Proof.
  intros Hnode H4 H6 He Hfresh Herr Haddr. unfold Net.lookup_ip.
  rewrite Hnode. cbn [negb].
  destruct (net_isIP h =? 4) eqn:E4; [apply Z.eqb_eq in E4; congruence|].
  destruct (net_isIP h =? 6) eqn:E6; [apply Z.eqb_eq in E6; congruence|].
  cbn [orb].
  assert (Hl : Net.evict (Options.dns_ttl opts) (Net.now_on_entry io) dns_cache !! h
               = Some e) by (by apply evict_lookup).
  rewrite Hl, Herr, Haddr. done.
Qed.

(** An entry older than [dns_ttl], in the unit of [Date.now()], is gone: the
    name is resolved again. *)
Lemma lookup_ip_stale opts io (dns_cache : gmap string Net.cache_entry) h e :
  is_node = true → net_isIP h ≠ 4 → net_isIP h ≠ 6 →
  dns_cache !! h = Some e →
  Net.now_on_entry io - Net.time e > Options.dns_ttl opts →
  Net.value (Net.lookup_ip opts io dns_cache h) = Net.resolution io
  ∧ Net.resolved (Net.lookup_ip opts io dns_cache h) = true.
Proof.
  intros Hnode H4 H6 He Hstale. unfold Net.lookup_ip.
  rewrite Hnode. cbn [negb].
  destruct (net_isIP h =? 4) eqn:E4; [apply Z.eqb_eq in E4; congruence|].
  destruct (net_isIP h =? 6) eqn:E6; [apply Z.eqb_eq in E6; congruence|].
  cbn [orb].
  destruct (Net.evict (Options.dns_ttl opts) (Net.now_on_entry io) dns_cache !! h)
    as [e'|] eqn:Hl.
  { apply evict_lookup in Hl as [He' Hfresh]. simplify_eq; lia. }
  by destruct (Net.resolution io).
Qed.

End Cache.
End NetFacts.

(** C3, at the failing input. With the default [dns_ttl] of 120, an address
    stored at time 0 is looked up again one second (1000 ms) later: the
    entry is evicted, [perform_lookup] is called, and its answer is
    returned instead of the stored address. *)
Theorem lookup_ip_one_second_later :
  let dns_cache : gmap string Net.cache_entry :=
    {[ "example.com"%string :=
         {| Net.time := 0; Net.address := Some "93.184.216.34"%string;
            Net.error := None |} ]} in
  let io := {| Net.now_on_entry := 1000;
               Net.resolution := Ok "203.0.113.7"%string;
               Net.now_on_store := 1001 |} in
  let r := @Net.lookup_ip example_platform Options.options io dns_cache "example.com" in
  Net.resolved r = true
  ∧ Net.value r = Ok "203.0.113.7"%string
  ∧ Net.evict (Options.dns_ttl Options.options) 1000 dns_cache = ∅.
Proof.
  intros dns_cache io r.
  assert (Hc : dns_cache !! "example.com"%string
               = Some {| Net.time := 0; Net.address := Some "93.184.216.34"%string;
                         Net.error := None |})
    by apply lookup_singleton_eq.
  destruct (@NetFacts.lookup_ip_stale example_platform Options.options io
              dns_cache "example.com" _ eq_refl ltac:(done) ltac:(done) Hc
              ltac:(done)) as [Hv Hr].
  split; [exact Hr|]. split; [exact Hv|].
  apply map_eq. intros h. rewrite lookup_empty.
  apply eq_None_not_Some. intros [e He].
  apply NetFacts.evict_lookup in He as [He Hfresh].
  unfold dns_cache in He. apply lookup_singleton_Some in He as [_ <-].
  cbn in Hfresh. lia.
Qed.

(** ** Facts about the destination policy *)

Module FilterFacts.
Import Shape.

Section Counting.
Context {Stream : Type}.
Implicit Types (sh : Stream → string) (m : gmap Z Stream).

Lemma streams_per_host_empty sh h : Filter.streams_per_host sh ∅ h = 0.
Proof. unfold Filter.streams_per_host. apply map_fold_empty. Qed.

Lemma streams_per_host_insert sh m k r h :
  m !! k = None →
  Filter.streams_per_host sh (<[k := r]> m) h
  = (if String.eqb (sh r) h then 1 else 0) + Filter.streams_per_host sh m h.
Proof.
  intros Hk. unfold Filter.streams_per_host.
  rewrite map_fold_insert_L; [|intros; repeat case_match; lia|done].
  case_match; lia.
Qed.

Lemma streams_per_host_nonneg sh m h : 0 ≤ Filter.streams_per_host sh m h.
Proof.
  induction m as [|k r m Hk IH] using map_ind.
  - by rewrite streams_per_host_empty.
  - rewrite streams_per_host_insert by done. case_match; lia.
Qed.

Lemma streams_per_host_ext sh sh' m h :
  (∀ k r, m !! k = Some r → sh r = sh' r) →
  Filter.streams_per_host sh m h = Filter.streams_per_host sh' m h.
Proof.
  induction m as [|k r m Hk IH] using map_ind; intros Hext.
  - by rewrite !streams_per_host_empty.
  - rewrite !streams_per_host_insert by done.
    rewrite (Hext k r) by apply lookup_insert_eq.
    rewrite IH; [done|]. intros k' r' Hk'. apply (Hext k').
    rewrite lookup_insert_ne; [done|]. intros ->. congruence.
Qed.

(** Entering a stream under [k] adds it to the count next to the streams
    under the other ids. *)
Lemma streams_per_host_entered sh m k r h :
  Filter.streams_per_host sh (<[k := r]> m) h
  = (if String.eqb (sh r) h then 1 else 0)
    + Filter.streams_per_host sh (delete k m) h.
Proof.
  rewrite <- (insert_delete_eq m).
  apply streams_per_host_insert, lookup_delete_eq.
Qed.

Lemma size_entered m k r : size (<[k := r]> m) = S (size (delete k m)).
Proof.
  rewrite <- (insert_delete_eq m).
  apply map_size_insert_None, lookup_delete_eq.
Qed.

End Counting.

Section Gates.
Context `{Platform} {Stream : Type}.
Implicit Types (sh : Stream → string) (m : gmap Z Stream).

(** A destination the gates let through (the verdict without a connection
    is [0]) is refused with [ConnThrottled] as soon as one of the two quotas
    is reached by the table as it is when the check runs. *)
Lemma quota_reached sh opts m ty h p l :
  Filter.is_stream_allowed sh opts None ty h p l = 0 →
  (Options.stream_limit_total opts ≠ -1
     ∧ Options.stream_limit_total opts ≤ Z.of_nat (size m))
  ∨ (Options.stream_limit_per_host opts ≠ -1
     ∧ Options.stream_limit_per_host opts ≤ Filter.streams_per_host sh m h) →
  Filter.is_stream_allowed sh opts (Some m) ty h p l
  = Packet.close_reasons.ConnThrottled.
Proof.
  unfold Filter.is_stream_allowed. cbv zeta. intros Hpass Hq.
  repeat match type of Hpass with
         | context [if ?c then Packet.close_reasons.HostBlocked else _] =>
             destruct c; [discriminate Hpass|]
         end.
  destruct Hq as [[Hne Hle]|[Hne Hle]].
  - apply Z.eqb_neq in Hne. rewrite Hne. cbn [negb andb].
    apply Z.geb_le in Hle. by rewrite Hle.
  - destruct (negb _ && (_ >=? Options.stream_limit_total opts)); [done|].
    apply Z.eqb_neq in Hne. rewrite Hne. cbn [negb andb].
    apply Z.geb_le in Hle. by rewrite Hle.
Qed.

(** A destination a gate refuses is refused with [HostBlocked], with or
    without a connection. *)
Lemma gate_refuses sh opts m ty h p l :
  Filter.is_stream_allowed sh opts None ty h p l ≠ 0 →
  Filter.is_stream_allowed sh opts (Some m) ty h p l
  = Packet.close_reasons.HostBlocked.
Proof.
  unfold Filter.is_stream_allowed. cbv zeta. intros Hdeny.
  repeat match type of Hdeny with
         | context [if ?c then Packet.close_reasons.HostBlocked else _] =>
             destruct c; [done|]
         end.
  done.
Qed.

(** The two kind switches are consulted for the kinds 1 and 2 only. *)
Lemma kind_gates_other sh opts connection ty h p l tcp udp :
  ty ≠ Packet.stream_types.TCP → ty ≠ Packet.stream_types.UDP →
  Filter.is_stream_allowed sh (with_kind_gates opts tcp udp) connection ty h p l
  = Filter.is_stream_allowed sh (with_kind_gates opts true true) connection ty h p l.
Proof.
  intros Ht Hu. unfold Filter.is_stream_allowed.
  apply Z.eqb_neq in Ht, Hu. rewrite Ht, Hu.
  cbn [with_kind_gates Options.allow_tcp_streams Options.allow_udp_streams].
  by rewrite !andb_false_r.
Qed.

Lemma kind_gate_tcp sh opts connection h p l udp :
  Filter.is_stream_allowed sh (with_kind_gates opts false udp) connection
    Packet.stream_types.TCP h p l = Packet.close_reasons.HostBlocked.
Proof. reflexivity. Qed.

Lemma kind_gate_udp sh opts connection h p l tcp :
  Filter.is_stream_allowed sh (with_kind_gates opts tcp false) connection
    Packet.stream_types.UDP h p l = Packet.close_reasons.HostBlocked.
Proof. unfold Filter.is_stream_allowed. by destruct tcp. Qed.

End Gates.
End FilterFacts.

(** ** Facts about the connection engine *)

Module ConnectionFacts.
Import Connection Shape.

Section Create.
Context `{Platform}.

Lemma create_stream_spec conn sid ty h p :
  is_node = true →
  create_stream sid ty h p conn = (Ok tt, entered conn sid ty h p).
Proof.
  intros Hnode. unfold create_stream, Net.new_Socket. rewrite Hnode.
  reflexivity.
Qed.

Lemma socket_hostname_entered_old conn sid ty h p r :
  (r < length (objects conn))%nat →
  socket_hostname (entered conn sid ty h p) r = socket_hostname conn r.
Proof.
  intros Hr. unfold socket_hostname, entered. cbn [objects with_tasks with_streams with_objects].
  by rewrite lookup_app_l.
Qed.

Lemma socket_hostname_entered_new conn sid ty h p :
  socket_hostname (entered conn sid ty h p) (length (objects conn)) = h.
Proof.
  unfold socket_hostname, entered. cbn [objects with_tasks with_streams with_objects].
  rewrite lookup_app_r by lia. by rewrite Nat.sub_diag.
Qed.

Lemma table_refs_valid_entered conn sid ty h p :
  table_refs_valid conn → table_refs_valid (entered conn sid ty h p).
Proof.
  intros Hv k r. unfold entered.
  cbn [objects streams with_tasks with_streams with_objects].
  rewrite length_app. cbn [length].
  destruct (decide (sid = k)) as [->|Hne].
  - rewrite lookup_insert_eq. intros [= <-]. lia.
  - rewrite lookup_insert_ne by done. intros Hk. apply Hv in Hk. lia.
Qed.

(** The count of streams to [h] once the new stream is entered: the new
    stream itself and the streams under the other ids. *)
Lemma streams_per_host_after_create conn sid ty h p :
  table_refs_valid conn →
  Filter.streams_per_host (socket_hostname (entered conn sid ty h p))
    (streams (entered conn sid ty h p)) h
  = 1 + Filter.streams_per_host (socket_hostname conn)
          (delete sid (streams conn)) h.
Proof.
  intros Hv.
  change (streams (entered conn sid ty h p))
    with (<[sid := length (objects conn)]> (streams conn)).
  rewrite FilterFacts.streams_per_host_entered.
  rewrite socket_hostname_entered_new, String.eqb_refl. f_equal.
  apply FilterFacts.streams_per_host_ext. intros k r Hk.
  apply socket_hostname_entered_old.
  apply lookup_delete_Some in Hk as [_ Hk]. by apply (Hv k).
Qed.

End Create.
End ConnectionFacts.

(** C10. A CONNECT packet whose stream kind byte is neither 1 (TCP) nor
    2 (UDP) is routed to [create_stream], which gives it a UDP destination
    socket; and the verdict of [is_stream_allowed] on such a kind does not
    depend on [allow_tcp_streams] and [allow_udp_streams]: with both
    switches off it is what it is with both on.  The switches refuse the
    kinds 1 and 2, and only those. *)
Theorem other_kinds_are_udp_and_ungated `{Platform} (options : Options.t)
    (conn : Connection.ServerConnection) (connection : option (gmap Z nat))
    (buffer : list byte) (packet : Packet.WispPacket) (pl : Packet.ConnectPayload)
    (lookup : Result string) (tcp udp : bool) :
  is_node = true →
  Packet.parse_all buffer = Ok packet →
  Packet.payload packet = Some (Packet.Connect pl) →
  Packet.stream_type pl ≠ 1 → Packet.stream_type pl ≠ 2 →
  let ty := Packet.stream_type pl in
  let hostname := trim (Packet.hostname pl) in
  let port := Packet.port pl in
  let conn1 := (Connection.route_packet buffer conn).2 in
  (∃ r stream,
      (Connection.route_packet buffer conn).1 = Ok tt
      ∧ Connection.streams conn1 !! Packet.stream_id packet = Some r
      ∧ Connection.objects conn1 !! r = Some stream
      ∧ Net.impl (Connection.socket stream) = Net.NodeUDPSocket
      ∧ Net.hostname (Connection.socket stream) = hostname
      ∧ Net.port (Connection.socket stream) = port)
  ∧ Filter.is_stream_allowed (Connection.socket_hostname conn1)
      (Shape.with_kind_gates options tcp udp) connection ty hostname port lookup
    = Filter.is_stream_allowed (Connection.socket_hostname conn1)
        (Shape.with_kind_gates options true true) connection ty hostname port lookup
  ∧ Filter.is_stream_allowed (Connection.socket_hostname conn1)
      (Shape.with_kind_gates options false udp) connection 1 hostname port lookup
    = Packet.close_reasons.HostBlocked
  ∧ Filter.is_stream_allowed (Connection.socket_hostname conn1)
      (Shape.with_kind_gates options tcp false) connection 2 hostname port lookup
    = Packet.close_reasons.HostBlocked.
Proof.
  intros Hnode Hparse Hpl Ht Hu ty hostname port conn1.
  subst ty hostname port conn1.
  assert (Hty : Packet.type packet = 1)
    by apply (PacketFacts.parse_all_type buffer packet _ Hparse Hpl).
  assert (Hroute : Connection.route_packet buffer conn
                   = (Ok tt,
                      Shape.entered
                        (Connection.with_log conn
                           (Connection.log conn
                            ++ [(logging.info, "opening new stream"%string)]))
                        (Packet.stream_id packet) (Packet.stream_type pl)
                        (trim (Packet.hostname pl)) (Packet.port pl))).
  { unfold Connection.route_packet.
    cbv [mbind Connection.M_bind Connection.lift Connection.get].
    rewrite Hparse, Hpl, Hty. rewrite andb_false_r.
    cbv [Connection.logging_at Connection.modify].
    by rewrite ConnectionFacts.create_stream_spec. }
  rewrite Hroute. cbn [fst snd].
  split; [|split; [|split]].
  - exists (length (Connection.objects conn)),
           (Shape.created_stream (Packet.stream_id packet) (Packet.stream_type pl)
              (trim (Packet.hostname pl)) (Packet.port pl)).
    split; [done|]. split; [apply lookup_insert_eq|]. split.
    + unfold Shape.entered.
      cbn [Connection.objects Connection.with_tasks Connection.with_streams
           Connection.with_objects Connection.with_log].
      rewrite lookup_app_r by lia. by rewrite Nat.sub_diag.
    + unfold Shape.created_stream.
      cbn [Connection.socket Connection.new_ServerStream Net.impl Net.hostname
           Net.port].
      unfold Packet.stream_types.TCP.
      apply Z.eqb_neq in Ht. by rewrite Ht.
  - by apply FilterFacts.kind_gates_other.
  - apply FilterFacts.kind_gate_tcp.
  - apply FilterFacts.kind_gate_udp.
Qed.

Lemma other_kinds_are_udp_and_ungated_witness :
  let buffer := [x01; x01; x00; x00; x00; x03; x50; x00; x61; x2e; x62] in
  let pl := {| Packet.stream_type := 3; Packet.port := 80;
               Packet.hostname := "a.b" |} in
  let packet := {| Packet.type := 1; Packet.stream_id := 1;
                   Packet.payload_bytes := Some (drop 5 buffer);
                   Packet.payload := Some (Packet.Connect pl) |} in
  let conn1 := (@Connection.route_packet example_platform buffer example_conn).2 in
  @is_node example_platform = true
  ∧ @Packet.parse_all example_platform buffer = Ok packet
  ∧ Packet.payload packet = Some (Packet.Connect pl)
  ∧ Packet.stream_type pl ≠ 1 ∧ Packet.stream_type pl ≠ 2
  ∧ (∃ r stream,
        (@Connection.route_packet example_platform buffer example_conn).1 = Ok tt
        ∧ Connection.streams conn1 !! Packet.stream_id packet = Some r
        ∧ Connection.objects conn1 !! r = Some stream
        ∧ Net.impl (Connection.socket stream) = Net.NodeUDPSocket
        ∧ Net.hostname (Connection.socket stream) = "a.b"%string
        ∧ Net.port (Connection.socket stream) = 80)
  ∧ @Filter.is_stream_allowed example_platform nat (Connection.socket_hostname conn1)
      (Shape.with_kind_gates Options.options false false)
      (Some (Connection.streams conn1)) 3 "a.b" 80 (Ok "93.184.216.34"%string)
    = 0.
Proof.
  intros buffer pl packet conn1.
  assert (Hnode : @is_node example_platform = true) by reflexivity.
  assert (H0 : @Packet.parse_all example_platform buffer = Ok packet)
    by (vm_compute; reflexivity).
  assert (Hpl : Packet.payload packet = Some (Packet.Connect pl)) by reflexivity.
  assert (H1 : Packet.stream_type pl ≠ 1) by (cbn; lia).
  assert (H2 : Packet.stream_type pl ≠ 2) by (cbn; lia).
  split; [exact Hnode|]. split; [exact H0|]. split; [exact Hpl|].
  split; [exact H1|]. split; [exact H2|].
  pose proof (@other_kinds_are_udp_and_ungated example_platform Options.options
                example_conn (Some (Connection.streams conn1)) buffer packet pl
                (Ok "93.184.216.34"%string) false false Hnode H0 Hpl H1 H2)
    as (Hs & Hg & _).
  split; [exact Hs|]. exact (eq_trans Hg eq_refl).
Defined.

(** C8. A DATA packet whose stream id is not in the stream table is logged
    at warn and dropped: [route_packet] returns normally, nothing is sent
    on the carrier or to a socket, and the stream table, the stream objects
    and the background tasks are left as they were. *)
Theorem data_for_unknown_stream_is_dropped `{Platform}
    (conn : Connection.ServerConnection) (buffer : list byte)
    (packet : Packet.WispPacket) :
  Packet.parse_all buffer = Ok packet →
  Packet.type packet = Packet.class_type Packet.DataClass →
  Connection.streams conn !! Packet.stream_id packet = None →
  let conn' := (Connection.route_packet buffer conn).2 in
  (Connection.route_packet buffer conn).1 = Ok tt
  ∧ Connection.log conn'
    = Connection.log conn
      ++ [(logging.warn,
           "received a DATA packet for a stream which doesn't exist"%string)]
  ∧ Connection.trace conn' = Connection.trace conn
  ∧ Connection.streams conn' = Connection.streams conn
  ∧ Connection.objects conn' = Connection.objects conn
  ∧ Connection.tasks conn' = Connection.tasks conn
  ∧ Connection.ws conn' = Connection.ws conn.
Proof.
  intros Hparse Hty Hnone conn'. subst conn'.
  unfold Connection.route_packet.
  cbv [mbind Connection.M_bind Connection.lift Connection.get].
  rewrite Hparse, Hnone, Hty.
  rewrite bool_decide_eq_true_2 by done.
  repeat split.
Qed.

Lemma data_for_unknown_stream_is_dropped_witness :
  let buffer := [x02; x07; x00; x00; x00; x68; x69] in
  let packet :=
    {| Packet.type := 2; Packet.stream_id := 7;
       Packet.payload_bytes := Some [x68; x69];
       Packet.payload := Some (Packet.Data {| Packet.data := [x68; x69] |}) |} in
  let conn' := (@Connection.route_packet example_platform buffer example_conn).2 in
  @Packet.parse_all example_platform buffer = Ok packet
  ∧ Packet.type packet = Packet.class_type Packet.DataClass
  ∧ Connection.streams example_conn !! Packet.stream_id packet = None
  ∧ (@Connection.route_packet example_platform buffer example_conn).1 = Ok tt
  ∧ Connection.trace conn' = []
  ∧ Connection.streams conn' = ∅.
Proof.
  intros buffer packet conn'.
  assert (H1 : @Packet.parse_all example_platform buffer = Ok packet)
    by (vm_compute; reflexivity).
  assert (H2 : Packet.type packet = Packet.class_type Packet.DataClass)
    by reflexivity.
  assert (H3 : Connection.streams example_conn !! Packet.stream_id packet = None)
    by apply lookup_empty.
  destruct (@data_for_unknown_stream_is_dropped example_platform example_conn
              buffer packet H1 H2 H3) as (R1 & _ & R3 & R4 & _).
  split; [exact H1|]. split; [exact H2|]. split; [exact H3|].
  split; [exact R1|]. split; [exact R3|exact R4].
Defined.

(** ** Closing a stream *)

Module CloseFacts.
Import Connection Wire Shape.

Section Close.
Context `{Platform}.

Lemma ServerStream_close_spec conn r this reason :
  objects conn !! r = Some this →
  DataChannel.is_open (DataChannel.readyState (ws conn)) = true →
  ServerStream_close r reason conn = (Ok tt, after_close conn r this reason).
Proof.
  intros Hobj Hopen. unfold ServerStream_close, after_close.
  cbv [mbind M_bind get]. rewrite Hobj.
  destruct (closed this); [done|].
  destruct reason as [reason|]; [|done].
  cbv [set_object modify lift ws_send mbind M_bind get].
  cbn [ws with_objects]. unfold DataChannel.send.
  rewrite Hopen, andb_false_r. reflexivity.
Qed.

Lemma close_stream_spec conn sid r this reason quiet :
  streams conn !! sid = Some r →
  objects conn !! r = Some this →
  DataChannel.is_open (DataChannel.readyState (ws conn)) = true →
  close_stream sid reason quiet conn
  = (Ok tt, after_close_stream conn sid r this reason quiet).
Proof.
  intros Hsid Hobj Hopen. unfold close_stream, after_close_stream.
  cbv [mbind M_bind get]. rewrite Hsid.
  destruct (truthy reason && negb quiet).
  - cbv [logging_at modify].
    rewrite (ServerStream_close_spec _ r this) by done. reflexivity.
  - cbv [skip mret M_ret].
    rewrite (ServerStream_close_spec _ r this) by done. reflexivity.
Qed.

Lemma close_stream_absent conn sid reason quiet :
  streams conn !! sid = None → close_stream sid reason quiet conn = (Ok tt, conn).
Proof.
  intros Hsid. unfold close_stream. cbv [mbind M_bind get]. by rewrite Hsid.
Qed.

Lemma trace_after_close conn r this reason :
  trace (after_close conn r this reason)
  = trace conn
    ++ (if closed this then []
        else match reason with
             | Some reason => [CarrierSend (close_bytes (stream_id this) reason)]
             | None => []
             end).
Proof.
  unfold after_close. destruct (closed this); [by rewrite app_nil_r|].
  destruct reason; [done|]. by rewrite app_nil_r.
Qed.

Lemma objects_after_close conn r this reason :
  objects (after_close conn r this reason)
  = if closed this then objects conn else <[r := shut this]> (objects conn).
Proof. unfold after_close. destruct (closed this); [done|]. by destruct reason. Qed.

Lemma streams_after_close conn r this reason :
  streams (after_close conn r this reason) = streams conn.
Proof. unfold after_close. destruct (closed this); [done|]. by destruct reason. Qed.

(** The task of a stream that [is_stream_allowed] refuses: a warning, then
    [close_stream] with the verdict as reason. *)
Lemma run_task_refused options t lookup connect_ok conn r this :
  Filter.is_stream_allowed (socket_hostname conn) options (Some (streams conn))
    (task_type t) (task_hostname t) (task_port t) lookup ≠ 0 →
  streams conn !! task_stream_id t = Some r →
  objects conn !! r = Some this →
  DataChannel.is_open (DataChannel.readyState (ws conn)) = true →
  run_task options t lookup connect_ok conn
  = (Ok tt,
     after_close_stream
       (with_log conn (log conn ++ [(logging.warn, "refusing to create a stream"%string)]))
       (task_stream_id t) r this
       (Some (Filter.is_stream_allowed (socket_hostname conn) options
                (Some (streams conn)) (task_type t) (task_hostname t)
                (task_port t) lookup))
       true).
Proof.
  intros Hdenied Hsid Hobj Hopen. unfold run_task.
  cbv [mbind M_bind get]. apply Z.eqb_neq in Hdenied. rewrite Hdenied.
  cbn [negb]. cbv [logging_at modify].
  by rewrite (close_stream_spec _ _ r this).
Qed.

End Close.
End CloseFacts.


(** C9. [create_stream] enters the new stream in the table before the
    background task evaluates [is_stream_allowed], so both quotas count the
    stream being created.  For a destination the other gates let through
    (the verdict without a connection is [0]): with
    [stream_limit_total = N >= 1] the CONNECT is refused with ConnThrottled
    as soon as [N - 1] streams exist under other ids; with
    [stream_limit_per_host = M >= 1] as soon as [M - 1] streams to that
    hostname exist under other ids; with [stream_limit_per_host = 1] always.
    So [stream_limit_per_host = 1] refuses every CONNECT, by a gate or by the
    quota.  A refusal shows when the task runs: over an open carrier it
    sends CLOSE for the stream with the verdict as reason and takes the
    stream out of the table. *)
Theorem quotas_count_the_new_stream `{Platform} (options : Options.t)
    (conn : Connection.ServerConnection) (sid ty : Z) (hostname : string)
    (port : Z) (lookup : Result string) :
  is_node = true →
  Shape.table_refs_valid conn →
  let conn1 := (Connection.create_stream sid ty hostname port conn).2 in
  let others := delete sid (Connection.streams conn) in
  let gates :=
    Filter.is_stream_allowed (Connection.socket_hostname conn1) options None
      ty hostname port lookup in
  let verdict :=
    Filter.is_stream_allowed (Connection.socket_hostname conn1) options
      (Some (Connection.streams conn1)) ty hostname port lookup in
  Connection.streams conn1 !! sid = Some (length (Connection.objects conn))
  ∧ (gates = 0 →
     1 ≤ Options.stream_limit_total options →
     Options.stream_limit_total options - 1 ≤ Z.of_nat (size others) →
     verdict = Packet.close_reasons.ConnThrottled)
  ∧ (gates = 0 →
     1 ≤ Options.stream_limit_per_host options →
     Options.stream_limit_per_host options - 1
       ≤ Filter.streams_per_host (Connection.socket_hostname conn) others hostname →
     verdict = Packet.close_reasons.ConnThrottled)
  ∧ (gates = 0 →
     Options.stream_limit_per_host options = 1 →
     verdict = Packet.close_reasons.ConnThrottled)
  ∧ (Options.stream_limit_per_host options = 1 → verdict ≠ 0)
  ∧ (DataChannel.is_open (DataChannel.readyState (Connection.ws conn)) = true →
     verdict ≠ 0 →
     ∀ connect_ok,
       let conn2 :=
         (Connection.run_task options
            {| Connection.task_stream := length (Connection.objects conn);
               Connection.task_stream_id := sid; Connection.task_type := ty;
               Connection.task_hostname := hostname;
               Connection.task_port := port |}
            lookup connect_ok conn1).2 in
       Connection.trace conn2
       = Connection.trace conn
         ++ [Connection.CarrierSend (Wire.close_bytes sid verdict)]
       ∧ Connection.streams conn2 !! sid = None).
Proof.
  intros Hnode Hv conn1 others gates verdict.
  subst gates verdict conn1.
  rewrite ConnectionFacts.create_stream_spec by done. cbn [snd].
  assert (Hcount := ConnectionFacts.streams_per_host_after_create
                      conn sid ty hostname port Hv).
  assert (Hsize : size (Connection.streams
                          (Shape.entered conn sid ty hostname port))
                  = S (size others)).
  { apply FilterFacts.size_entered. }
  pose proof (FilterFacts.streams_per_host_nonneg
                (Connection.socket_hostname conn) others hostname) as Hnn.
  assert (Hone : Filter.is_stream_allowed
                   (Connection.socket_hostname
                      (Shape.entered conn sid ty hostname port))
                   options None ty hostname port lookup = 0 →
                 Options.stream_limit_per_host options = 1 →
                 Filter.is_stream_allowed
                   (Connection.socket_hostname
                      (Shape.entered conn sid ty hostname port))
                   options
                   (Some (Connection.streams
                            (Shape.entered conn sid ty hostname port)))
                   ty hostname port lookup
                 = Packet.close_reasons.ConnThrottled).
  { intros Hpass HM. apply FilterFacts.quota_reached; [done|].
    right. rewrite Hcount. fold others. lia. }
  split; [apply lookup_insert_eq|].
  split; [|split; [|split; [done|split]]].
  - intros Hpass HN Hothers. apply FilterFacts.quota_reached; [done|].
    left. rewrite Hsize. lia.
  - intros Hpass HM Hothers. apply FilterFacts.quota_reached; [done|].
    right. rewrite Hcount. fold others. lia.
  - intros HM.
    destruct (decide (Filter.is_stream_allowed
                        (Connection.socket_hostname
                           (Shape.entered conn sid ty hostname port))
                        options None ty hostname port lookup = 0))
      as [Hpass|Hdeny].
    + by rewrite Hone.
    + by rewrite (FilterFacts.gate_refuses _ _ _ _ _ _ _ Hdeny).
  - intros Hopen Hdenied connect_ok.
    rewrite (CloseFacts.run_task_refused options _ _ _
               (Shape.entered conn sid ty hostname port)
               (length (Connection.objects conn))
               (Shape.created_stream sid ty hostname port));
      [|done|apply lookup_insert_eq| |done].
    + cbn [snd negb Connection.task_type Connection.task_hostname
           Connection.task_port Connection.task_stream_id].
      unfold Shape.after_close_stream. rewrite andb_false_r.
      cbn [Connection.streams Connection.with_streams Connection.trace].
      rewrite CloseFacts.trace_after_close. split; [done|].
      apply lookup_delete_eq.
    + unfold Shape.entered.
      cbn [Connection.objects Connection.with_tasks Connection.with_streams
           Connection.with_objects].
      rewrite lookup_app_r by lia. by rewrite Nat.sub_diag.
Qed.

Lemma quotas_count_the_new_stream_witness :
  let opts := Shape.with_limits Options.options (-1) 1 in
  let conn1 :=
    (@Connection.create_stream example_platform 1 1 "example.com" 80 example_conn).2 in
  @is_node example_platform = true
  ∧ Shape.table_refs_valid example_conn
  ∧ @Filter.is_stream_allowed example_platform nat
      (Connection.socket_hostname conn1) opts None 1 "example.com" 80
      (Ok "93.184.216.34"%string) = 0
  ∧ @Filter.is_stream_allowed example_platform nat
      (Connection.socket_hostname conn1) opts (Some (Connection.streams conn1))
      1 "example.com" 80 (Ok "93.184.216.34"%string)
    = Packet.close_reasons.ConnThrottled.
Proof.
  intros opts conn1.
  assert (Hnode : @is_node example_platform = true) by reflexivity.
  assert (Hv : Shape.table_refs_valid example_conn).
  { intros k r Hk. cbn in Hk. by rewrite lookup_empty in Hk. }
  assert (Hpass : @Filter.is_stream_allowed example_platform nat
                    (Connection.socket_hostname conn1) opts None 1 "example.com" 80
                    (Ok "93.184.216.34"%string) = 0) by reflexivity.
  split; [exact Hnode|]. split; [exact Hv|]. split; [exact Hpass|].
  exact (proj1 (proj2 (proj2 (proj2
           (@quotas_count_the_new_stream example_platform opts example_conn
              1 1 "example.com" 80 (Ok "93.184.216.34"%string) Hnode Hv))))
           Hpass eq_refl).
Defined.

(** C1 as stated fails: stream 1 is open over an open carrier, the client
    sends CLOSE for it with reason 2, and the server sends the same CLOSE
    back on the carrier. *)
Lemma client_close_gets_a_reply :
  let conn :=
    (@Connection.create_stream example_platform 1 1 "example.com" 80 example_conn).2 in
  let conn' :=
    (@Connection.route_packet example_platform [x04; x01; x00; x00; x00; x02] conn).2 in
  Connection.streams conn !! 1 = Some 0%nat
  ∧ Connection.trace conn = []
  ∧ Connection.trace conn'
    = [Connection.CarrierSend [x04; x01; x00; x00; x00; x02]].
Proof. vm_compute. done. Qed.

(** C1, amended. For a CLOSE packet from the client for a stream of the
    table, over an open carrier, [route_packet] returns normally and the
    stream is torn down with the client-supplied reason: the entry leaves the
    table and, unless the stream was closed already, the stream is marked
    closed, its buffer ended, its socket closed, and one CLOSE packet with
    the client's reason is sent on the carrier.  [ServerStream.close] sends a
    CLOSE whenever it is given a reason, whoever the reason comes from; it is
    silent only without a reason or on a stream closed already. *)
Theorem client_close_tears_down_and_is_answered `{Platform}
    (conn : Connection.ServerConnection) (buffer : list byte)
    (packet : Packet.WispPacket) (pl : Packet.ClosePayload)
    (r : nat) (this : Connection.ServerStream) :
  Packet.parse_all buffer = Ok packet →
  Packet.payload packet = Some (Packet.Close pl) →
  Connection.streams conn !! Packet.stream_id packet = Some r →
  Connection.objects conn !! r = Some this →
  DataChannel.is_open (DataChannel.readyState (Connection.ws conn)) = true →
  let conn' := (Connection.route_packet buffer conn).2 in
  (Connection.route_packet buffer conn).1 = Ok tt
  ∧ Connection.streams conn'
    = delete (Packet.stream_id packet) (Connection.streams conn)
  ∧ Connection.objects conn'
    = (if Connection.closed this then Connection.objects conn
       else <[r := Connection.shut this]> (Connection.objects conn))
  ∧ Connection.trace conn'
    = Connection.trace conn
      ++ (if Connection.closed this then []
          else [Connection.CarrierSend
                  (Wire.close_bytes (Connection.stream_id this)
                     (Packet.reason pl))])
  ∧ ∀ reason,
      Connection.trace (Connection.ServerStream_close r reason conn).2
      = Connection.trace conn
        ++ (if Connection.closed this then []
            else match reason with
                 | Some reason =>
                     [Connection.CarrierSend
                        (Wire.close_bytes (Connection.stream_id this) reason)]
                 | None => []
                 end).
Proof.
  intros Hparse Hpl Hsid Hobj Hopen conn'. subst conn'.
  assert (Hroute : Connection.route_packet buffer conn
                   = (Ok tt, Shape.after_close_stream conn
                               (Packet.stream_id packet) r this
                               (Some (Packet.reason pl)) false)).
  { unfold Connection.route_packet.
    cbv [mbind Connection.M_bind Connection.lift Connection.get].
    rewrite Hparse, Hsid, Hpl.
    rewrite bool_decide_eq_false_2 by done. cbn [andb].
    unfold Connection.detached.
    by rewrite (CloseFacts.close_stream_spec conn _ r this). }
  rewrite Hroute. cbn [fst snd]. unfold Shape.after_close_stream.
  cbn [Connection.streams Connection.objects Connection.trace
       Connection.with_streams].
  rewrite CloseFacts.streams_after_close, CloseFacts.objects_after_close,
    CloseFacts.trace_after_close.
  split; [done|]. split; [by destruct (_ && _)|].
  split; [by destruct (_ && _)|]. split; [by destruct (_ && _)|].
  intros reason.
  rewrite (CloseFacts.ServerStream_close_spec conn r this) by done.
  apply CloseFacts.trace_after_close.
Qed.

Lemma client_close_tears_down_and_is_answered_witness :
  let conn :=
    (@Connection.create_stream example_platform 1 1 "example.com" 80 example_conn).2 in
  let buffer := [x04; x01; x00; x00; x00; x02] in
  let pl := {| Packet.reason := 2 |} in
  let packet := {| Packet.type := 4; Packet.stream_id := 1;
                   Packet.payload_bytes := Some [x02];
                   Packet.payload := Some (Packet.Close pl) |} in
  let this := Shape.created_stream 1 1 "example.com" 80 in
  let conn' := (@Connection.route_packet example_platform buffer conn).2 in
  @Packet.parse_all example_platform buffer = Ok packet
  ∧ Packet.payload packet = Some (Packet.Close pl)
  ∧ Connection.streams conn !! Packet.stream_id packet = Some 0%nat
  ∧ Connection.objects conn !! 0%nat = Some this
  ∧ DataChannel.is_open (DataChannel.readyState (Connection.ws conn)) = true
  ∧ Connection.streams conn' = delete 1 (Connection.streams conn)
  ∧ Connection.trace conn'
    = Connection.trace conn
      ++ [Connection.CarrierSend (Wire.close_bytes 1 2)].
Proof.
  intros conn buffer pl packet this conn'.
  assert (H1 : @Packet.parse_all example_platform buffer = Ok packet)
    by (vm_compute; reflexivity).
  assert (H2 : Packet.payload packet = Some (Packet.Close pl)) by reflexivity.
  assert (H3 : Connection.streams conn !! Packet.stream_id packet = Some 0%nat)
    by (vm_compute; reflexivity).
  assert (H4 : Connection.objects conn !! 0%nat = Some this) by reflexivity.
  assert (H5 : DataChannel.is_open (DataChannel.readyState (Connection.ws conn))
               = true) by reflexivity.
  destruct (@client_close_tears_down_and_is_answered example_platform conn buffer
              packet pl 0%nat this H1 H2 H3 H4 H5) as (_ & R2 & _ & R4 & _).
  split; [exact H1|]. split; [exact H2|]. split; [exact H3|].
  split; [exact H4|]. split; [exact H5|]. split; [exact R2|exact R4].
Defined.

(** ** The version 2 handshake *)

Module HandshakeFacts.
Import Connection Wire Shape.

Section Handshake.
Context `{Platform}.

Lemma close_stream_quiet conn k :
  ∃ conn', close_stream k None false conn = (Ok tt, conn')
    ∧ streams conn' = delete k (streams conn)
    ∧ trace conn' = trace conn ∧ ws conn' = ws conn ∧ log conn' = log conn.
Proof.
  unfold close_stream. cbv [mbind M_bind get].
  destruct (streams conn !! k) as [r|] eqn:Hk.
  - cbn [truthy andb]. cbv [skip mret M_ret ServerStream_close mbind M_bind get].
    destruct (objects conn !! r) as [this|]; [destruct (closed this)|];
      cbv [set_object modify]; eexists; (split; [reflexivity|done]).
  - exists conn. split; [done|]. by rewrite delete_id.
Qed.

Lemma close_all_spec ks : ∀ conn,
  ∃ conn', close_all ks conn = (Ok tt, conn')
    ∧ streams conn' = deletes (streams conn) ks
    ∧ trace conn' = trace conn ∧ ws conn' = ws conn ∧ log conn' = log conn.
Proof.
  induction ks as [|k ks IH]; intros conn.
  - exists conn. done.
  - destruct (close_stream_quiet conn k) as (c1 & Hc & Hs & Ht & Hw & Hl).
    destruct (IH c1) as (c2 & Hc2 & Hs2 & Ht2 & Hw2 & Hl2).
    exists c2.
    change (close_all (k :: ks)) with (close_stream k None false;; close_all ks).
    cbv [mbind M_bind]. rewrite Hc, Hc2.
    split; [done|]. cbn [deletes foldl]. fold (deletes (delete k (streams conn)) ks).
    rewrite Hs2, Hs, Ht2, Ht, Hw2, Hw, Hl2, Hl. done.
Qed.

Lemma lookup_deletes ks : ∀ (m : gmap Z nat) k,
  k ∈ ks ∨ m !! k = None → deletes m ks !! k = None.
Proof.
  induction ks as [|k' ks IH]; intros m k Hk.
  - destruct Hk as [Hk|Hk]; [by apply not_elem_of_nil in Hk|done].
  - cbn [deletes foldl]. apply IH.
    destruct (decide (k = k')) as [->|Hne].
    + right. apply lookup_delete_eq.
    + destruct Hk as [Hk|Hk].
      * apply elem_of_cons in Hk as [?|?]; [done|by left].
      * right. by rewrite lookup_delete_ne.
Qed.

Lemma deletes_keys (m : gmap Z nat) : deletes m (map_to_list m).*1 = ∅.
Proof.
  apply map_eq. intros k. rewrite lookup_empty. apply lookup_deletes.
  destruct (m !! k) as [r|] eqn:Hk; [left|by right].
  apply list_elem_of_fmap. exists (k, r). split; [done|].
  by apply elem_of_map_to_list.
Qed.

(** [cleanup] empties the stream table and closes the carrier; it sends
    nothing. *)
Lemma cleanup_spec conn :
  ∃ conn', cleanup conn = (Ok tt, conn')
    ∧ streams conn' = ∅
    ∧ trace conn' = trace conn
    ∧ ws conn' = DataChannel.close (ws conn)
    ∧ log conn' = log conn ++ [(logging.info, "wisp connection closed"%string)].
Proof.
  destruct (close_all_spec (map_to_list (streams conn)).*1 conn)
    as (c1 & Hc & Hs & Ht & Hw & Hl).
  eexists. unfold cleanup. cbv [mbind M_bind get]. rewrite Hc.
  cbv [logging_at modify]. split; [reflexivity|].
  cbn [streams trace ws log with_ws with_log].
  rewrite Hs, deletes_keys, Ht, Hw, Hl. done.
Qed.

(** Up to the point where the client's message is looked at. *)
Lemma setup_wisp_v2_spec conn exts ext_buffer data :
  wisp_extensions conn = Some exts →
  Extensions.serialize_extensions exts = Ok ext_buffer →
  DataChannel.is_open (DataChannel.readyState (ws conn)) = true →
  let conn1 :=
    with_trace conn
      (trace conn ++ [CarrierSend (info_bytes (wisp_version conn) ext_buffer)]) in
  setup_wisp_v2 (Some data) conn
  = match Packet.parse_all data with
    | Throw e => (Throw e, conn1)
    | Ok packet =>
        if negb (Packet.type packet =? 5) then
          (logging_at logging.warn "handshake error: unexpected packet";;
           cleanup;; throw HandshakeError) conn1
        else
          match Packet.payload packet with
          | Some (Packet.Info payload) =>
              (client_extensions ←
                 lift (Extensions.parse_extensions (Packet.extensions payload)
                         (Extensions.constructor <$> exts) Extensions.client);
               modify (record_extensions exts client_extensions)) conn1
          | _ => (Throw (TypeError "unreachable"), conn1)
          end
    end.
Proof.
  intros Hexts Hser Hopen conn1. unfold setup_wisp_v2.
  cbv [mbind M_bind get lift]. rewrite Hexts, Hser.
  cbv [detached ws_send mbind M_bind get lift modify Packet.new_WispPacket].
  cbn [Packet.payload_serialize]. rewrite PacketFacts.InfoPayload_serialize_eq.
  cbn [fmap Result_fmap mbind Result_bind]. unfold DataChannel.send.
  rewrite Hopen, andb_false_r.
  erewrite PacketFacts.serialize_eq;
    [|reflexivity|apply PacketFacts.InfoPayload_serialize_eq].
  cbn [mbind Result_bind snd Packet.type Packet.stream_id Packet.class_type
       Packet.major_ver Packet.minor_ver Packet.extensions].
  fold (info_bytes (wisp_version conn) ext_buffer). fold conn1.
  destruct (Packet.parse_all data) as [packet|e]; [|done].
  destruct (negb (Packet.type packet =? 5)); [done|].
  destruct (Packet.payload packet) as [[| | | |payload]|]; done.
Qed.

Lemma getUint8_throws b off e : Packet.getUint8 b off = Throw e → e = RangeError.
Proof. unfold Packet.getUint8. case_match; congruence. Qed.

Lemma getUint16_throws b off e : Packet.getUint16 b off = Throw e → e = RangeError.
Proof. unfold Packet.getUint16. case_match; congruence. Qed.

Lemma getUint32_throws b off e : Packet.getUint32 b off = Throw e → e = RangeError.
Proof. unfold Packet.getUint32. case_match; congruence. Qed.

(** What [parse_all] throws is never a [HandshakeError]. *)
Lemma parse_all_throws b e : Packet.parse_all b = Throw e → e ≠ HandshakeError.
Proof.
  unfold Packet.parse_all, Packet.parse, Packet.new_WispPacket.
  destruct (Packet.size b <? 5); [congruence|].
  destruct (Packet.getUint8 b 0) as [ty|e0] eqn:E0; cbn [mbind Result_bind];
    [|intros [= <-]; by rewrite (getUint8_throws _ _ _ E0)].
  destruct (Packet.getUint32 b 1) as [sid|e1] eqn:E1; cbn [mbind Result_bind];
    [|intros [= <-]; by rewrite (getUint32_throws _ _ _ E1)].
  cbn [Packet.type Packet.payload_bytes].
  destruct (Packet.packet_classes ty) as [c|]; [|congruence].
  destruct (_ <? _); [congruence|].
  destruct c; cbn [Packet.payload_parse];
    unfold Packet.ConnectPayload_parse, Packet.DataPayload_parse,
      Packet.ContinuePayload_parse, Packet.ClosePayload_parse,
      Packet.InfoPayload_parse;
    repeat match goal with
    | |- context [Packet.getUint8 ?x ?o] =>
        let E := fresh "E" in
        destruct (Packet.getUint8 x o) eqn:E;
        [|apply getUint8_throws in E; subst]
    | |- context [Packet.getUint16 ?x ?o] =>
        let E := fresh "E" in
        destruct (Packet.getUint16 x o) eqn:E;
        [|apply getUint16_throws in E; subst]
    | |- context [Packet.getUint32 ?x ?o] =>
        let E := fresh "E" in
        destruct (Packet.getUint32 x o) eqn:E;
        [|apply getUint32_throws in E; subst]
    end;
    cbn [mbind Result_bind fmap Result_fmap]; congruence.
Qed.

End Handshake.
End HandshakeFacts.


(** The message that does not parse, for the record: the [TypeError] of
    [parse_all] leaves [setup_wisp_v2] as it is, with no warning logged and
    the connection not cleaned up. *)
Lemma handshake_malformed_escapes `{Platform}
    (conn : Connection.ServerConnection) (exts : list Extensions.extension)
    (ext_buffer data : list byte) (e : exn) :
  Connection.wisp_extensions conn = Some exts →
  Extensions.serialize_extensions exts = Ok ext_buffer →
  DataChannel.is_open (DataChannel.readyState (Connection.ws conn)) = true →
  Packet.parse_all data = Throw e →
  let r := Connection.setup_wisp_v2 (Some data) conn in
  r.1 = Throw e ∧ e ≠ HandshakeError
  ∧ Connection.log r.2 = Connection.log conn
  ∧ Connection.ws r.2 = Connection.ws conn
  ∧ Connection.streams r.2 = Connection.streams conn.
Proof.
  intros Hexts Hser Hopen Hparse r. subst r.
  rewrite (HandshakeFacts.setup_wisp_v2_spec conn exts ext_buffer) by done.
  rewrite Hparse. cbn [fst snd]. split; [done|].
  split; [by apply (HandshakeFacts.parse_all_throws data)|done].
Qed.



(** ** Flow control *)

Module PumpFacts.
Import Connection Pump Wire Spacing.

Lemma spaced_app t1 : ∀ c t2,
  spaced c (t1 ++ t2) ↔ spaced c t1 ∧ spaced (tail_count c t1) t2.
Proof.
  induction t1 as [|[d|p] t1 IH]; intros c t2; cbn [app spaced tail_count].
  - tauto.
  - apply IH.
  - rewrite IH. tauto.
Qed.

Lemma tail_count_app t1 : ∀ c t2,
  tail_count c (t1 ++ t2) = tail_count (tail_count c t1) t2.
Proof.
  induction t1 as [|[d|p] t1 IH]; intros c t2; cbn [app tail_count]; auto.
Qed.

Lemma tail_count_sent t : ∀ c,
  Forall is_sent t → tail_count c t = c + Z.of_nat (length t).
Proof.
  induction t as [|[d|p] t IH]; intros c Ht; cbn [tail_count length].
  - lia.
  - apply Forall_cons in Ht as [_ Ht]. rewrite IH by done. lia.
  - apply Forall_cons in Ht as [[] _].
Qed.

(** In a spaced trace, a packet that follows a packet, with writes only in
    between, follows exactly [buffer_size / 2] writes; so does the first
    packet of a trace read from zero. *)
Lemma spaced_gap c a x mid y b :
  spaced c (a ++ [Issued x] ++ mid ++ [Issued y] ++ b) →
  Forall is_sent mid →
  Z.of_nat (length mid) = buffer_size / 2.
Proof.
  intros Hs Hmid.
  apply spaced_app in Hs as [_ Hs]. cbn [app spaced] in Hs.
  destruct Hs as [_ Hs]. apply spaced_app in Hs as [_ Hs].
  cbn [app spaced] in Hs. destruct Hs as [Hs _].
  rewrite tail_count_sent in Hs by done. lia.
Qed.

Lemma spaced_first mid y b :
  spaced 0 (mid ++ [Issued y] ++ b) →
  Forall is_sent mid →
  Z.of_nat (length mid) = buffer_size / 2.
Proof.
  intros Hs Hmid. apply spaced_app in Hs as [_ Hs].
  cbn [app spaced] in Hs. destruct Hs as [Hs _].
  rewrite tail_count_sent in Hs by done. lia.
Qed.

Lemma sents_app t1 t2 : sents (t1 ++ t2) = sents t1 + sents t2.
Proof.
  induction t1 as [|[d|p] t1 IH]; cbn [app sents]; lia.
Qed.

Lemma issues_app t1 t2 : issues (t1 ++ t2) = issues t1 + issues t2.
Proof.
  induction t1 as [|[d|p] t1 IH]; cbn [app issues]; lia.
Qed.

(** In a paced trace a packet comes right after a write, the one that made
    the counter a multiple of [buffer_size / 2]. *)
Lemma paced_issued p b a : ∀ c due,
  paced c due (a ++ Issued p :: b) →
  (due = true → c mod 64 = 0) →
  (c + sents a) mod 64 = 0
  ∧ ((a = [] ∧ due = true) ∨ ∃ a' d, a = a' ++ [Sent d]).
Proof.
  induction a as [|[d|q] a IH]; intros c due Hp Hdue; cbn [app paced sents] in *.
  - destruct Hp as [-> _]. rewrite Z.add_0_r. split; [by apply Hdue|by left].
  - destruct Hp as [_ Hp]. change (buffer_size / 2) with 64 in Hp.
    apply IH in Hp as [Hm Ha]; [|by intros ?%Z.eqb_eq].
    split; [by replace (c + (1 + sents a)) with (c + 1 + sents a) by lia|].
    right. destruct Ha as [[-> _]|(a' & d' & ->)].
    + by exists [], d.
    + by exists (Sent d :: a'), d'.
  - destruct Hp as [_ Hp]. apply IH in Hp as [Hm Ha]; [|done].
    split; [done|]. right. destruct Ha as [[_ [=]]|(a' & d' & ->)].
    by exists (Issued q :: a'), d'.
Qed.

(** In a paced trace the write that makes the counter a multiple of
    [buffer_size / 2] is followed at once by a packet. *)
Lemma paced_sent d b a : ∀ c due,
  paced c due (a ++ Sent d :: b) →
  (c + sents a + 1) mod 64 = 0 →
  ∃ p b', b = Issued p :: b'.
Proof.
  induction a as [|[d'|q] a IH]; intros c due Hp Hm; cbn [app paced sents] in *.
  - destruct Hp as [_ Hp]. change (buffer_size / 2) with 64 in Hp.
    rewrite Z.add_0_r in Hm. apply Z.eqb_eq in Hm. rewrite Hm in Hp.
    destruct b as [|[d'|p] b']; cbn [paced] in Hp.
    + done.
    + by destruct Hp.
    + by exists p, b'.
  - destruct Hp as [_ Hp]. apply (IH _ _ Hp).
    by replace (c + 1 + sents a + 1) with (c + (1 + sents a) + 1) by lia.
  - destruct Hp as [_ Hp]. by apply (IH _ _ Hp).
Qed.

Lemma paced_upto p b a : ∀ c due,
  paced c due (a ++ Issued p :: b) → paced c due (a ++ [Issued p]).
Proof.
  induction a as [|[d|q] a IH]; intros c due Hp; cbn [app paced] in *.
  - by destruct Hp as [-> _].
  - destruct Hp as [-> Hp]. split; [done|]. by apply IH.
  - destruct Hp as [-> Hp]. split; [done|]. by apply IH.
Qed.

(** A paced trace holds one packet for every [buffer_size / 2] writes. *)
Lemma paced_issues t : ∀ c due,
  paced c due t →
  (due = true → c mod 64 = 0) →
  c / 64 - (if due then 1 else 0) + issues t = (c + sents t) / 64.
Proof.
  induction t as [|[d|q] t IH]; intros c due Hp Hdue; cbn [paced sents issues] in *.
  - subst due. by rewrite Z.add_0_r, Z.sub_0_r, Z.add_0_r.
  - destruct Hp as [-> Hp]. change (buffer_size / 2) with 64 in Hp.
    apply IH in Hp; [|by intros ?%Z.eqb_eq].
    replace (c + (1 + sents t)) with (c + 1 + sents t) by lia.
    rewrite <- Hp. clear Hp IH.
    pose proof (Z.div_mod c 64). pose proof (Z.div_mod (c + 1) 64).
    pose proof (Z.mod_pos_bound c 64). pose proof (Z.mod_pos_bound (c + 1) 64).
    destruct (_ =? 0) eqn:E; [apply Z.eqb_eq in E|apply Z.eqb_neq in E]; lia.
  - destruct Hp as [-> Hp]. apply IH in Hp; [|done]. lia.
Qed.

Section Body.
Context `{Platform}.

(** What a turn of the loop that does not throw has done. *)
Lemma ws_to_tcp_body_Ok this data send_ok this' packet :
  ws_to_tcp_body this data send_ok = Ok (this', packet) →
  stream_id this' = stream_id this
  ∧ clientToTarget this' = clientToTarget this
  ∧ closed this' = closed this
  ∧ packets_sent this' = packets_sent this + 1
  ∧ packet
    = if packets_sent this' mod (buffer_size / 2) =? 0
      then Some (continue_packet (stream_id this)
                   (buffer_size - readableLength (clientToTarget this)))
      else None.
Proof.
  unfold ws_to_tcp_body, Net.Socket_send.
  destruct (Net.socket (socket this)); [|done].
  destruct send_ok; [|done].
  cbn [negb mbind Result_bind packets_sent clientToTarget stream_id].
  destruct (_ =? 0) eqn:E; cbn [negb].
  - intros [= <- <-].
    cbn [stream_id clientToTarget closed packets_sent]. rewrite E. done.
  - intros [= <- <-].
    cbn [stream_id clientToTarget closed packets_sent]. rewrite E. done.
Qed.

Lemma close_silently_packets_sent s :
  packets_sent (close_silently s) = packets_sent s.
Proof. unfold close_silently. by destruct (closed s). Qed.

Lemma take_chunk_packets_sent s data s1 :
  take_chunk s = Some (data, s1) → packets_sent s1 = packets_sent s.
Proof.
  unfold take_chunk. destruct (PassThrough_next _) as [[d rest]|]; [|done].
  by intros [= _ <-].
Qed.

(** One step keeps the reading of the trace in line with the counter of the
    stream. *)
Lemma step_spaced s a :
  let c := packets_sent (this s) mod (buffer_size / 2) in
  spaced c (step s a).2
  ∧ tail_count c (step s a).2
    = packets_sent (this (step s a).1) mod (buffer_size / 2).
Proof.
  intros c. subst c. change (buffer_size / 2) with 64.
  destruct a as [data|send_ok|]; cbn [step].
  - done.
  - destruct (negb (running s)); [done|].
    destruct (take_chunk (this s)) as [[data this1]|] eqn:Htake.
    + apply take_chunk_packets_sent in Htake. rewrite <- Htake.
      destruct (ws_to_tcp_body this1 data send_ok) as [[this2 packet]|e] eqn:Hbody.
      * apply ws_to_tcp_body_Ok in Hbody as (_ & _ & _ & Hps & ->).
        change (buffer_size / 2) with 64 in *.
        cbn [fst snd this]. rewrite Hps.
        destruct (_ =? 0) eqn:E; cbn [spaced tail_count].
        -- apply Z.eqb_eq in E. change (buffer_size / 2) with 64.
           rewrite E. split; [|done]. split; [|done].
           pose proof (Z.mod_pos_bound (packets_sent this1) 64).
           pose proof (Z.div_mod (packets_sent this1) 64).
           pose proof (Z.div_mod (packets_sent this1 + 1) 64). lia.
        -- apply Z.eqb_neq in E. split; [done|].
           pose proof (Z.mod_pos_bound (packets_sent this1) 64).
           pose proof (Z.mod_pos_bound (packets_sent this1 + 1) 64).
           pose proof (Z.div_mod (packets_sent this1) 64).
           pose proof (Z.div_mod (packets_sent this1 + 1) 64). lia.
      * cbn [fst snd this spaced tail_count].
        by rewrite close_silently_packets_sent.
    + destruct (ended _); cbn [fst snd this spaced tail_count];
        by rewrite ?close_silently_packets_sent.
  - cbn [fst snd this spaced tail_count]. by rewrite close_silently_packets_sent.
Qed.

Lemma run_spaced actions : ∀ s,
  spaced (packets_sent (this s) mod (buffer_size / 2)) (run s actions).2.
Proof.
  induction actions as [|a rest IH]; intros s; cbn [run].
  - done.
  - pose proof (step_spaced s a) as [Hs Ht].
    destruct (step s a) as [s1 events1]. cbn [fst snd] in *.
    specialize (IH s1). destruct (run s1 rest) as [s2 events2]. cbn [snd] in *.
    apply spaced_app. split; [done|]. by rewrite Ht.
Qed.

Lemma close_silently_stream_id s : stream_id (close_silently s) = stream_id s.
Proof. unfold close_silently. by destruct (closed s). Qed.

Lemma take_chunk_stream_id s data s1 :
  take_chunk s = Some (data, s1) → stream_id s1 = stream_id s.
Proof.
  unfold take_chunk. destruct (PassThrough_next _) as [[d rest]|]; [|done].
  by intros [= _ <-].
Qed.

(** What one step adds to the trace: nothing; a write, the counter not
    reaching a multiple of [buffer_size / 2]; or a write and the CONTINUE
    packet of the stream, the counter reaching one. *)
Lemma step_shape s a :
  stream_id (this (step s a).1) = stream_id (this s)
  ∧ (((step s a).2 = []
      ∧ packets_sent (this (step s a).1) = packets_sent (this s))
     ∨ (∃ d, (step s a).2 = [Sent d]
             ∧ packets_sent (this (step s a).1) = packets_sent (this s) + 1
             ∧ (packets_sent (this s) + 1) mod 64 ≠ 0)
     ∨ (∃ d, (step s a).2
             = [Sent d;
                Issued (continue_packet (stream_id (this s))
                          (buffer_size
                           - readableLength (clientToTarget (this (step s a).1))))]
             ∧ packets_sent (this (step s a).1) = packets_sent (this s) + 1
             ∧ (packets_sent (this s) + 1) mod 64 = 0)).
Proof.
  destruct a as [data|send_ok|]; cbn [step].
  - split; [done|]. by left.
  - destruct (negb (running s)); [split; [done|]; by left|].
    destruct (take_chunk (this s)) as [[data this1]|] eqn:Htake.
    + pose proof (take_chunk_packets_sent _ _ _ Htake) as Hps.
      pose proof (take_chunk_stream_id _ _ _ Htake) as Hid.
      destruct (ws_to_tcp_body this1 data send_ok) as [[this2 packet]|e] eqn:Hbody.
      * apply ws_to_tcp_body_Ok in Hbody as (Hid2 & Hbuf & _ & Hps2 & ->).
        change (buffer_size / 2) with 64 in *.
        cbn [fst snd this]. rewrite Hid2, Hid, Hps2, Hps, Hbuf. split; [done|].
        right. destruct (_ =? 0) eqn:E.
        -- apply Z.eqb_eq in E. right. by exists data.
        -- apply Z.eqb_neq in E. left. by exists data.
      * cbn [fst snd this].
        rewrite close_silently_stream_id, close_silently_packets_sent.
        split; [done|]. by left.
    + destruct (ended _); cbn [fst snd this];
        rewrite ?close_silently_stream_id, ?close_silently_packets_sent;
        (split; [done|]); by left.
  - cbn [fst snd this].
    rewrite close_silently_stream_id, close_silently_packets_sent.
    split; [done|]. by left.
Qed.

(** Every trace of a stream object is paced by its counter, which counts
    the writes. *)
Lemma run_paced actions : ∀ s,
  paced (packets_sent (this s)) false (run s actions).2
  ∧ packets_sent (this (run s actions).1)
    = packets_sent (this s) + sents (run s actions).2
  ∧ stream_id (this (run s actions).1) = stream_id (this s).
Proof.
  induction actions as [|a rest IH]; intros s; cbn [run].
  - cbn [fst snd paced sents]. split; [done|]. split; [lia|done].
  - pose proof (step_shape s a) as [Hid Hshape].
    destruct (step s a) as [s1 events1]. cbn [fst snd] in *.
    specialize (IH s1). destruct (run s1 rest) as [s2 events2].
    cbn [fst snd] in *. destruct IH as (Hp & Hc & Hid2).
    rewrite Hid2, Hid, Hc. split; [|split; [|done]].
    + destruct Hshape as [[-> Hps]|[(d & -> & Hps & Hm)|(d & -> & Hps & Hm)]];
        cbn [app paced]; change (buffer_size / 2) with 64; rewrite Hps in Hp.
      * done.
      * apply Z.eqb_neq in Hm. by rewrite Hm.
      * apply Z.eqb_eq in Hm. by rewrite Hm.
    + destruct Hshape as [[-> Hps]|[(d & -> & Hps & Hm)|(d & -> & Hps & Hm)]];
        cbn [app sents]; lia.
Qed.

(** Every packet of a trace is a CONTINUE packet of the stream, with the
    credit computed from some state of the buffer. *)
Lemma run_issued actions : ∀ s p,
  Issued p ∈ (run s actions).2 →
  ∃ q, p = continue_packet (stream_id (this s)) (buffer_size - readableLength q).
Proof.
  induction actions as [|a rest IH]; intros s p; cbn [run].
  - cbn [snd]. by intros ?%elem_of_nil.
  - pose proof (step_shape s a) as [Hid Hshape].
    destruct (step s a) as [s1 events1]. cbn [fst snd] in *.
    specialize (IH s1 p). destruct (run s1 rest) as [s2 events2].
    cbn [fst snd] in *. rewrite Hid in IH.
    intros [Hin|Hin]%elem_of_app; [|by apply IH].
    destruct Hshape as [[-> _]|[(d & -> & _)|(d & -> & _)]].
    + by apply elem_of_nil in Hin.
    + by apply list_elem_of_singleton in Hin.
    + apply elem_of_cons in Hin as [[=]|Hin].
      apply list_elem_of_singleton in Hin as [= ->]. by eexists.
Qed.

(** A turn of a running loop on a stream whose buffer holds a chunk and
    whose socket is set, the write going through: the oldest chunk leaves
    the buffer and is written to the socket. *)
Lemma turn_writes s d rest :
  running s = true →
  queue (clientToTarget (this s)) = d :: rest →
  Net.socket (socket (this s)) = true →
  (∃ events, (step s (Turn true)).2 = Sent d :: events)
  ∧ queue (clientToTarget (this (step s (Turn true)).1)) = rest
  ∧ Net.written (socket (this (step s (Turn true)).1))
    = Net.written (socket (this s)) ++ [d]
  ∧ packets_sent (this (step s (Turn true)).1) = packets_sent (this s) + 1
  ∧ running (step s (Turn true)).1 = true.
Proof.
  intros Hrun Hq Hsock. cbn [step]. rewrite Hrun. cbn [negb].
  unfold take_chunk, PassThrough_next. rewrite Hq.
  unfold ws_to_tcp_body, Net.Socket_send. cbn [socket]. rewrite Hsock.
  cbn [negb mbind Result_bind packets_sent clientToTarget stream_id].
  destruct (negb _); cbn [fst snd this running clientToTarget queue socket
                          Net.written packets_sent mbind Result_bind];
    (split; [by eexists|done]).
Qed.








End Body.
End PumpFacts.

(** C7. In the life of a stream object, whatever the router, the loop and
    the others do and in whatever order: the counter of the stream counts
    the chunks taken from the buffer and written to the destination socket;
    a CONTINUE packet for the stream is handed to [ws.send] exactly when a
    write makes the counter a multiple of [buffer_size / 2 = 64], right
    after that write, so that the k-th CONTINUE follows write number 64 k
    and two consecutive ones are 64 writes apart; and a turn of the running
    loop on a set socket, the write going through, takes the oldest chunk
    of the buffer and writes it. *)
Theorem continue_every_half_buffer `{Platform}
    (s0 : Connection.ServerStream) (actions : list Pump.action) :
  Connection.packets_sent s0 = 0 →
  let r := Pump.run {| Pump.this := s0; Pump.running := true |} actions in
  Connection.packets_sent (Pump.this r.1) = Spacing.sents r.2
  ∧ (∀ a p b,
       r.2 = a ++ Pump.Issued p :: b →
       (∃ a' d, a = a' ++ [Pump.Sent d])
       ∧ Spacing.sents a = 64 * (Spacing.issues a + 1)
       ∧ Packet.type p = Packet.class_type Packet.ContinueClass
       ∧ Packet.stream_id p = Connection.stream_id s0)
  ∧ (∀ a d b,
       r.2 = a ++ Pump.Sent d :: b →
       (Spacing.sents a + 1) mod 64 = 0 →
       ∃ p b', b = Pump.Issued p :: b')
  ∧ (∀ a x mid y b,
       r.2 = a ++ [Pump.Issued x] ++ mid ++ [Pump.Issued y] ++ b →
       Forall Spacing.is_sent mid →
       Z.of_nat (length mid) = 64)
  ∧ (∀ d rest,
       Pump.running r.1 = true →
       queue (Connection.clientToTarget (Pump.this r.1)) = d :: rest →
       Net.socket (Connection.socket (Pump.this r.1)) = true →
       let r' := Pump.step r.1 (Pump.Turn true) in
       (∃ events, r'.2 = Pump.Sent d :: events)
       ∧ queue (Connection.clientToTarget (Pump.this r'.1)) = rest
       ∧ Net.written (Connection.socket (Pump.this r'.1))
         = Net.written (Connection.socket (Pump.this r.1)) ++ [d]
       ∧ Connection.packets_sent (Pump.this r'.1)
         = Connection.packets_sent (Pump.this r.1) + 1).
Proof.
  intros Hps r.
  pose proof (PumpFacts.run_paced actions
                {| Pump.this := s0; Pump.running := true |}) as (Hp & Hc & _).
  pose proof (PumpFacts.run_spaced actions
                {| Pump.this := s0; Pump.running := true |}) as Hsp.
  cbn [Pump.this] in Hp, Hc, Hsp. rewrite Hps in Hp, Hc, Hsp.
  change (0 mod (Connection.buffer_size / 2)) with 0 in Hsp.
  fold r in Hp, Hc, Hsp.
  split; [by rewrite Hc|]. split; [|split; [|split]].
  - intros a p b Ht.
    assert (Hin : Pump.Issued p ∈ r.2).
    { rewrite Ht. apply elem_of_app. right. apply elem_of_cons. by left. }
    apply PumpFacts.run_issued in Hin as [q ->]. rewrite Ht in Hp.
    pose proof (PumpFacts.paced_issued _ _ _ _ _ Hp) as [Hm Ha]; [done|].
    destruct Ha as [[_ [=]]|Ha]. split; [done|].
    apply PumpFacts.paced_upto in Hp.
    apply PumpFacts.paced_issues in Hp; [|done].
    rewrite PumpFacts.issues_app, PumpFacts.sents_app in Hp.
    cbn [Spacing.issues Spacing.sents] in Hp.
    rewrite Z.add_0_l in Hm. change (0 / 64 - 0) with 0 in Hp.
    replace (0 + (Spacing.sents a + 0)) with (Spacing.sents a) in Hp by lia.
    pose proof (Z.div_mod (Spacing.sents a) 64 ltac:(lia)).
    split; [lia|]. done.
  - intros a d b Ht Hm. rewrite Ht in Hp.
    by apply (PumpFacts.paced_sent d b a 0 false).
  - intros a x mid y b Ht Hmid. rewrite Ht in Hsp.
    by apply (PumpFacts.spaced_gap 0 a x mid y b).
  - intros d rest Hrun Hq Hsock r'.
    destruct (PumpFacts.turn_writes r.1 d rest Hrun Hq Hsock)
      as (He & Hq' & Hw & Hn & _).
    done.
Qed.

Lemma continue_every_half_buffer_witness :
  let actions :=
    replicate 130 (Pump.Put [x61]) ++ replicate 130 (Pump.Turn true) in
  let r :=
    @Pump.run example_platform
      {| Pump.this := example_stream 0; Pump.running := true |} actions in
  Connection.packets_sent (example_stream 0) = 0
  ∧ r.2 = replicate 64 (Pump.Sent [x61])
          ++ Pump.Issued (Wire.continue_packet 1 62)
          :: replicate 64 (Pump.Sent [x61])
          ++ Pump.Issued (Wire.continue_packet 1 126)
          :: replicate 2 (Pump.Sent [x61])
  ∧ Connection.packets_sent (Pump.this r.1) = 130
  ∧ Spacing.sents (replicate 64 (Pump.Sent [x61])) = 64 * (0 + 1)
  ∧ Packet.stream_id (Wire.continue_packet 1 62) = 1.
Proof.
  intros actions r.
  assert (H0 : Connection.packets_sent (example_stream 0) = 0) by reflexivity.
  assert (Ht : r.2 = replicate 64 (Pump.Sent [x61])
                     ++ Pump.Issued (Wire.continue_packet 1 62)
                     :: replicate 64 (Pump.Sent [x61])
                     ++ Pump.Issued (Wire.continue_packet 1 126)
                     :: replicate 2 (Pump.Sent [x61]))
    by (vm_compute; reflexivity).
  destruct (@continue_every_half_buffer example_platform (example_stream 0)
              actions H0) as (Hc & Hi & _).
  destruct (Hi _ _ _ Ht) as (_ & Hn & _ & Hid).
  split; [exact H0|]. split; [exact Ht|].
  split; [exact (eq_trans Hc (eq_trans (f_equal Spacing.sents Ht) eq_refl))|].
  split; [exact Hn|exact Hid].
Defined.




(** ** The scenarios of the design, run on the embedding *)

Module Scenarios.

(** A version 1 session opens with CONTINUE, stream 0, credit 128. *)
Example initial_continue :
  Connection.trace (@Connection.setup example_platform true None example_conn).2
  = [Connection.CarrierSend [x03; x00; x00; x00; x00; x80; x00; x00; x00]].
Proof. vm_compute. reflexivity. Qed.

Example connect_parses :
  @Packet.parse_all example_platform connect_bytes
  = Ok {| Packet.type := 1; Packet.stream_id := 1;
          Packet.payload_bytes := Some (drop 5 connect_bytes);
          Packet.payload :=
            Some (Packet.Connect {| Packet.stream_type := 1; Packet.port := 80;
                                    Packet.hostname := "example.com" |}) |}.
Proof. vm_compute. reflexivity. Qed.

Example connect_starts_a_task :
  let conn := (@Connection.run_message example_platform connect_bytes example_conn).2 in
  Connection.tasks conn = [connect_task]
  ∧ Connection.streams conn !! 1 = Some 0%nat
  ∧ Connection.objects conn
    = [Shape.created_stream 1 1 "example.com" 80].
Proof. vm_compute. done. Qed.

(** With the policy permitting and the destination accepting, two bytes
    from the destination go out as DATA on stream 1. *)
Example tcp_echo :
  let conn := (@Connection.run_message example_platform connect_bytes example_conn).2 in
  let conn := (@Connection.run_task example_platform Options.options connect_task
                 (Ok "93.184.216.34"%string) Net.Accepted conn).2 in
  let conn := (@Connection.tcp_to_ws_data example_platform 0 [x48; x49] conn).2 in
  Connection.trace conn
  = [Connection.CarrierSend [x02; x01; x00; x00; x00; x48; x49]].
Proof. vm_compute. reflexivity. Qed.

(** With [allow_tcp_streams = false] the CONNECT is answered by CLOSE,
    stream 1, HostBlocked, and the stream leaves the table. *)
Example policy_denial :
  let conn := (@Connection.run_message example_platform connect_bytes example_conn).2 in
  let conn := (@Connection.run_task example_platform
                 (Shape.with_kind_gates Options.options false true) connect_task
                 (Ok "93.184.216.34"%string) Net.Accepted conn).2 in
  Connection.trace conn = [Connection.CarrierSend [x04; x01; x00; x00; x00; x48]]
  ∧ Connection.streams conn !! 1 = None.
Proof. vm_compute. done. Qed.

(** With [stream_limit_per_host = 1] the first CONNECT is answered by CLOSE,
    stream 1, ConnThrottled. *)
Example first_connect_throttled :
  let conn := (@Connection.run_message example_platform connect_bytes example_conn).2 in
  let conn := (@Connection.run_task example_platform
                 (Shape.with_limits Options.options (-1) 1) connect_task
                 (Ok "93.184.216.34"%string) Net.Accepted conn).2 in
  Connection.trace conn = [Connection.CarrierSend [x04; x01; x00; x00; x00; x49]]
  ∧ Connection.streams conn !! 1 = None.
Proof. vm_compute. done. Qed.

(** The destination refuses: CLOSE, stream 1, NetworkError. *)
Example connect_failure :
  let conn := (@Connection.run_message example_platform connect_bytes example_conn).2 in
  let conn := (@Connection.run_task example_platform Options.options connect_task
                 (Ok "93.184.216.34"%string) Net.Refused conn).2 in
  Connection.trace conn = [Connection.CarrierSend [x04; x01; x00; x00; x00; x03]].
Proof. vm_compute. reflexivity. Qed.

(** A CONTINUE from the client is logged at warn; nothing is sent. *)
Example client_continue :
  let conn := (@Connection.run_message example_platform
                 [x03; x01; x00; x00; x00; x00; x00; x00; x00] example_conn).2 in
  Connection.trace conn = []
  ∧ Connection.log conn
    = [(logging.warn,
        "client sent a CONTINUE packet, this should never be possible"%string)].
Proof. vm_compute. done. Qed.

(** The destination ends: CLOSE, stream 1, Voluntary. *)
Example socket_end :
  let conn := (@Connection.run_message example_platform connect_bytes example_conn).2 in
  let conn := (@Connection.run_task example_platform Options.options connect_task
                 (Ok "93.184.216.34"%string) Net.Accepted conn).2 in
  let conn := (@Connection.tcp_to_ws_end example_platform 0 conn).2 in
  Connection.trace conn = [Connection.CarrierSend [x04; x01; x00; x00; x00; x02]].
Proof. vm_compute. reflexivity. Qed.

(** After 64 DATA packets written to the destination, CONTINUE for stream 1
    with the credit left. *)
Example flow_control :
  let r := @Pump.run example_platform
             {| Pump.this := example_stream 0; Pump.running := true |}
             (replicate 64 (Pump.Put [x61]) ++ replicate 64 (Pump.Turn true)) in
  r.2 = replicate 64 (Pump.Sent [x61]) ++ [Pump.Issued (Wire.continue_packet 1 128)]
  ∧ @Packet.serialize example_platform (Wire.continue_packet 1 128)
    = Ok [x03; x01; x00; x00; x00; x80; x00; x00; x00].
Proof. vm_compute. done. Qed.

(** The server advertises UDP and a MOTD, the client answers with UDP only:
    UDP alone is negotiated. *)
Example handshake_with_motd :
  let exts :=
    [{| Extensions.constructor := Extensions.UDPExtension;
        Extensions.payload := Some Extensions.EmptyPayload |};
     {| Extensions.constructor := Extensions.MOTDExtension;
        Extensions.payload := Some (Extensions.MOTDServer "hi") |}] in
  let conn := Connection.new_ServerConnection Options.options
                {| DataChannel.readyState := DataChannel.rs_open;
                   DataChannel.connected := true |} (Some 2) (Some exts) in
  let r := @Connection.setup_wisp_v2 example_platform
             (Some [x05; x00; x00; x00; x00; x02; x00; x01; x00; x00; x00; x00])
             conn in
  r.1 = Ok tt
  ∧ Connection.trace r.2
    = [Connection.CarrierSend
         [x05; x00; x00; x00; x00; x02; x00;
          x01; x00; x00; x00; x00;
          x04; x02; x00; x00; x00; x68; x69]]
  ∧ Connection.server_exts r.2 !! 1
    = Some {| Extensions.constructor := Extensions.UDPExtension;
              Extensions.payload := Some Extensions.EmptyPayload |}
  ∧ Connection.server_exts r.2 !! 4 = None
  ∧ Connection.client_exts r.2 !! 4 = None.
Proof. vm_compute. done. Qed.

End Scenarios.

(** ** The pump of a stream, on the connection

    The three actions of [Pump] are what the connection does to the stream
    object: a turn of [ws_to_tcp_step], the DATA branch of [route_packet],
    and [ServerStream_close]. *)

Module PumpOnConnection.
Import Connection Pump Spacing.

Section Refines.
Context `{Platform}.

Lemma lookup_set_object (objs : list ServerStream) r this x :
  objs !! r = Some this → <[r := x]> objs !! r = Some x.
Proof. intros Hr. apply list_lookup_insert_eq. by apply lookup_lt_Some in Hr. Qed.

Lemma turn_refines conn r this send_ok :
  objects conn !! r = Some this →
  DataChannel.is_open (DataChannel.readyState (ws conn)) = true →
  let st := step {| this := this; running := true |} (Turn send_ok) in
  let conn' := (ws_to_tcp_step r send_ok conn).2 in
  objects conn' !! r = Some (Pump.this st.1)
  ∧ trace conn' = trace conn ++ flat_map (io_of r) st.2
  ∧ streams conn' = streams conn.
Proof.
  intros Hobj Hopen st conn'. subst st conn'.
  unfold ws_to_tcp_step, ws_to_tcp_iteration, try_catch. cbn [step running negb].
  cbv [mbind M_bind get]. rewrite Hobj. cbn [Pump.this].
  destruct (take_chunk this) as [[data this1]|] eqn:Htake.
  - cbv [set_object modify lift]. cbn [objects with_objects].
    destruct (ws_to_tcp_body this1 data send_ok) as [[this2 packet]|e] eqn:Hbody.
    + cbn [fst snd Pump.this flat_map io_of app].
      destruct packet as [packet|].
      * unfold detached, ws_send. cbv [mbind M_bind get lift modify].
        cbn [ws with_trace with_objects]. unfold DataChannel.send.
        rewrite Hopen, andb_false_r. cbn [flat_map io_of app].
        destruct (Packet.serialize packet) as [bytes|e];
          cbn [mbind Result_bind fst snd objects trace streams with_trace
               with_objects flat_map io_of app];
          (split; [eapply lookup_set_object, lookup_set_object, Hobj|]);
          by rewrite <- ?app_assoc.
      * cbn [skip mret M_ret fst snd objects trace streams with_trace with_objects].
        split; [eapply lookup_set_object, lookup_set_object, Hobj|done].
    + cbv [logging_at modify ServerStream_close mbind M_bind get].
      cbn [objects with_log with_objects].
      rewrite (lookup_set_object _ _ this this1 Hobj).
      unfold close_silently.
      destruct (closed this1);
        cbv [skip mret M_ret set_object modify mbind M_bind];
        cbn [fst snd objects trace streams with_log with_objects flat_map];
        rewrite app_nil_r;
        (split; [|done]).
      * by apply (lookup_set_object _ _ this).
      * eapply lookup_set_object, lookup_set_object, Hobj.
  - destruct (ended (clientToTarget this)).
    + cbv [ServerStream_close mbind M_bind get]. rewrite Hobj.
      unfold close_silently.
      destruct (closed this);
        cbv [skip mret M_ret set_object modify mbind M_bind];
        cbn [fst snd objects trace streams with_objects flat_map Pump.this];
        rewrite app_nil_r; (split; [|done]); [done|].
      by apply (lookup_set_object _ _ this).
    + cbn [skip mret M_ret fst snd flat_map Pump.this]. by rewrite app_nil_r.
Qed.

(** The DATA branch of [route_packet] is [Put]. *)
Lemma put_refines conn buffer packet payload r this :
  Packet.parse_all buffer = Ok packet →
  Packet.payload packet = Some (Packet.Data payload) →
  streams conn !! Packet.stream_id packet = Some r →
  objects conn !! r = Some this →
  let conn' := (route_packet buffer conn).2 in
  (route_packet buffer conn).1 = Ok tt
  ∧ objects conn' !! r
    = Some (Pump.this (step {| this := this; running := true |}
                          (Put (Packet.data payload))).1)
  ∧ trace conn' = trace conn ∧ streams conn' = streams conn.
Proof.
  intros Hparse Hpl Hsid Hobj conn'. subst conn'.
  unfold route_packet. cbv [mbind M_bind lift get].
  rewrite Hparse, Hsid, Hpl.
  rewrite bool_decide_eq_false_2 by done. cbn [andb].
  cbv [mbind M_bind get]. rewrite Hobj.
  cbv [set_object modify]. cbn [fst snd objects trace streams with_objects step Pump.this].
  split; [done|]. split; [|done]. by apply (lookup_set_object _ _ this).
Qed.

(** [ServerStream_close] without a reason is [Shut]. *)
Lemma shut_refines conn r this :
  objects conn !! r = Some this →
  let conn' := (ServerStream_close r None conn).2 in
  objects conn' !! r
  = Some (Pump.this (step {| this := this; running := true |} Shut).1)
  ∧ trace conn' = trace conn ∧ streams conn' = streams conn.
Proof.
  intros Hobj conn'. subst conn'.
  cbv [ServerStream_close mbind M_bind get]. rewrite Hobj.
  cbn [step fst Pump.this]. unfold close_silently.
  destruct (closed this); cbv [skip mret M_ret set_object modify mbind M_bind];
    cbn [fst snd objects trace streams with_objects]; [done|].
  split; [|done]. by apply (lookup_set_object _ _ this).
Qed.

End Refines.
End PumpOnConnection.

(** ** An invariant of the connection

    The entries of the stream table always refer to stream objects that
    exist: this holds of a new connection and every method keeps it. *)

Module Invariant.
Import Connection Shape.

Section Keeps.
Context `{Platform}.

Lemma keeps_ret {A} (a : A) : keeps (mret a).
Proof. by intros conn. Qed.

Lemma keeps_get : keeps get.
Proof. by intros conn. Qed.

Lemma keeps_lift {A} (r : Result A) : keeps (lift r).
Proof. by intros conn. Qed.

Lemma keeps_throw {A} e : keeps (throw (A:=A) e).
Proof. by intros conn. Qed.

Lemma keeps_bind {A B} (m : M A) (f : A → M B) :
  keeps m → (∀ a, keeps (f a)) → keeps (m ≫= f).
Proof.
  intros Hm Hf conn Hv. unfold mbind, M_bind. specialize (Hm conn Hv).
  destruct (m conn) as [[a|e] conn1]; cbn [snd] in *; [by apply Hf|done].
Qed.

Lemma keeps_try_catch {A} (m : M A) (h : exn → M A) :
  keeps m → (∀ e, keeps (h e)) → keeps (try_catch m h).
Proof.
  intros Hm Hh conn Hv. unfold try_catch. specialize (Hm conn Hv).
  destruct (m conn) as [[a|e] conn1]; cbn [snd] in *; [done|by apply Hh].
Qed.

Lemma keeps_detached (m : M unit) : keeps m → keeps (detached m).
Proof. intros Hm conn Hv. by apply Hm. Qed.

Lemma keeps_logging_at l msg : keeps (logging_at l msg).
Proof. by intros conn. Qed.

Lemma keeps_trace f : keeps (modify (λ conn, with_trace conn (f conn))).
Proof. by intros conn. Qed.

Lemma keeps_ws f : keeps (modify (λ conn, with_ws conn (f conn))).
Proof. by intros conn. Qed.

Lemma keeps_set_object r s : keeps (set_object r s).
Proof.
  intros conn Hv k r' Hk. cbn in *. rewrite length_insert. by apply (Hv k).
Qed.

Lemma keeps_delete k :
  keeps (modify (λ conn, with_streams conn (delete k (streams conn)))).
Proof.
  intros conn Hv k' r Hk. cbn in *.
  apply lookup_delete_Some in Hk as [_ Hk]. by apply (Hv k').
Qed.

Lemma keeps_exts f g : keeps (modify (λ conn, with_exts conn (f conn) (g conn))).
Proof. by intros conn. Qed.

Lemma keeps_ws_send packet : keeps (ws_send packet).
Proof.
  unfold ws_send. apply keeps_bind; [apply keeps_get|]. intros conn.
  apply keeps_bind; [apply keeps_lift|]. intros bytes.
  apply (keeps_trace (λ conn, trace conn ++ [CarrierSend bytes])).
Qed.

(** Going through a method: binds, branches and the steps above. *)
Ltac keeps_step :=
  match goal with
  | |- keeps (mbind _ _) => apply keeps_bind; [|intros ?]
  | |- keeps (try_catch _ _) => apply keeps_try_catch; [|intros ?]
  | |- keeps (detached _) => apply keeps_detached
  | |- keeps (mret _) => apply keeps_ret
  | |- keeps get => apply keeps_get
  | |- keeps (lift _) => apply keeps_lift
  | |- keeps (throw _) => apply keeps_throw
  | |- keeps (logging_at _ _) => apply keeps_logging_at
  | |- keeps (ws_send _) => apply keeps_ws_send
  | |- keeps (set_object _ _) => apply keeps_set_object
  | |- keeps (modify _) => apply keeps_delete
  | |- keeps (match ?x with _ => _ end) => destruct x
  end.

Lemma keeps_ServerStream_close r reason : keeps (ServerStream_close r reason).
Proof. unfold ServerStream_close, skip. repeat keeps_step. Qed.

Lemma keeps_close_stream k reason quiet : keeps (close_stream k reason quiet).
Proof.
  unfold close_stream, skip.
  repeat first [apply keeps_ServerStream_close | keeps_step].
Qed.

Lemma keeps_create_stream sid ty h p : keeps (create_stream sid ty h p).
Proof.
  intros conn Hv. unfold create_stream, Net.new_Socket.
  destruct (negb is_node); [done|].
  by apply (ConnectionFacts.table_refs_valid_entered conn sid ty h p).
Qed.

Lemma keeps_route_packet buffer : keeps (route_packet buffer).
Proof.
  unfold route_packet, skip.
  repeat match goal with
         | |- keeps (close_stream _ _ _) => apply keeps_close_stream
         | |- keeps (create_stream _ _ _ _) => apply keeps_create_stream
         | _ => keeps_step
         end.
Qed.

Lemma keeps_run_message data : keeps (run_message data).
Proof.
  unfold run_message. repeat first [apply keeps_route_packet | keeps_step].
Qed.

Lemma keeps_ServerStream_setup r ok : keeps (ServerStream_setup r ok).
Proof. unfold ServerStream_setup, skip. repeat keeps_step. Qed.

Lemma keeps_run_task options t lookup ok : keeps (run_task options t lookup ok).
Proof.
  unfold run_task.
  repeat first [apply keeps_close_stream | apply keeps_ServerStream_setup
               | keeps_step].
Qed.

Lemma keeps_tcp_to_ws_data r data : keeps (tcp_to_ws_data r data).
Proof. unfold tcp_to_ws_data, skip. repeat keeps_step. Qed.

Lemma keeps_tcp_to_ws_end r : keeps (tcp_to_ws_end r).
Proof.
  unfold tcp_to_ws_end, skip. repeat first [apply keeps_close_stream | keeps_step].
Qed.

Lemma keeps_ws_to_tcp_step r ok : keeps (ws_to_tcp_step r ok).
Proof.
  unfold ws_to_tcp_step, ws_to_tcp_iteration, skip.
  repeat first [apply keeps_ServerStream_close | apply keeps_trace | keeps_step].
Qed.

Lemma keeps_close_all ks : keeps (close_all ks).
Proof.
  induction ks as [|k ks IH]; [apply keeps_ret|].
  change (close_all (k :: ks)) with (close_stream k None false;; close_all ks).
  apply keeps_bind; [apply keeps_close_stream|done].
Qed.

Lemma keeps_cleanup : keeps cleanup.
Proof.
  unfold cleanup.
  repeat first [apply keeps_close_all | apply keeps_ws | keeps_step].
Qed.

Lemma record_extensions_table exts client_extensions : ∀ conn,
  objects (record_extensions exts client_extensions conn) = objects conn
  ∧ streams (record_extensions exts client_extensions conn) = streams conn.
Proof.
  unfold record_extensions.
  induction client_extensions as [|x xs IH]; intros conn; [done|]. cbn [foldl].
  match goal with
  | |- objects (foldl _ ?c xs) = _ ∧ _ => destruct (IH c) as [-> ->]
  end.
  clear IH. induction exts as [|y ys IH] in conn |- *; [done|]. cbn [foldl].
  match goal with
  | |- objects (foldl _ ?c ys) = _ ∧ _ => destruct (IH c) as [-> ->]
  end.
  by destruct (_ =? _).
Qed.

Lemma keeps_record_extensions exts client_extensions :
  keeps (modify (record_extensions exts client_extensions)).
Proof.
  intros conn Hv k r Hk. unfold modify in *. cbn [snd] in *.
  destruct (record_extensions_table exts client_extensions conn) as [Ho Hs].
  rewrite Ho. rewrite Hs in Hk. by apply (Hv k).
Qed.

Lemma keeps_setup_wisp_v2 data : keeps (setup_wisp_v2 data).
Proof.
  unfold setup_wisp_v2.
  repeat first [apply keeps_cleanup | apply keeps_record_extensions | keeps_step].
Qed.

Lemma table_refs_valid_new options ws_ version exts :
  table_refs_valid (new_ServerConnection options ws_ version exts).
Proof. intros k r Hk. cbn in Hk. by rewrite lookup_empty in Hk. Qed.

End Keeps.
End Invariant.

(** * Further properties of the sources *)

(** ** src/server/packet.ts: the codec on arbitrary bytes and values *)

Module CodecFacts.
Import Packet PacketFacts Wire Canon.

Lemma to_u8_eq v a : v mod 256 = u8 a → to_u8 v = a.
Proof.
  intros Hv. transitivity (to_u8 (u8 a)); [|apply to_u8_u8]. unfold to_u8.
  by rewrite Hv, (Z.mod_small (u8 a)) by apply u8_range.
Qed.

Lemma le32_recompose_mod v :
  v mod 256 + (v / 2 ^ 8) mod 256 * 2 ^ 8 + (v / 2 ^ 16) mod 256 * 2 ^ 16
  + (v / 2 ^ 24) mod 256 * 2 ^ 24 = v mod 2 ^ 32.
Proof. Z.to_euclidean_division_equations. lia. Qed.

Lemma le16_recompose_mod v :
  v mod 256 + (v / 2 ^ 8) mod 256 * 2 ^ 8 = v mod 2 ^ 16.
Proof. Z.to_euclidean_division_equations. lia. Qed.

(** The bytes of a value read from four bytes are those bytes. *)
Lemma le32_bytes a b c d :
  le32 (u8 a + u8 b * 2 ^ 8 + u8 c * 2 ^ 16 + u8 d * 2 ^ 24) = [a; b; c; d].
Proof.
  pose proof (u8_range a). pose proof (u8_range b).
  pose proof (u8_range c). pose proof (u8_range d).
  unfold le32. repeat f_equal; apply to_u8_eq;
    Z.to_euclidean_division_equations; lia.
Qed.

Lemma le16_bytes a b : le16 (u8 a + u8 b * 2 ^ 8) = [a; b].
Proof.
  pose proof (u8_range a). pose proof (u8_range b).
  unfold le16. repeat f_equal; apply to_u8_eq;
    Z.to_euclidean_division_equations; lia.
Qed.

Lemma getUint8_in b off : 0 ≤ off → off < size b → getUint8 b off = Ok (byte_at b off).
Proof. intros. unfold getUint8. by rewrite in_view_true by lia. Qed.

Lemma getUint16_in b off :
  0 ≤ off → off + 2 ≤ size b →
  getUint16 b off = Ok (byte_at b off + byte_at b (off + 1) * 2 ^ 8).
Proof. intros. unfold getUint16. by rewrite in_view_true by lia. Qed.

Lemma getUint32_in b off :
  0 ≤ off → off + 4 ≤ size b → getUint32 b off = Ok (u32_at b off).
Proof. intros. unfold getUint32. by rewrite in_view_true by lia. Qed.

Lemma size_drop b n : (n ≤ length b)%nat → size (drop n b) = size b - Z.of_nat n.
Proof. intros. unfold size. rewrite length_drop. lia. Qed.

Lemma u32_at_range b off : 0 ≤ u32_at b off < 2 ^ 32.
Proof.
  assert (Hb : ∀ k, 0 ≤ byte_at b k < 256).
  { intros k. unfold byte_at. destruct (b !! Z.to_nat k); [apply u8_range|lia]. }
  unfold u32_at.
  pose proof (Hb off). pose proof (Hb (off + 1)).
  pose proof (Hb (off + 2)). pose proof (Hb (off + 3)). lia.
Qed.

Section Codec.
Context `{Platform}.

(** The least size of each class covers every read of its parser. *)
Lemma payload_parse_total c pb :
  min_size c ≤ size pb → ∃ pl, payload_parse c pb = Ok pl ∧ class_of pl = c.
Proof.
  intros Hmin. destruct c; cbn [min_size] in Hmin; cbn [payload_parse].
  - unfold ConnectPayload_parse.
    rewrite getUint8_in by lia. cbn [mbind Result_bind].
    rewrite getUint16_in by lia. cbn [mbind Result_bind fmap Result_fmap]. eauto.
  - unfold DataPayload_parse. cbn [fmap Result_fmap]. eauto.
  - unfold ContinuePayload_parse.
    rewrite getUint32_in by lia. cbn [mbind Result_bind fmap Result_fmap]. eauto.
  - unfold ClosePayload_parse.
    rewrite getUint8_in by lia. cbn [mbind Result_bind fmap Result_fmap]. eauto.
  - unfold InfoPayload_parse.
    rewrite getUint8_in by lia. cbn [mbind Result_bind].
    rewrite getUint8_in by lia. cbn [mbind Result_bind fmap Result_fmap]. eauto.
Qed.

(** [parse_all], branch by branch. *)
Lemma parse_all_eq b :
  parse_all b
  = if size b <? 5 then Throw (TypeError "packet too small") else
    match packet_classes (byte_at b 0) with
    | None => Throw (TypeError "invalid packet type")
    | Some c =>
        if size b - 5 <? min_size c then Throw (TypeError "payload too small")
        else
          pl ← payload_parse c (drop 5 b);
          Ok {| type := byte_at b 0; stream_id := u32_at b 1;
                payload_bytes := Some (drop 5 b); payload := Some pl |}
    end.
Proof.
  unfold parse_all. destruct (size b <? 5) eqn:E; [done|].
  apply Z.ltb_ge in E. unfold parse.
  rewrite getUint8_in by lia. cbn [mbind Result_bind].
  rewrite getUint32_in by lia. cbn [mbind Result_bind]. unfold new_WispPacket.
  cbn [mbind Result_bind type payload_bytes stream_id].
  rewrite slice_from by lia. change (Z.to_nat 5) with 5%nat.
  destruct (packet_classes (byte_at b 0)) as [c|]; [|done].
  rewrite size_drop by (unfold size in E; lia). done.
Qed.

Lemma parse_all_inv b p :
  parse_all b = Ok p →
  ∃ c pl, 5 ≤ size b ∧ packet_classes (byte_at b 0) = Some c
    ∧ min_size c ≤ size b - 5
    ∧ payload_parse c (drop 5 b) = Ok pl ∧ class_of pl = c
    ∧ p = {| type := byte_at b 0; stream_id := u32_at b 1;
             payload_bytes := Some (drop 5 b); payload := Some pl |}.
Proof.
  rewrite parse_all_eq. destruct (size b <? 5) eqn:E; [done|].
  apply Z.ltb_ge in E.
  destruct (packet_classes (byte_at b 0)) as [c|]; [|done].
  destruct (size b - 5 <? min_size c) eqn:E2; [done|]. apply Z.ltb_ge in E2.
  destruct (payload_parse_total c (drop 5 b)) as (pl & Hpl & Hc).
  { rewrite size_drop; [done|]. unfold size in E. lia. }
  rewrite Hpl. cbn [mbind Result_bind]. intros [= <-]. by exists c, pl.
Qed.

End Codec.
End CodecFacts.

(** X1. [WispPacket.parse_all] on any buffer: it throws one of three
    [TypeError]s, for a buffer shorter than the header, for a type byte that
    names no payload class, and for a payload shorter than the least size of
    its class, and it throws nothing else; the least size of each class
    covers every read its parser makes, so that no read leaves the buffer.
    When it returns, the type is the first byte, the stream id is the
    32-bit little-endian value of the next four, the payload bytes are the
    rest, and the payload is of the class the type names. *)
Theorem parse_all_outcome `{Platform} (b : list byte) :
  match Packet.parse_all b with
  | Throw e =>
      (Packet.size b < 5 ∧ e = TypeError "packet too small")
      ∨ (5 ≤ Packet.size b ∧ Packet.packet_classes (Packet.byte_at b 0) = None
         ∧ e = TypeError "invalid packet type")
      ∨ (∃ c, 5 ≤ Packet.size b
              ∧ Packet.packet_classes (Packet.byte_at b 0) = Some c
              ∧ Packet.size b - 5 < Packet.min_size c
              ∧ e = TypeError "payload too small")
  | Ok p =>
      ∃ c pl, 5 ≤ Packet.size b
        ∧ Packet.packet_classes (Packet.byte_at b 0) = Some c
        ∧ Packet.min_size c ≤ Packet.size b - 5
        ∧ Packet.type p = Packet.byte_at b 0
        ∧ Packet.stream_id p = Canon.u32_at b 1
        ∧ 0 ≤ Packet.stream_id p < 2 ^ 32
        ∧ Packet.payload_bytes p = Some (drop 5 b)
        ∧ Packet.payload p = Some pl ∧ Packet.class_of pl = c
  end.
Proof.
  rewrite CodecFacts.parse_all_eq.
  destruct (Packet.size b <? 5) eqn:E.
  { apply Z.ltb_lt in E. by left. }
  apply Z.ltb_ge in E.
  destruct (Packet.packet_classes (Packet.byte_at b 0)) as [c|] eqn:Hc.
  2: { right. by left. }
  destruct (Packet.size b - 5 <? Packet.min_size c) eqn:E2.
  { apply Z.ltb_lt in E2. right. right. by exists c. }
  apply Z.ltb_ge in E2.
  destruct (CodecFacts.payload_parse_total c (drop 5 b)) as (pl & Hpl & Hcl).
  { rewrite CodecFacts.size_drop; [done|]. unfold Packet.size in E. lia. }
  rewrite Hpl. cbn [mbind Result_bind]. exists c, pl.
  cbn [Packet.type Packet.stream_id Packet.payload_bytes Packet.payload].
  pose proof (CodecFacts.u32_at_range b 1). done.
Qed.

Module ReserializeFacts.
Import Packet PacketFacts Wire Canon CodecFacts.

Lemma header_type t rest : byte_at (t :: rest) 0 = u8 t.
Proof. done. Qed.

Lemma header_stream_id t s0 s1 s2 s3 rest :
  u32_at (t :: s0 :: s1 :: s2 :: s3 :: rest) 1
  = u8 s0 + u8 s1 * 2 ^ 8 + u8 s2 * 2 ^ 16 + u8 s3 * 2 ^ 24.
Proof. done. Qed.

Section Parsers.
Context `{Platform}.

(** The parsers on a payload that is long enough, byte by byte. *)
Lemma ConnectPayload_parse_cons st p0 p1 hb :
  ConnectPayload_parse (st :: p0 :: p1 :: hb)
  = Ok {| stream_type := u8 st; port := u8 p0 + u8 p1 * 2 ^ 8;
          hostname := decode_text hb |}.
Proof.
  unfold ConnectPayload_parse. rewrite getUint8_head. cbn [mbind Result_bind].
  rewrite getUint16_in; [|lia|unfold size; cbn [length]; lia].
  cbn [mbind Result_bind]. by rewrite slice_3.
Qed.

Lemma ContinuePayload_parse_cons a b c d rest :
  ContinuePayload_parse (a :: b :: c :: d :: rest)
  = Ok {| buffer_remaining := u8 a + u8 b * 2 ^ 8 + u8 c * 2 ^ 16 + u8 d * 2 ^ 24 |}.
Proof.
  unfold ContinuePayload_parse.
  rewrite getUint32_in; [done|lia|unfold size; cbn [length]; lia].
Qed.

Lemma ClosePayload_parse_cons r rest :
  ClosePayload_parse (r :: rest) = Ok {| reason := u8 r |}.
Proof. unfold ClosePayload_parse. by rewrite getUint8_head. Qed.

Lemma InfoPayload_parse_cons ma mi rest :
  InfoPayload_parse (ma :: mi :: rest)
  = Ok {| major_ver := u8 ma; minor_ver := u8 mi; extensions := rest |}.
Proof.
  unfold InfoPayload_parse. rewrite getUint8_head. cbn [mbind Result_bind].
  rewrite getUint8_at1. cbn [mbind Result_bind]. by rewrite slice_2.
Qed.

(** What a parsed payload serializes to, given the bytes it was parsed
    from. *)
Lemma payload_reserialize c pb pl :
  min_size c ≤ size pb →
  payload_parse c pb = Ok pl →
  payload_serialize pl
  = Ok match c with
       | ConnectClass => take 3 pb ++ encode_text (decode_text (drop 3 pb))
       | DataClass => pb
       | ContinueClass => take 4 pb
       | CloseClass => take 1 pb
       | InfoClass => pb
       end.
Proof.
  intros Hmin. destruct c; cbn [min_size] in Hmin; cbn [payload_parse].
  - destruct pb as [|st [|p0 [|p1 hb]]];
      try (unfold size in Hmin; cbn [length] in Hmin; lia).
    rewrite ConnectPayload_parse_cons. cbn [fmap Result_fmap]. intros [= <-].
    cbn [payload_serialize]. rewrite ConnectPayload_serialize_eq.
    cbn [stream_type port hostname take drop app].
    by rewrite to_u8_u8, le16_bytes.
  - unfold DataPayload_parse. cbn [fmap Result_fmap]. by intros [= <-].
  - destruct pb as [|a [|b [|c [|d rest]]]];
      try (unfold size in Hmin; cbn [length] in Hmin; lia).
    rewrite ContinuePayload_parse_cons. cbn [fmap Result_fmap]. intros [= <-].
    cbn [payload_serialize]. rewrite ContinuePayload_serialize_eq.
    cbn [buffer_remaining take]. by rewrite le32_bytes.
  - destruct pb as [|r rest];
      try (unfold size in Hmin; cbn [length] in Hmin; lia).
    rewrite ClosePayload_parse_cons. cbn [fmap Result_fmap]. intros [= <-].
    cbn [payload_serialize]. rewrite ClosePayload_serialize_eq.
    cbn [reason take]. by rewrite to_u8_u8.
  - destruct pb as [|ma [|mi rest]];
      try (unfold size in Hmin; cbn [length] in Hmin; lia).
    rewrite InfoPayload_parse_cons. cbn [fmap Result_fmap]. intros [= <-].
    cbn [payload_serialize]. rewrite InfoPayload_serialize_eq.
    cbn [major_ver minor_ver extensions]. by rewrite !to_u8_u8.
Qed.

(** What a payload parses to after it was serialized. *)
Lemma payload_wrap pl :
  ∃ pb, payload_serialize pl = Ok pb
        ∧ min_size (class_of pl) ≤ size pb
        ∧ payload_parse (class_of pl) pb = Ok (wrap_payload pl).
Proof.
  destruct pl as [c|d|c|c|i];
    cbn [payload_serialize class_of min_size payload_parse wrap_payload].
  - rewrite ConnectPayload_serialize_eq. eexists. split; [done|]. split.
    { unfold size. cbn [length le16 app]. lia. }
    unfold le16. cbn [app]. rewrite ConnectPayload_parse_cons.
    cbn [fmap Result_fmap].
    by rewrite !u8_to_u8, le16_recompose_mod.
  - unfold DataPayload_serialize. eexists. split; [done|]. split.
    { apply size_nonneg. }
    by destruct d.
  - rewrite ContinuePayload_serialize_eq. eexists. split; [done|]. split.
    { unfold size. cbn [length le32]. lia. }
    unfold le32. rewrite ContinuePayload_parse_cons. cbn [fmap Result_fmap].
    by rewrite !u8_to_u8, le32_recompose_mod.
  - rewrite ClosePayload_serialize_eq. eexists. split; [done|]. split.
    { unfold size. cbn [length]. lia. }
    rewrite ClosePayload_parse_cons. cbn [fmap Result_fmap].
    by rewrite u8_to_u8.
  - rewrite InfoPayload_serialize_eq. eexists. split; [done|]. split.
    { unfold size. cbn [length]. lia. }
    rewrite InfoPayload_parse_cons. cbn [fmap Result_fmap].
    by rewrite !u8_to_u8.
Qed.

End Parsers.
End ReserializeFacts.

(** X2. Serializing a packet that [WispPacket.parse_all] accepted gives the
    bytes it was parsed from, cut to what the parser of its class reads: a
    DATA or INFO packet gives the buffer itself, a CONTINUE packet its first
    nine bytes and a CLOSE packet its first six (bytes after the credit or
    the reason are dropped), a CONNECT packet its first eight bytes followed
    by the hostname bytes decoded and encoded again. *)
Theorem parsed_packet_reserializes `{Platform} (b : list byte) (p : Packet.WispPacket) :
  Packet.parse_all b = Ok p →
  ∃ pl, Packet.payload p = Some pl
        ∧ Packet.serialize p = Ok (Canon.reserialized pl b).
Proof.
  intros Hp.
  apply CodecFacts.parse_all_inv in Hp as (c & pl & Hsz & Hc & Hmin & Hpl & Hcl & ->).
  exists pl. split; [done|].
  destruct b as [|t [|s0 [|s1 [|s2 [|s3 rest]]]]];
    try (unfold Packet.size in Hsz; cbn [length] in Hsz; lia).
  change (drop 5 (t :: s0 :: s1 :: s2 :: s3 :: rest)) with rest in *.
  assert (Hmin' : Packet.min_size c ≤ Packet.size rest).
  { unfold Packet.size in *. cbn [length] in Hmin. lia. }
  pose proof (ReserializeFacts.payload_reserialize c rest pl Hmin' Hpl) as Hser.
  erewrite PacketFacts.serialize_eq; [|reflexivity|exact Hser].
  cbn [Packet.type Packet.stream_id].
  rewrite ReserializeFacts.header_type, ReserializeFacts.header_stream_id.
  rewrite to_u8_u8, CodecFacts.le32_bytes. f_equal.
  subst c. destruct pl; cbn [Packet.class_of Canon.reserialized app take drop];
    reflexivity.
Qed.

Lemma parsed_packet_reserializes_witness :
  let b := [x04; x01; x00; x00; x00; x02; xff; xff] in
  let p := {| Packet.type := 4; Packet.stream_id := 1;
              Packet.payload_bytes := Some [x02; xff; xff];
              Packet.payload := Some (Packet.Close {| Packet.reason := 2 |}) |} in
  @Packet.parse_all example_platform b = Ok p
  ∧ ∃ pl, Packet.payload p = Some pl
          ∧ @Packet.serialize example_platform p
            = Ok (@Canon.reserialized example_platform pl b).
Proof.
  intros b p.
  assert (Hp : @Packet.parse_all example_platform b = Ok p) by reflexivity.
  split; [exact Hp|].
  exact (@parsed_packet_reserializes example_platform b p Hp).
Defined.

(** X3. Encoding then decoding a packet built by the constructor, for any
    payload and any stream id, with no bound on the fields: [parse_all] of
    the serialized packet returns the packet with every numeric field
    reduced modulo the width it is written with (stream id and credit modulo
    2^32, port modulo 2^16, stream kind, close reason and version numbers
    modulo 2^8) and the hostname passed through the encoder and the decoder;
    the payload bytes are those the constructor computed. *)
Theorem packet_roundtrip_wraps `{Platform} (pl : Packet.Payload) (sid : Z) :
  ∃ p b pb,
    Packet.new_WispPacket (Packet.class_type (Packet.class_of pl)) sid (Some pl) None
      = Ok p
    ∧ Packet.payload_bytes p = Some pb
    ∧ Packet.serialize p = Ok b
    ∧ Packet.parse_all b
      = Ok {| Packet.type := Packet.class_type (Packet.class_of pl);
              Packet.stream_id := sid mod 2 ^ 32;
              Packet.payload_bytes := Some pb;
              Packet.payload := Some (Canon.wrap_payload pl) |}.
Proof.
  destruct (ReserializeFacts.payload_wrap pl) as (pb & Hpb & Hmin & Hparse).
  eexists _, _, pb. unfold Packet.new_WispPacket. rewrite Hpb.
  cbn [fmap Result_fmap mbind Result_bind].
  split; [reflexivity|]. cbn [Packet.payload_bytes]. split; [reflexivity|].
  split; [by apply (PacketFacts.serialize_eq _ pl pb)|].
  cbn [Packet.type Packet.stream_id].
  rewrite CodecFacts.parse_all_eq.
  assert (Hsz : Packet.size (to_u8 (Packet.class_type (Packet.class_of pl))
                               :: Wire.le32 sid ++ pb) = 5 + Packet.size pb).
  { unfold Packet.size. cbn [length Wire.le32 app]. lia. }
  rewrite Hsz. pose proof (PacketFacts.size_nonneg pb) as Hnn.
  destruct (5 + Packet.size pb <? 5) eqn:E; [apply Z.ltb_lt in E; lia|].
  unfold Wire.le32. cbn [app].
  rewrite ReserializeFacts.header_type, ReserializeFacts.header_stream_id.
  rewrite !u8_to_u8, CodecFacts.le32_recompose_mod.
  rewrite (Z.mod_small (Packet.class_type _)) by (destruct pl; cbn; lia).
  rewrite PacketFacts.packet_classes_class_type.
  replace (5 + Packet.size pb - 5) with (Packet.size pb) by lia.
  destruct (Packet.size pb <? Packet.min_size (Packet.class_of pl)) eqn:E2;
    [apply Z.ltb_lt in E2; lia|].
  change (drop 5 (_ :: _ :: _ :: _ :: _ :: pb)) with pb. by rewrite Hparse.
Qed.

(** X4. [WispBuffer.slice]: for every index, negative ones included,
    [slice(0, k)] followed by [slice(k)] is the buffer, and a slice is never
    longer than the buffer it is cut from. *)
Theorem slice_partitions (b : list byte) (k : Z) (e : option Z) :
  Packet.slice b 0 (Some k) ++ Packet.slice b k None = b
  ∧ Packet.size (Packet.slice b k e) ≤ Packet.size b.
Proof.
  split.
  - unfold Packet.slice.
    assert (H0 : Packet.rel_index (Packet.size b) 0 = 0).
    { unfold Packet.rel_index. cbn [Z.ltb Z.compare].
      apply Z.min_l, PacketFacts.size_nonneg. }
    rewrite H0. change (Z.to_nat 0) with 0%nat. rewrite drop_0, Z.sub_0_r.
    assert (Hr : 0 ≤ Packet.rel_index (Packet.size b) k ≤ Packet.size b).
    { unfold Packet.rel_index. pose proof (PacketFacts.size_nonneg b).
      destruct (k <? 0) eqn:E; [apply Z.ltb_lt in E|apply Z.ltb_ge in E]; lia. }
    rewrite (take_ge (drop _ b)).
    + apply take_drop.
    + rewrite length_drop. unfold Packet.size in *. lia.
  - unfold Packet.slice, Packet.size. rewrite length_take, length_drop. lia.
Qed.

(** ** src/server/extensions.ts: lists of extensions *)

Module ExtensionListFacts.
Import Packet PacketFacts Wire Records ExtensionsFacts.

Lemma find_class_Some valid id_ c :
  Extensions.find_class valid id_ = Some c → c ∈ valid ∧ Extensions.class_id c = id_.
Proof.
  induction valid as [|x valid IH]; [done|]. cbn [Extensions.find_class].
  destruct (Extensions.class_id x =? id_) eqn:E; cbn [negb].
  - intros [= <-]. apply Z.eqb_eq in E. split; [left|done].
  - intros Hc. destruct (IH Hc). split; [by right|done].
Qed.

Lemma class_id_inj c c' : Extensions.class_id c = Extensions.class_id c' → c = c'.
Proof. by destruct c, c'. Qed.

Lemma find_class_elem valid c :
  c ∈ valid → Extensions.find_class valid (Extensions.class_id c) = Some c.
Proof.
  induction valid as [|x valid IH]; [by intros ?%elem_of_nil|].
  intros Hin. cbn [Extensions.find_class].
  destruct (Extensions.class_id x =? Extensions.class_id c) eqn:E; cbn [negb].
  - apply Z.eqb_eq, class_id_inj in E. by subst.
  - apply elem_of_cons in Hin as [->|Hin]; [|by apply IH].
    rewrite Z.eqb_refl in E. discriminate.
Qed.

Section Lists.
Context `{Platform}.

Lemma serialize_payload e p :
  Extensions.payload e = Some p →
  Extensions.serialize e = Ok (record_bytes (record_of e)).
Proof.
  intros Hp. unfold Extensions.serialize, record_of, record_bytes. rewrite Hp.
  cbn [fst snd]. unfold Extensions.id.
  by generalize (Extensions.payload_serialize p).
Qed.

Lemma serialize_no_payload e :
  Extensions.payload e = None →
  Extensions.serialize e = Throw (TypeError "payload is undefined").
Proof. intros Hp. unfold Extensions.serialize. by rewrite Hp. Qed.

Lemma serialize_extensions_from_outcome exts : ∀ acc,
  match Extensions.serialize_extensions_from acc exts with
  | Ok b =>
      Forall (λ e, is_Some (Extensions.payload e)) exts
      ∧ b = acc ++ encode_records (record_of <$> exts)
  | Throw e =>
      (∃ msg, e = TypeError msg)
      ∧ Exists (λ e, Extensions.payload e = None) exts
  end.
Proof.
  induction exts as [|e exts IH]; intros acc.
  - cbn. split; [done|]. by rewrite app_nil_r.
  - cbn [Extensions.serialize_extensions_from].
    destruct (Extensions.payload e) as [p|] eqn:Hp.
    + rewrite (serialize_payload e p Hp). cbn [mbind Result_bind].
      specialize (IH (concat acc (record_bytes (record_of e)))).
      destruct (Extensions.serialize_extensions_from _ exts) as [b|err].
      * destruct IH as [Hall ->]. split.
        { apply Forall_cons. split; [by rewrite Hp|done]. }
        unfold concat, encode_records. cbn [fmap list_fmap flat_map].
        by rewrite <- app_assoc.
      * destruct IH as [Hmsg Hex]. split; [done|]. by apply Exists_cons_tl.
    + rewrite (serialize_no_payload e Hp). cbn [mbind Result_bind].
      split; [eauto|]. by apply Exists_cons_hd.
Qed.

Lemma wf_record_of e :
  size (record_of e).2 < 2 ^ 32 → wf_record (record_of e).
Proof.
  intros Hsz. split; [|done]. unfold record_of, Extensions.id. cbn [fst].
  destruct (Extensions.constructor e); cbn; lia.
Qed.

(** A buffer of complete records parses to what each record parses to. *)
Lemma parse_extensions_records rs valid role :
  Forall wf_record rs →
  Extensions.parse_extensions (encode_records rs) valid role
  = Ok (parsed_records valid role rs).
Proof.
  intros Hrs. unfold Extensions.parse_extensions.
  pose proof (length_encode_records rs) as Hle.
  assert (Hfuel : ∃ k, length (encode_records rs) = (length rs + k)%nat).
  { exists (length (encode_records rs) - length rs)%nat. lia. }
  destruct Hfuel as [k ->].
  rewrite <- (app_nil_r (encode_records rs)).
  rewrite loop_complete_records by done. by rewrite loop_nil.
Qed.

Lemma parsed_record_of_server valid e :
  Extensions.constructor e ∈ valid → server_made e →
  parsed_record valid Extensions.server (record_of e) = [e].
Proof.
  intros Hin Hmade. unfold parsed_record, record_of, Extensions.id. cbn [fst snd].
  rewrite (find_class_elem _ _ Hin). f_equal.
  unfold server_made in Hmade. destruct e as [c p]. cbn in *.
  destruct c, p as [[|m]|]; try done. cbn. unfold get_string. by rewrite Hmade.
Qed.

Lemma parsed_record_of_client valid e :
  Extensions.constructor e ∈ valid →
  parsed_record valid Extensions.client (record_of e) = [client_read e].
Proof.
  intros Hin. unfold parsed_record, record_of, Extensions.id. cbn [fst snd].
  by rewrite (find_class_elem _ _ Hin).
Qed.

(** What the loop returns, from any buffer. *)
Lemma loop_outcome valid role fuel : ∀ b acc,
  Forall (parsed_from valid role) acc →
  match Extensions.parse_extensions_loop fuel b valid role acc with
  | Some (Ok es) =>
      Forall (parsed_from valid role) es
      ∧ 5 * Z.of_nat (length es) ≤ 5 * Z.of_nat (length acc) + size b
  | Some (Throw e) => e = RangeError ∧ b ≠ []
  | None => True
  end.
Proof.
  induction fuel as [|fuel IH]; intros b acc Hacc.
  - cbn [Extensions.parse_extensions_loop].
    destruct (size b =? 0); [|done]. split; [done|].
    pose proof (size_nonneg b). lia.
  - cbn [Extensions.parse_extensions_loop].
    destruct (size b =? 0) eqn:E0.
    { split; [done|]. pose proof (size_nonneg b). lia. }
    assert (Hne : b ≠ []).
    { intros ->. by apply Z.eqb_neq in E0. }
    destruct (getUint8 b 0) as [ext_id|e] eqn:E1.
    2: { split; [|done]. by apply HandshakeFacts.getUint8_throws in E1. }
    destruct (getUint32 b (0 + 1)) as [ext_len|e] eqn:E2.
    2: { split; [|done]. by apply HandshakeFacts.getUint32_throws in E2. }
    apply getUint32_Ok in E2 as (_ & Hsz & Hlen).
    set (acc' := match Extensions.find_class valid ext_id with
                 | Some c => acc ++ [Extensions.parse c _ role]
                 | None => acc
                 end).
    assert (Hacc' : Forall (parsed_from valid role) acc'
                    ∧ (length acc' ≤ S (length acc))%nat).
    { unfold acc'.
      destruct (Extensions.find_class valid ext_id) as [c|] eqn:Hc; [|split; [done|lia]].
      apply find_class_Some in Hc as [Hin _]. split.
      - apply Forall_app. split; [done|]. apply Forall_singleton.
        split; [by destruct role|].
        destruct role; cbn; eexists; (split; [done|]); [done|intros [=]].
      - rewrite length_app. cbn. lia. }
    destruct Hacc' as [Hall Hlen'].
    specialize (IH (slice b (5 + ext_len) None) acc' Hall).
    destruct (Extensions.parse_extensions_loop fuel _ valid role acc')
      as [[es|e]|]; [| |done].
    + destruct IH as [Hes Hbound]. split; [done|].
      rewrite slice_from in Hbound by lia.
      unfold size in *. rewrite length_drop in Hbound. lia.
    + by destruct IH as [-> _].
Qed.

End Lists.
End ExtensionListFacts.

(** X5. [serialize_extensions] returns exactly when every extension of the
    list has a payload, and then the buffer is the records of the
    extensions in order, each an id byte, the 32-bit little-endian size of
    the payload and the payload; an extension built without configuration
    (its payload is undefined) makes it throw a [TypeError]. *)
Theorem serialize_extensions_outcome `{Platform} (exts : list Extensions.extension) :
  match Extensions.serialize_extensions exts with
  | Ok b =>
      Forall (λ e, is_Some (Extensions.payload e)) exts
      ∧ b = Wire.encode_records (Records.record_of <$> exts)
  | Throw e =>
      (∃ msg, e = TypeError msg)
      ∧ Exists (λ e, Extensions.payload e = None) exts
  end.
Proof.
  unfold Extensions.serialize_extensions.
  exact (ExtensionListFacts.serialize_extensions_from_outcome exts (Packet.zeroed 0)).
Qed.

(** X6. Serializing a list of extensions and parsing the buffer gives the
    list back: with the role "server" the extensions themselves, when each
    is of an allowed class, is configured as the server configures it and
    has a payload shorter than 2^32 bytes; with the role "client" the same
    classes in the same order, each with an empty payload. *)
Theorem extensions_roundtrip `{Platform} (exts : list Extensions.extension)
    (valid : list Extensions.ext_class) (b : list byte) :
  Extensions.serialize_extensions exts = Ok b →
  Forall (λ e, Extensions.constructor e ∈ valid
               ∧ Packet.size (Records.record_of e).2 < 2 ^ 32) exts →
  Extensions.parse_extensions b valid Extensions.client
    = Ok (Records.client_read <$> exts)
  ∧ (Forall Records.server_made exts →
     Extensions.parse_extensions b valid Extensions.server = Ok exts).
Proof.
  intros Hser Hall.
  pose proof (ExtensionListFacts.serialize_extensions_from_outcome exts
                (Packet.zeroed 0)) as Hout.
  fold (Extensions.serialize_extensions exts) in Hout.
  rewrite Hser in Hout. destruct Hout as [_ Hb].
  change (b = Wire.encode_records (Records.record_of <$> exts)) in Hb. subst b.
  assert (Hwf : Forall Wire.wf_record (Records.record_of <$> exts)).
  { apply Forall_fmap. eapply Forall_impl; [exact Hall|].
    intros e [_ Hsz]. by apply ExtensionListFacts.wf_record_of. }
  rewrite !ExtensionListFacts.parse_extensions_records by done.
  split.
  - f_equal. clear Hser Hwf. induction Hall as [|e exts [Hin _] _ IH]; [done|].
    unfold Wire.parsed_records in *. cbn [fmap list_fmap flat_map].
    by rewrite ExtensionListFacts.parsed_record_of_client, IH.
  - intros Hmade. f_equal. clear Hser Hwf.
    induction Hall as [|e exts [Hin _] _ IH]; [done|].
    apply Forall_cons in Hmade as [He Hmade].
    unfold Wire.parsed_records in *. cbn [fmap list_fmap flat_map].
    by rewrite ExtensionListFacts.parsed_record_of_server, IH.
Qed.

Lemma extensions_roundtrip_witness :
  let exts :=
    [{| Extensions.constructor := Extensions.UDPExtension;
        Extensions.payload := Some Extensions.EmptyPayload |};
     {| Extensions.constructor := Extensions.MOTDExtension;
        Extensions.payload := Some (Extensions.MOTDServer "hi") |}] in
  let valid := [Extensions.UDPExtension; Extensions.MOTDExtension] in
  let b := [x01; x00; x00; x00; x00; x04; x02; x00; x00; x00; x68; x69] in
  @Extensions.serialize_extensions example_platform exts = Ok b
  ∧ @Extensions.parse_extensions example_platform b valid Extensions.client
    = Ok (Records.client_read <$> exts)
  ∧ @Extensions.parse_extensions example_platform b valid Extensions.server
    = Ok exts.
Proof.
  intros exts valid b.
  assert (Hser : @Extensions.serialize_extensions example_platform exts = Ok b)
    by reflexivity.
  assert (Hall : Forall (λ e, Extensions.constructor e ∈ valid
                   ∧ Packet.size (@Records.record_of example_platform e).2 < 2 ^ 32)
                   exts).
  { repeat apply Forall_cons_2; try apply Forall_nil_2;
      (split; [unfold valid; set_solver|vm_compute; reflexivity]). }
  assert (Hmade : Forall (@Records.server_made example_platform) exts).
  { repeat apply Forall_cons_2; try apply Forall_nil_2; reflexivity. }
  destruct (@extensions_roundtrip example_platform exts valid b Hser Hall)
    as [Hc Hs].
  split; [exact Hser|]. split; [exact Hc|exact (Hs Hmade)].
Defined.

(** X7. A list of complete extension records followed by one to four stray
    bytes is refused by [parse_extensions] with a [RangeError]: the read of
    the length of the next record leaves the buffer. *)
Theorem stray_extension_bytes_rejected `{Platform}
    (valid : list Extensions.ext_class) (role : Extensions.Role)
    (rs : list (Z * list byte)) (tail : list byte) :
  Forall Wire.wf_record rs →
  0 < Packet.size tail < 5 →
  Extensions.parse_extensions (Wire.encode_records rs ++ tail) valid role
  = Throw RangeError.
Proof.
  intros Hrs Htail. unfold Extensions.parse_extensions.
  pose proof (ExtensionsFacts.length_encode_records rs) as Hle.
  assert (Hfuel : ∃ k, length (Wire.encode_records rs ++ tail)
                       = (length rs + S k)%nat).
  { exists (length (Wire.encode_records rs ++ tail) - length rs - 1)%nat.
    rewrite length_app. unfold Packet.size in Htail. lia. }
  destruct Hfuel as [k ->].
  rewrite ExtensionsFacts.loop_complete_records by done.
  cbn [Extensions.parse_extensions_loop].
  destruct (Packet.size tail =? 0) eqn:E; [apply Z.eqb_eq in E; lia|].
  rewrite CodecFacts.getUint8_in by lia.
  unfold Packet.getUint32. by rewrite PacketFacts.in_view_false by lia.
Qed.

Lemma stray_extension_bytes_rejected_witness :
  Forall Wire.wf_record [(1, [])] ∧ 0 < Packet.size [x04; x02] < 5
  ∧ @Extensions.parse_extensions example_platform
      (Wire.encode_records [(1, [])] ++ [x04; x02])
      [Extensions.UDPExtension; Extensions.MOTDExtension] Extensions.client
    = Throw RangeError.
Proof.
  assert (Hrs : Forall Wire.wf_record [(1, [])]).
  { apply Forall_singleton.
    unfold Wire.wf_record, Packet.size. cbn [fst snd length]. lia. }
  assert (Htail : 0 < Packet.size [x04; x02] < 5).
  { unfold Packet.size. cbn [length]. lia. }
  split; [exact Hrs|]. split; [exact Htail|].
  exact (@stray_extension_bytes_rejected example_platform _ _ _ _ Hrs Htail).
Defined.

(** X8. [parse_extensions] on any buffer: when it returns, every extension
    of the result is of a class of the allow-list and has a payload, which
    is empty for the role "client", and the result has at most one
    extension for every five bytes of the buffer; when it throws, it throws
    a [RangeError], and the buffer was not empty. *)
Theorem parse_extensions_outcome `{Platform} (b : list byte)
    (valid : list Extensions.ext_class) (role : Extensions.Role) :
  match Extensions.parse_extensions b valid role with
  | Ok es =>
      Forall (Records.parsed_from valid role) es
      ∧ 5 * Z.of_nat (length es) ≤ Packet.size b
  | Throw e => e = RangeError ∧ b ≠ []
  end.
Proof.
  destruct (ExtensionsFacts.parse_extensions_total b valid role) as (r & Hr & ->).
  pose proof (ExtensionListFacts.loop_outcome valid role (length b) b []
                (Forall_nil_2 _)) as Hout.
  rewrite Hr in Hout. destruct r as [es|e]; [|done].
  destruct Hout as [Hes Hbound]. split; [done|]. cbn [length] in Hbound. lia.
Qed.

(** ** src/server/server/net.ts: the DNS cache over several calls *)

Module CacheFacts.
Import NetFacts.

Section Cache.
Context `{Platform}.

(** [lookup_ip] for a name that goes through the cache. *)
Lemma lookup_ip_through_cache opts io (dns_cache : gmap string Net.cache_entry) h :
  is_node = true → net_isIP h ≠ 4 → net_isIP h ≠ 6 →
  Net.lookup_ip opts io dns_cache h
  = let kept := Net.evict (Options.dns_ttl opts) (Net.now_on_entry io) dns_cache in
    match kept !! h with
    | Some e =>
        {| Net.value := match Net.error e with
                        | Some x => Throw x
                        | None => Ok (default h (Net.address e))
                        end;
           Net.cache := kept; Net.resolved := false |}
    | None =>
        {| Net.value := Net.resolution io;
           Net.cache :=
             <[h := {| Net.time := Net.now_on_store io;
                       Net.address := match Net.resolution io with
                                      | Ok a => Some a
                                      | Throw _ => None
                                      end;
                       Net.error := match Net.resolution io with
                                    | Ok _ => None
                                    | Throw x => Some x
                                    end |}]> kept;
           Net.resolved := true |}
    end.
Proof.
  intros Hnode H4 H6. unfold Net.lookup_ip. rewrite Hnode. cbn [negb].
  destruct (net_isIP h =? 4) eqn:E4; [apply Z.eqb_eq in E4; congruence|].
  destruct (net_isIP h =? 6) eqn:E6; [apply Z.eqb_eq in E6; congruence|].
  cbn [orb].
  destruct (Net.evict _ _ dns_cache !! h) as [e|]; [by destruct (Net.error e)|].
  by destruct (Net.resolution io).
Qed.

End Cache.
End CacheFacts.

(** X9. [lookup_ip] outside node, or for a name that [net.isIP] takes for
    an IPv4 or IPv6 literal: the name is returned as it is, nothing is
    resolved, and the cache is left as it was; no entry is evicted, however
    old. *)
Theorem lookup_ip_passes_literals `{Platform} (opts : Options.t) (io : Net.lookup_io)
    (dns_cache : gmap string Net.cache_entry) (h : string) :
  is_node = false ∨ net_isIP h = 4 ∨ net_isIP h = 6 →
  Net.lookup_ip opts io dns_cache h
  = {| Net.value := Ok h; Net.cache := dns_cache; Net.resolved := false |}.
Proof.
  intros Hcase. unfold Net.lookup_ip.
  destruct is_node; cbn [negb]; [|done].
  destruct Hcase as [?|[->| ->]]; done.
Qed.

Lemma lookup_ip_passes_literals_witness :
  let platform := {| encode_text := String.list_byte_of_string;
                     decode_text := String.string_of_list_byte;
                     trim := λ s, s;
                     ipaddr_isValid := λ _, true;
                     ipaddr_range := λ _, "unicast"%string;
                     net_isIP := λ _, 4;
                     is_node := true;
                     readableLength := λ p, Z.of_nat (length (queue p)) |} in
  let dns_cache : gmap string Net.cache_entry :=
    {[ "example.com"%string :=
         {| Net.time := 0; Net.address := Some "93.184.216.34"%string;
            Net.error := None |} ]} in
  let io := {| Net.now_on_entry := 1000000;
               Net.resolution := Throw (Error "unused");
               Net.now_on_store := 1000000 |} in
  (@is_node platform = false ∨ @net_isIP platform "10.0.0.1" = 4
   ∨ @net_isIP platform "10.0.0.1" = 6)
  ∧ @Net.lookup_ip platform Options.options io dns_cache "10.0.0.1"
    = {| Net.value := Ok "10.0.0.1"%string; Net.cache := dns_cache;
         Net.resolved := false |}.
Proof.
  intros platform dns_cache io.
  assert (Hcase : @is_node platform = false ∨ @net_isIP platform "10.0.0.1" = 4
                  ∨ @net_isIP platform "10.0.0.1" = 6).
  { right. left. reflexivity. }
  split; [exact Hcase|].
  exact (@lookup_ip_passes_literals platform Options.options io dns_cache
           "10.0.0.1" Hcase).
Defined.

(** X10. A resolution is cached, success and failure alike: after a call of
    [lookup_ip] that resolved the name, a second call for the same name
    whose reading of the clock is at most [dns_ttl] after the time the
    first stored its result returns what the first returned, or throws what
    it threw, without resolving; a second call later than that resolves
    again and returns the outcome of its own resolution. *)
Theorem resolution_is_cached `{Platform} (opts : Options.t) (io1 io2 : Net.lookup_io)
    (dns_cache : gmap string Net.cache_entry) (h : string) :
  is_node = true → net_isIP h ≠ 4 → net_isIP h ≠ 6 →
  let r1 := Net.lookup_ip opts io1 dns_cache h in
  let r2 := Net.lookup_ip opts io2 (Net.cache r1) h in
  Net.resolved r1 = true →
  Net.value r1 = Net.resolution io1
  ∧ (Net.now_on_entry io2 - Net.now_on_store io1 ≤ Options.dns_ttl opts →
     Net.resolved r2 = false ∧ Net.value r2 = Net.value r1)
  ∧ (Net.now_on_entry io2 - Net.now_on_store io1 > Options.dns_ttl opts →
     Net.resolved r2 = true ∧ Net.value r2 = Net.resolution io2).
Proof.
  intros Hnode H4 H6 r1 r2 Hres. subst r1 r2.
  rewrite (CacheFacts.lookup_ip_through_cache opts io1) in * by done.
  cbn zeta in *.
  set (kept := Net.evict (Options.dns_ttl opts) (Net.now_on_entry io1) dns_cache) in *.
  destruct (kept !! h) as [e|] eqn:Hk; [done|].
  cbn [Net.value Net.cache]. split; [done|].
  set (entry := {| Net.time := Net.now_on_store io1;
                   Net.address := _; Net.error := _ |}).
  rewrite (CacheFacts.lookup_ip_through_cache opts io2) by done. cbn zeta.
  destruct (Net.evict (Options.dns_ttl opts) (Net.now_on_entry io2)
              (<[h := entry]> kept) !! h) as [e|] eqn:Hk2.
  - apply NetFacts.evict_lookup in Hk2 as [He Hfresh].
    rewrite lookup_insert_eq in He. injection He as <-.
    cbn [Net.time entry] in Hfresh. split.
    + intros _. cbn [Net.resolved Net.value]. split; [done|].
      unfold entry. cbn [Net.error Net.address].
      by destruct (Net.resolution io1).
    + intros Hstale. lia.
  - split.
    + intros Hfresh. exfalso.
      assert (Hsome : Net.evict (Options.dns_ttl opts) (Net.now_on_entry io2)
                        (<[h := entry]> kept) !! h = Some entry).
      { apply NetFacts.evict_lookup. split; [apply lookup_insert_eq|done]. }
      congruence.
    + intros _. done.
Qed.

Lemma resolution_is_cached_witness :
  let io1 := {| Net.now_on_entry := 1000;
                Net.resolution := Throw (Error "ENOTFOUND");
                Net.now_on_store := 1040 |} in
  let io2 := {| Net.now_on_entry := 1100;
                Net.resolution := Ok "203.0.113.7"%string;
                Net.now_on_store := 1130 |} in
  let r1 := @Net.lookup_ip example_platform Options.options io1 ∅ "example.com" in
  let r2 := @Net.lookup_ip example_platform Options.options io2 (Net.cache r1)
              "example.com" in
  @is_node example_platform = true
  ∧ @net_isIP example_platform "example.com" ≠ 4
  ∧ @net_isIP example_platform "example.com" ≠ 6
  ∧ Net.resolved r1 = true
  ∧ Net.now_on_entry io2 - Net.now_on_store io1 ≤ Options.dns_ttl Options.options
  ∧ Net.resolved r2 = false
  ∧ Net.value r2 = Throw (Error "ENOTFOUND").
Proof.
  intros io1 io2 r1 r2.
  assert (Hnode : @is_node example_platform = true) by reflexivity.
  assert (H4 : @net_isIP example_platform "example.com" ≠ 4) by (cbn; lia).
  assert (H6 : @net_isIP example_platform "example.com" ≠ 6) by (cbn; lia).
  assert (Hres : Net.resolved r1 = true) by (vm_compute; reflexivity).
  assert (Hfresh : Net.now_on_entry io2 - Net.now_on_store io1
                   ≤ Options.dns_ttl Options.options) by (cbn; lia).
  destruct (@resolution_is_cached example_platform Options.options io1 io2 ∅
              "example.com" Hnode H4 H6 Hres) as (Hv & Hhit & _).
  destruct (Hhit Hfresh) as [Hr2 Hv2].
  do 4 (split; [assumption|]). split; [exact Hfresh|]. split; [exact Hr2|].
  exact (eq_trans Hv2 Hv).
Defined.

(** X11. The cache after a call of [lookup_ip] that goes through it, and
    what a call serves from it.  For every other name, the cache holds
    afterwards exactly the entries it held whose age at the call is at most
    [dns_ttl]: the eviction covers the whole cache, and nothing else
    touches the other names.  The call answers without resolving exactly
    when the cache held an entry for the name of age at most [dns_ttl];
    the answer is then that entry's error, thrown, or its address, and the
    entry stays.  Otherwise the outcome of the resolution is returned and
    stored under the name with the time read when it is stored. *)
Theorem cache_after_lookup `{Platform} (opts : Options.t) (io : Net.lookup_io)
    (dns_cache : gmap string Net.cache_entry) (h : string) :
  is_node = true → net_isIP h ≠ 4 → net_isIP h ≠ 6 →
  let r := Net.lookup_ip opts io dns_cache h in
  let young e := Net.now_on_entry io - Net.time e ≤ Options.dns_ttl opts in
  (∀ k e, k ≠ h →
     Net.cache r !! k = Some e ↔ dns_cache !! k = Some e ∧ young e)
  ∧ (Net.resolved r = false ↔ ∃ e, dns_cache !! h = Some e ∧ young e)
  ∧ (∀ e, dns_cache !! h = Some e → young e →
       Net.cache r !! h = Some e
       ∧ Net.value r = match Net.error e with
                       | Some x => Throw x
                       | None => Ok (default h (Net.address e))
                       end)
  ∧ (Net.resolved r = true →
     Net.value r = Net.resolution io
     ∧ ∃ e, Net.cache r !! h = Some e ∧ Net.time e = Net.now_on_store io
            ∧ match Net.resolution io with
              | Ok a => Net.address e = Some a ∧ Net.error e = None
              | Throw x => Net.address e = None ∧ Net.error e = Some x
              end).
Proof.
  intros Hnode H4 H6 r young. subst r.
  rewrite CacheFacts.lookup_ip_through_cache by done. cbn zeta.
  set (kept := Net.evict (Options.dns_ttl opts) (Net.now_on_entry io) dns_cache).
  assert (Hkept : ∀ k e, kept !! k = Some e ↔ dns_cache !! k = Some e ∧ young e).
  { intros k e. apply NetFacts.evict_lookup. }
  destruct (kept !! h) as [e0|] eqn:Hk.
  - apply Hkept in Hk as Hk'. destruct Hk' as [He0 Hy0].
    cbn [Net.cache Net.resolved Net.value]. split; [|split; [|split]].
    + intros k e _. apply Hkept.
    + split; [eauto|done].
    + intros e He Hy. assert (e = e0) as -> by congruence. done.
    + done.
  - cbn [Net.cache Net.resolved Net.value]. split; [|split; [|split]].
    + intros k e Hne. rewrite lookup_insert_ne by done. apply Hkept.
    + split; [done|]. intros (e & He & Hy).
      assert (kept !! h = Some e) by (by apply Hkept). congruence.
    + intros e He Hy.
      assert (kept !! h = Some e) by (by apply Hkept). congruence.
    + intros _. split; [done|]. eexists. split; [apply lookup_insert_eq|].
      cbn [Net.time Net.address Net.error]. split; [done|].
      by destruct (Net.resolution io).
Qed.

Lemma cache_after_lookup_witness :
  let dns_cache : gmap string Net.cache_entry :=
    {[ "old.example"%string :=
         {| Net.time := 0; Net.address := Some "198.51.100.1"%string;
            Net.error := None |} ]} in
  let io := {| Net.now_on_entry := 1000;
               Net.resolution := Ok "203.0.113.7"%string;
               Net.now_on_store := 1001 |} in
  let r := @Net.lookup_ip example_platform Options.options io dns_cache
             "example.com" in
  @is_node example_platform = true
  ∧ @net_isIP example_platform "example.com" ≠ 4
  ∧ @net_isIP example_platform "example.com" ≠ 6
  ∧ Net.cache r !! "old.example"%string = None.
Proof.
  intros dns_cache io r.
  assert (Hnode : @is_node example_platform = true) by reflexivity.
  assert (H4 : @net_isIP example_platform "example.com" ≠ 4) by (cbn; lia).
  assert (H6 : @net_isIP example_platform "example.com" ≠ 6) by (cbn; lia).
  destruct (@cache_after_lookup example_platform Options.options io dns_cache
              "example.com" Hnode H4 H6) as (Hother & _).
  do 3 (split; [assumption|]).
  apply eq_None_not_Some. intros [e He].
  apply Hother in He as [He Hyoung]; [|done].
  unfold dns_cache in He. apply lookup_singleton_Some in He as [_ <-].
  cbn in Hyoung. lia.
Defined.

(** ** src/server/server/filter.ts: the verdicts of the policy *)

Module VerdictFacts.
Import Settings.

Lemma check_blacklist_existsb {T} (entries : list T) (f : T → bool) :
  Filter.check_blacklist entries f = existsb f entries.
Proof.
  induction entries as [|x entries IH]; [done|]. cbn. by destruct (f x).
Qed.

Lemma check_whitelist_existsb {T} (entries : list T) (f : T → bool) :
  Filter.check_whitelist entries f = negb (existsb f entries).
Proof.
  unfold Filter.check_whitelist.
  induction entries as [|x entries IH]; [done|]. cbn. by destruct (f x).
Qed.

Section Verdicts.
Context `{Platform} {Stream : Type}.
Implicit Types (sh : Stream → string) (m : gmap Z Stream).

Lemma gates_values sh opts ty h p l :
  Filter.is_stream_allowed sh opts None ty h p l = 0
  ∨ Filter.is_stream_allowed sh opts None ty h p l = Packet.close_reasons.HostBlocked.
Proof.
  unfold Filter.is_stream_allowed. cbv zeta.
  repeat match goal with
         | |- context [if ?c then Packet.close_reasons.HostBlocked else _] =>
             destruct c; [by right|]
         end.
  by left.
Qed.

Lemma verdict_after_gates sh opts m ty h p l :
  Filter.is_stream_allowed sh opts None ty h p l = 0 →
  Filter.is_stream_allowed sh opts (Some m) ty h p l
  = if negb (Options.stream_limit_total opts =? -1)
       && (Z.of_nat (size m) >=? Options.stream_limit_total opts)
    then Packet.close_reasons.ConnThrottled
    else if negb (Options.stream_limit_per_host opts =? -1)
            && (Filter.streams_per_host sh m h >=? Options.stream_limit_per_host opts)
    then Packet.close_reasons.ConnThrottled
    else 0.
Proof.
  unfold Filter.is_stream_allowed. cbv zeta. intros Hpass.
  repeat match type of Hpass with
         | context [if ?c then Packet.close_reasons.HostBlocked else _] =>
             destruct c; [discriminate Hpass|]
         end.
  done.
Qed.

Lemma is_ip_blocked_invalid opts ip :
  ipaddr_isValid ip = false → Filter.is_ip_blocked opts ip = false.
Proof. intros Hv. unfold Filter.is_ip_blocked. by rewrite Hv. Qed.

End Verdicts.
End VerdictFacts.

(** X12. The verdicts of [is_stream_allowed].  Without a connection the
    verdict is 0 or [HostBlocked].  With a connection, a destination the
    gates refuse is refused with [HostBlocked] whatever the table holds;
    a destination the gates let through gets 0 or [ConnThrottled], and
    [ConnThrottled] exactly when one of the two quotas is set (not -1) and
    at most the number of streams in the table, or of streams in the table
    to that host. *)
Theorem verdict_values `{Platform} {Stream : Type} (sh : Stream → string)
    (opts : Options.t) (m : gmap Z Stream) (ty : Z) (h : string) (p : Z)
    (l : Result string) :
  let gates := Filter.is_stream_allowed sh opts None ty h p l in
  let verdict := Filter.is_stream_allowed sh opts (Some m) ty h p l in
  (gates = 0 ∨ gates = Packet.close_reasons.HostBlocked)
  ∧ (gates ≠ 0 → verdict = Packet.close_reasons.HostBlocked)
  ∧ (gates = 0 →
     (verdict = 0 ∨ verdict = Packet.close_reasons.ConnThrottled)
     ∧ (verdict = Packet.close_reasons.ConnThrottled
        ↔ Settings.quota_met opts (Z.of_nat (size m))
            (Filter.streams_per_host sh m h))).
Proof.
  intros gates verdict. subst gates verdict.
  split; [apply VerdictFacts.gates_values|].
  split; [apply FilterFacts.gate_refuses|].
  intros Hpass. rewrite (VerdictFacts.verdict_after_gates sh opts m) by done.
  unfold Settings.quota_met, Packet.close_reasons.ConnThrottled.
  rewrite !Z.geb_leb.
  destruct (Z.eqb_spec (Options.stream_limit_total opts) (-1));
    destruct (Z.leb_spec (Options.stream_limit_total opts) (Z.of_nat (size m)));
    destruct (Z.eqb_spec (Options.stream_limit_per_host opts) (-1));
    destruct (Z.leb_spec (Options.stream_limit_per_host opts)
                (Filter.streams_per_host sh m h));
    cbn [negb andb];
    (split; [by auto|]);
    (split; [intros Hv; first [discriminate Hv | lia]
            |intros Hq; first [reflexivity | lia]]).
Qed.

Lemma verdict_values_witness :
  let opts := Shape.with_limits Options.options (-1) 1 in
  let m : gmap Z nat := {[ 1 := 0%nat ]} in
  let sh := λ _ : nat, "example.com"%string in
  let gates :=
    @Filter.is_stream_allowed example_platform nat sh opts None 1 "example.com" 80
      (Ok "93.184.216.34"%string) in
  let verdict :=
    @Filter.is_stream_allowed example_platform nat sh opts (Some m) 1 "example.com"
      80 (Ok "93.184.216.34"%string) in
  gates = 0
  ∧ Settings.quota_met opts (Z.of_nat (size m))
      (Filter.streams_per_host sh m "example.com")
  ∧ verdict = Packet.close_reasons.ConnThrottled.
Proof.
  intros opts m sh gates verdict.
  destruct (@verdict_values example_platform nat sh opts m 1 "example.com" 80
              (Ok "93.184.216.34"%string)) as (_ & _ & Hpass).
  assert (Hg : gates = 0) by reflexivity.
  assert (Hq : Settings.quota_met opts (Z.of_nat (size m))
                 (Filter.streams_per_host sh m "example.com")).
  { right. split; [cbn; lia|]. vm_compute. discriminate. }
  destruct (Hpass Hg) as [_ Hiff].
  split; [exact Hg|]. split; [exact Hq|]. exact (proj2 Hiff Hq).
Defined.

(** X13. A whitelist replaces the blacklist of the same kind.  When
    [hostname_whitelist] is set, the verdict does not depend on
    [hostname_blacklist], and a hostname that no entry of the whitelist
    matches is refused with [HostBlocked]; an empty whitelist refuses every
    destination.  The same holds of [port_whitelist] and [port_blacklist]. *)
Theorem whitelist_replaces_blacklist `{Platform} {Stream : Type}
    (sh : Stream → string) (o : Options.t) (c : option (gmap Z Stream))
    (ty : Z) (h : string) (p : Z) (l : Result string)
    (hosts : list RegExp) (b b' : option (list RegExp))
    (ports : list port_entry) (q q' : option (list port_entry)) :
  Filter.is_stream_allowed sh (Settings.with_hostname_lists o (Some hosts) b)
    c ty h p l
  = Filter.is_stream_allowed sh (Settings.with_hostname_lists o (Some hosts) b')
      c ty h p l
  ∧ (existsb (λ entry, entry h) hosts = false →
     Filter.is_stream_allowed sh (Settings.with_hostname_lists o (Some hosts) b)
       c ty h p l
     = Packet.close_reasons.HostBlocked)
  ∧ Filter.is_stream_allowed sh (Settings.with_port_lists o (Some ports) q)
      c ty h p l
    = Filter.is_stream_allowed sh (Settings.with_port_lists o (Some ports) q')
        c ty h p l
  ∧ (existsb (λ entry, Filter.check_port_range entry p) ports = false →
     Filter.is_stream_allowed sh (Settings.with_port_lists o (Some ports) q)
       c ty h p l
     = Packet.close_reasons.HostBlocked).
Proof.
  split; [reflexivity|]. split; [|split; [reflexivity|]].
  - intros Hno. unfold Filter.is_stream_allowed. unfold RegExp in *.
    cbn [Settings.with_hostname_lists Options.hostname_whitelist
         Options.allow_tcp_streams Options.allow_udp_streams].
    rewrite VerdictFacts.check_whitelist_existsb, Hno. cbn [negb].
    by repeat match goal with
              | |- context [if ?c then Packet.close_reasons.HostBlocked else _] =>
                  destruct c; [done|]
              end.
  - intros Hno. unfold Filter.is_stream_allowed.
    cbn [Settings.with_port_lists Options.port_whitelist
         Options.hostname_whitelist Options.hostname_blacklist
         Options.allow_tcp_streams Options.allow_udp_streams].
    rewrite VerdictFacts.check_whitelist_existsb, Hno. cbn [negb].
    by repeat match goal with
              | |- context [if ?c then Packet.close_reasons.HostBlocked else _] =>
                  destruct c; [done|]
              end.
Qed.

Lemma whitelist_replaces_blacklist_witness :
  let opts := Settings.with_hostname_lists Options.options (Some []) None in
  existsb (λ entry : RegExp, entry "example.com"%string) [] = false
  ∧ @Filter.is_stream_allowed example_platform nat (λ _, ""%string) opts None 1
      "example.com" 80 (Ok "93.184.216.34"%string)
    = Packet.close_reasons.HostBlocked.
Proof.
  intros opts.
  destruct (@whitelist_replaces_blacklist example_platform nat (λ _, ""%string)
              Options.options None 1 "example.com" 80
              (Ok "93.184.216.34"%string) [] None None [] None None)
    as (_ & Hhost & _).
  split; [reflexivity|]. exact (Hhost eq_refl).
Defined.

(** The helpers of the policy.  [check_blacklist] tells whether some
    entry passes the test and [check_whitelist] whether none does, so that
    on the same entries and test each is the negation of the other;
    a port entry [[lo, hi]] matches the ports from [lo] to [hi], both
    included, and none when [lo] is above [hi]; a single port matches
    itself only. *)
Theorem list_checks {T : Type} (entries : list T) (test : T → bool)
    (lo hi n port : Z) :
  Filter.check_blacklist entries test = existsb test entries
  ∧ Filter.check_whitelist entries test = negb (Filter.check_blacklist entries test)
  ∧ (Filter.check_port_range (PortRange lo hi) port = true ↔ lo ≤ port ≤ hi)
  ∧ (Filter.check_port_range (Port n) port = true ↔ n = port).
Proof.
  split; [apply VerdictFacts.check_blacklist_existsb|].
  split.
  { by rewrite VerdictFacts.check_whitelist_existsb,
               VerdictFacts.check_blacklist_existsb. }
  split.
  - cbn [Filter.check_port_range]. rewrite andb_true_iff, Z.geb_leb, !Z.leb_le. lia.
  - cbn [Filter.check_port_range]. apply Z.eqb_eq.
Qed.

(** X14. A failed DNS lookup does not refuse a stream.  The verdict for a
    lookup that threw is the verdict for a lookup that returned an address,
    unless the hostname is not an address literal and that address is in a
    blocked range, in which case the address is refused with [HostBlocked];
    when the lookup throws, the range check runs on the hostname itself,
    which is no address. *)
Theorem failed_lookup_is_not_refused `{Platform} {Stream : Type}
    (sh : Stream → string) (opts : Options.t) (c : option (gmap Z Stream))
    (ty : Z) (h : string) (p : Z) (a : string) (e : exn) :
  Filter.is_stream_allowed sh opts c ty h p (Ok a)
  = Filter.is_stream_allowed sh opts c ty h p (Throw e)
  ∨ (Filter.is_stream_allowed sh opts c ty h p (Ok a)
     = Packet.close_reasons.HostBlocked
     ∧ ipaddr_isValid h = false
     ∧ Filter.is_ip_blocked opts a = true).
Proof.
  unfold Filter.is_stream_allowed. cbv zeta.
  destruct (negb (Options.allow_tcp_streams opts) && _); [by left|].
  destruct (negb (Options.allow_udp_streams opts) && _); [by left|].
  destruct (match Options.hostname_whitelist opts with
            | Some _ => _ | None => _ end); [by left|].
  destruct (match Options.port_whitelist opts with
            | Some _ => _ | None => _ end); [by left|].
  destruct (ipaddr_isValid h) eqn:Hd; [by left|]. cbn [andb].
  rewrite (VerdictFacts.is_ip_blocked_invalid opts h Hd).
  destruct (Filter.is_ip_blocked opts a); [by right|by left].
Qed.

(** ** src/server/server/connection.ts: closing streams *)

Module TeardownFacts.
Import Connection Shape Teardown.

Lemma closed_closed_version this : closed (closed_version this) = true.
Proof. unfold closed_version. by destruct (closed this) eqn:E. Qed.

Lemma closed_version_idemp this :
  closed_version (closed_version this) = closed_version this.
Proof.
  unfold closed_version at 1. by rewrite closed_closed_version.
Qed.

Lemma closed_version_closed this : closed this = true → closed_version this = this.
Proof. intros Hc. unfold closed_version. by rewrite Hc. Qed.

Lemma lookup_close_object objs r r' :
  close_object objs r !! r'
  = if decide (r = r') then closed_version <$> objs !! r' else objs !! r'.
Proof.
  unfold close_object. destruct (decide (r = r')) as [<-|Hne].
  - destruct (objs !! r) as [this|] eqn:Hr; [|by rewrite Hr].
    rewrite list_lookup_insert_eq; [done|]. by apply lookup_lt_Some in Hr.
  - destruct (objs !! r) as [this|]; [|done].
    by rewrite list_lookup_insert_ne.
Qed.

Lemma lookup_close_object_cases objs r r' :
  close_object objs r !! r' = objs !! r'
  ∨ close_object objs r !! r' = closed_version <$> objs !! r'.
Proof. rewrite lookup_close_object. destruct (decide (r = r')); auto. Qed.

Section Teardown.
Context `{Platform}.

Lemma new_close_packet sid reason :
  Packet.new_WispPacket (Packet.class_type Packet.CloseClass) sid
    (Some (Packet.Close {| Packet.reason := reason |})) None
  = Ok {| Packet.type := 4; Packet.stream_id := sid;
          Packet.payload_bytes := Some [to_u8 reason];
          Packet.payload := Some (Packet.Close {| Packet.reason := reason |}) |}.
Proof. reflexivity. Qed.

(** [ws.send] changes nothing but what was sent. *)
Lemma ws_send_effect packet conn :
  let conn' := (ws_send packet conn).2 in
  objects conn' = objects conn ∧ streams conn' = streams conn
  ∧ ws conn' = ws conn ∧ log conn' = log conn ∧ tasks conn' = tasks conn.
Proof.
  unfold ws_send. cbv [mbind M_bind get lift modify].
  by destruct (DataChannel.send (ws conn) packet).
Qed.

(** [ServerStream.close], whatever the state of the carrier. *)
Lemma ServerStream_close_effect conn r reason :
  let conn' := (ServerStream_close r reason conn).2 in
  objects conn' = close_object (objects conn) r
  ∧ streams conn' = streams conn ∧ ws conn' = ws conn
  ∧ log conn' = log conn ∧ tasks conn' = tasks conn.
Proof.
  unfold ServerStream_close, close_object. cbv [mbind M_bind get].
  destruct (objects conn !! r) as [this|] eqn:Hr; [|done].
  unfold closed_version. destruct (closed this) eqn:Hc.
  { cbn. by rewrite list_insert_id. }
  cbv [set_object modify]. destruct reason as [reason|]; [|done].
  cbv [lift]. rewrite new_close_packet.
  match goal with
  | |- context [ws_send ?p ?c] =>
      destruct (ws_send_effect p c) as (Ho & Hs & Hw & Hl & Ht)
  end.
  cbv zeta in Ho, Hs, Hw, Hl, Ht. by rewrite Ho, Hs, Hw, Hl, Ht.
Qed.

(** A second [close()] on a stream object does nothing. *)
Lemma ServerStream_close_again conn r reason reason' :
  ServerStream_close r reason' (ServerStream_close r reason conn).2
  = (Ok tt, (ServerStream_close r reason conn).2).
Proof.
  destruct (ServerStream_close_effect conn r reason) as (Ho & _).
  cbv zeta in Ho.
  set (conn1 := (ServerStream_close r reason conn).2) in *.
  unfold ServerStream_close at 1. cbv [mbind M_bind get].
  rewrite Ho, lookup_close_object.
  destruct (decide (r = r)) as [_|]; [|done].
  destruct (objects conn !! r) as [this|]; [|done].
  cbn [fmap option_fmap option_map]. by rewrite closed_closed_version.
Qed.

(** [close_stream] without reason, as [cleanup] calls it. *)
Lemma close_stream_None conn k quiet :
  close_stream k None quiet conn
  = (Ok tt,
     match streams conn !! k with
     | Some r =>
         with_streams (with_objects conn (close_object (objects conn) r))
           (delete k (streams conn))
     | None => conn
     end).
Proof.
  unfold close_stream. cbv [mbind M_bind get].
  destruct (streams conn !! k) as [r|] eqn:Hk; [|done].
  cbn [truthy andb]. cbv [skip mret M_ret ServerStream_close mbind M_bind get].
  unfold close_object, closed_version.
  destruct (objects conn !! r) as [this|] eqn:Hr.
  - destruct (closed this); cbv [set_object modify]; [|done].
    rewrite list_insert_id by done. by destruct conn.
  - cbv [modify]. by destruct conn.
Qed.

Lemma close_all_cons k ks conn :
  close_all (k :: ks) conn = close_all ks (close_stream k None false conn).2.
Proof.
  change (close_all (k :: ks)) with (close_stream k None false;; close_all ks).
  cbv [mbind M_bind]. by rewrite close_stream_None.
Qed.

Lemma objects_close_stream_None conn k quiet r :
  let conn1 := (close_stream k None quiet conn).2 in
  (objects conn1 !! r = objects conn !! r
   ∨ objects conn1 !! r = closed_version <$> objects conn !! r)
  ∧ (streams conn !! k = Some r →
     objects conn1 !! r = closed_version <$> objects conn !! r)
  ∧ (streams conn !! k ≠ Some r → objects conn1 !! r = objects conn !! r)
  ∧ streams conn1 = delete k (streams conn).
Proof.
  rewrite close_stream_None. cbn [snd].
  destruct (streams conn !! k) as [r'|] eqn:Hk.
  - cbn [objects streams with_streams with_objects].
    rewrite lookup_close_object. destruct (decide (r' = r)) as [->|Hne].
    + split; [by right|]. split; [done|]. split; [congruence|done].
    + split; [by left|]. split; [congruence|]. done.
  - split; [by left|]. split; [done|]. split; [done|]. by rewrite delete_id.
Qed.

(** The loop of [cleanup]: a stream object is closed or left as it is. *)
Lemma objects_close_all_cases ks : ∀ conn r,
  objects (close_all ks conn).2 !! r = objects conn !! r
  ∨ objects (close_all ks conn).2 !! r = closed_version <$> objects conn !! r.
Proof.
  induction ks as [|k ks IH]; intros conn r; [by left|].
  rewrite close_all_cons.
  destruct (objects_close_stream_None conn k false r) as (Hstep & _).
  cbv zeta in Hstep.
  destruct (IH (close_stream k None false conn).2 r) as [-> | ->];
    destruct Hstep as [-> | ->]; auto.
  right. rewrite <- option_fmap_compose.
  apply option_fmap_ext. intros this. apply closed_version_idemp.
Qed.

(** It closes the objects the table refers to. *)
Lemma objects_close_all_referred ks : ∀ conn r,
  referred (streams conn) ks r →
  objects (close_all ks conn).2 !! r = closed_version <$> objects conn !! r.
Proof.
  induction ks as [|k ks IH]; intros conn r (k0 & Hin & Hk0).
  { by apply elem_of_nil in Hin. }
  rewrite close_all_cons.
  destruct (objects_close_stream_None conn k false r) as (Hstep & Hhit & _ & Hs).
  cbv zeta in Hstep, Hhit, Hs.
  set (conn1 := (close_stream k None false conn).2) in *.
  assert (Hidem : closed_version <$> (closed_version <$> objects conn !! r)
                  = closed_version <$> objects conn !! r).
  { rewrite <- option_fmap_compose.
    apply option_fmap_ext. intros this. apply closed_version_idemp. }
  destruct (decide (k0 = k)) as [->|Hne].
  - destruct (objects_close_all_cases ks conn1 r) as [-> | ->];
      rewrite (Hhit Hk0); [done|exact Hidem].
  - apply elem_of_cons in Hin as [?|Hin]; [done|].
    rewrite (IH conn1 r).
    + destruct Hstep as [-> | ->]; [done|exact Hidem].
    + exists k0. split; [done|]. rewrite Hs. by rewrite lookup_delete_ne.
Qed.

(** It leaves alone the objects the table does not refer to. *)
Lemma objects_close_all_other ks : ∀ conn r,
  (∀ k, k ∈ ks → streams conn !! k ≠ Some r) →
  objects (close_all ks conn).2 !! r = objects conn !! r.
Proof.
  induction ks as [|k ks IH]; intros conn r Hno; [done|].
  rewrite close_all_cons.
  destruct (objects_close_stream_None conn k false r) as (_ & _ & Hmiss & Hs).
  cbv zeta in Hmiss, Hs.
  rewrite IH.
  - apply Hmiss, Hno. by left.
  - intros k' Hin. rewrite Hs. intros Hk'.
    apply lookup_delete_Some in Hk' as [Hne Hk'].
    apply (Hno k'); [by right|done].
Qed.

(** [cleanup] changes the stream objects as its loop does. *)
Lemma objects_cleanup conn :
  objects (cleanup conn).2
  = objects (close_all (map_to_list (streams conn)).*1 conn).2.
Proof.
  unfold cleanup. cbv [mbind M_bind get].
  destruct (HandshakeFacts.close_all_spec (map_to_list (streams conn)).*1 conn)
    as (c1 & Hc & _).
  by rewrite Hc.
Qed.

(** [close_stream] in terms of [ServerStream.close]: the id leaves the
    table when the close returns, and stays when it throws. *)
Lemma close_stream_eq conn sid reason quiet :
  close_stream sid reason quiet conn
  = match streams conn !! sid with
    | None => (Ok tt, conn)
    | Some r =>
        let conn0 :=
          if truthy reason && negb quiet
          then with_log conn (log conn ++ [(logging.info, "closing stream"%string)])
          else conn in
        match ServerStream_close r reason conn0 with
        | (Ok _, conn1) => (Ok tt, with_streams conn1 (delete sid (streams conn1)))
        | (Throw e, conn1) => (Throw e, conn1)
        end
    end.
Proof.
  unfold close_stream. cbv [mbind M_bind get].
  destruct (streams conn !! sid) as [r|]; [|done].
  destruct (truthy reason && negb quiet);
    cbv [logging_at modify skip mret M_ret];
    by destruct (ServerStream_close r reason _) as [[[]|e] conn1].
Qed.

(** [ServerStream.close] throws only for a stream object that was open. *)
Lemma ServerStream_close_throws conn r reason e conn1 :
  ServerStream_close r reason conn = (Throw e, conn1) →
  ∃ this, objects conn !! r = Some this ∧ closed this = false.
Proof.
  unfold ServerStream_close. cbv [mbind M_bind get].
  destruct (objects conn !! r) as [this|]; [|done].
  destruct (closed this) eqn:Hc; [done|]. intros _. by exists this.
Qed.

End Teardown.
End TeardownFacts.

(** X15. Closing twice.  A second [ServerStream.close] on a stream object,
    with any reason, does nothing and sends nothing, whatever the first
    did and whatever the state of the carrier: a CLOSE packet is sent at
    most once for a stream object.  A second [close_stream] for a stream id
    does nothing when the first returned; when the first threw (the CLOSE
    packet could not be sent), the id was left in the table, bound to the
    stream object now closed. *)
Theorem closing_twice `{Platform} (conn : Connection.ServerConnection)
    (r : nat) (sid : Z) (reason reason' : option Z) (quiet quiet' : bool) :
  let conn1 := (Connection.ServerStream_close r reason conn).2 in
  let conn2 := (Connection.close_stream sid reason quiet conn).2 in
  Connection.ServerStream_close r reason' conn1 = (Ok tt, conn1)
  ∧ ((Connection.close_stream sid reason quiet conn).1 = Ok tt →
     Connection.close_stream sid reason' quiet' conn2 = (Ok tt, conn2))
  ∧ (∀ e, (Connection.close_stream sid reason quiet conn).1 = Throw e →
       Connection.streams conn2 = Connection.streams conn
       ∧ ∃ r0 this, Connection.streams conn !! sid = Some r0
                    ∧ Connection.objects conn2 !! r0 = Some this
                    ∧ Connection.closed this = true).
Proof.
  intros conn1 conn2. subst conn1 conn2.
  split; [apply TeardownFacts.ServerStream_close_again|].
  rewrite (TeardownFacts.close_stream_eq conn sid reason quiet).
  destruct (Connection.streams conn !! sid) as [r0|] eqn:Hsid.
  2: { cbn [fst snd]. split; [|by intros e [=]].
       intros _. by apply CloseFacts.close_stream_absent. }
  cbv zeta.
  set (conn0 := if Connection.truthy reason && negb quiet
                then Connection.with_log conn _ else conn).
  assert (Hconn0 : Connection.objects conn0 = Connection.objects conn
                   ∧ Connection.streams conn0 = Connection.streams conn).
  { unfold conn0. by destruct (Connection.truthy reason && negb quiet). }
  destruct Hconn0 as [Ho0 Hs0].
  destruct (TeardownFacts.ServerStream_close_effect conn0 r0 reason)
    as (Ho & Hs & _).
  cbv zeta in Ho, Hs.
  destruct (Connection.ServerStream_close r0 reason conn0) as [[[]|e] c1] eqn:Hclose;
    cbn [fst snd] in *.
  - split; [|by intros e [=]]. intros _.
    apply CloseFacts.close_stream_absent.
    cbn [Connection.streams Connection.with_streams]. apply lookup_delete_eq.
  - split; [by intros [=]|]. intros e' _. split; [congruence|].
    apply TeardownFacts.ServerStream_close_throws in Hclose as (this & Hr0 & _).
    exists r0, (Teardown.closed_version this). split; [done|].
    rewrite Ho, TeardownFacts.lookup_close_object.
    destruct (decide (r0 = r0)) as [_|]; [|done].
    rewrite Hr0. split; [done|]. apply TeardownFacts.closed_closed_version.
Qed.

Lemma closing_twice_witness :
  let conn0 :=
    (@Connection.create_stream example_platform 1 1 "example.com" 80 example_conn).2 in
  let conn :=
    Connection.with_ws conn0
      {| DataChannel.readyState := DataChannel.rs_closed;
         DataChannel.connected := false |} in
  let conn2 :=
    (@Connection.close_stream example_platform 1 (Some 2) false conn).2 in
  (@Connection.close_stream example_platform 1 (Some 2) false conn).1
  = Throw (Error "RTCDataChannel is not open")
  ∧ Connection.trace conn2 = []
  ∧ Connection.streams conn2 = Connection.streams conn
  ∧ ∃ r0 this, Connection.streams conn !! 1 = Some r0
               ∧ Connection.objects conn2 !! r0 = Some this
               ∧ Connection.closed this = true.
Proof.
  intros conn0 conn conn2.
  assert (Hthrow : (@Connection.close_stream example_platform 1 (Some 2) false conn).1
                   = Throw (Error "RTCDataChannel is not open")) by reflexivity.
  destruct (@closing_twice example_platform conn 0 1 (Some 2) None false false)
    as (_ & _ & Hleft).
  destruct (Hleft _ Hthrow) as [Hs Hobj].
  split; [exact Hthrow|]. split; [reflexivity|]. split; [exact Hs|exact Hobj].
Defined.

(** X16. A CONNECT for a stream id that is in the table supersedes the
    stream without closing it.  [create_stream] binds the id to the new
    stream object and sends nothing; the object the id was bound to is
    left as it was, and when no other id was bound to it, the table does
    not refer to it any more, so that [cleanup] at the end of the
    connection leaves it as it was too: it is not closed by the
    connection. *)
Theorem connect_supersedes_without_closing `{Platform}
    (conn : Connection.ServerConnection) (sid ty : Z) (hostname : string)
    (port : Z) (r0 : nat) (old : Connection.ServerStream) :
  is_node = true →
  Connection.streams conn !! sid = Some r0 →
  Connection.objects conn !! r0 = Some old →
  (∀ k, Connection.streams conn !! k = Some r0 → k = sid) →
  let conn1 := (Connection.create_stream sid ty hostname port conn).2 in
  let conn2 := (Connection.cleanup conn1).2 in
  Connection.streams conn1 !! sid = Some (length (Connection.objects conn))
  ∧ Connection.objects conn1 !! r0 = Some old
  ∧ Connection.trace conn1 = Connection.trace conn
  ∧ (∀ k, Connection.streams conn1 !! k ≠ Some r0)
  ∧ Connection.streams conn2 = ∅
  ∧ Connection.objects conn2 !! r0 = Some old.
Proof.
  intros Hnode Hsid Hold Honly conn1 conn2. subst conn1 conn2.
  rewrite ConnectionFacts.create_stream_spec by done. cbn [snd].
  set (conn1 := Shape.entered conn sid ty hostname port).
  pose proof (lookup_lt_Some _ _ _ Hold) as Hlt.
  assert (Hs1 : Connection.streams conn1
                = <[sid := length (Connection.objects conn)]> (Connection.streams conn))
    by done.
  assert (Ho1 : Connection.objects conn1 !! r0 = Some old).
  { unfold conn1, Shape.entered.
    cbn [Connection.objects Connection.with_tasks Connection.with_streams
         Connection.with_objects].
    by rewrite lookup_app_l. }
  assert (Hno : ∀ k, Connection.streams conn1 !! k ≠ Some r0).
  { intros k. rewrite Hs1. destruct (decide (k = sid)) as [->|Hne].
    - rewrite lookup_insert_eq. intros [= Heq]. lia.
    - rewrite lookup_insert_ne by done. intros Hk. by apply Hne, Honly. }
  split; [by rewrite Hs1, lookup_insert_eq|].
  split; [done|]. split; [done|]. split; [done|].
  destruct (HandshakeFacts.cleanup_spec conn1) as (c2 & Hc & Hs2 & _).
  rewrite Hc in *. cbn [snd]. split; [done|].
  pose proof (TeardownFacts.objects_cleanup conn1) as Hobj.
  rewrite Hc in Hobj. cbn [snd] in Hobj. rewrite Hobj.
  rewrite TeardownFacts.objects_close_all_other; [done|].
  intros k _. apply Hno.
Qed.

Lemma connect_supersedes_without_closing_witness :
  let conn :=
    (@Connection.create_stream example_platform 1 1 "example.com" 80 example_conn).2 in
  let old := Shape.created_stream 1 1 "example.com" 80 in
  let conn1 :=
    (@Connection.create_stream example_platform 1 1 "example.org" 443 conn).2 in
  let conn2 := (@Connection.cleanup example_platform conn1).2 in
  @is_node example_platform = true
  ∧ Connection.streams conn !! 1 = Some 0%nat
  ∧ Connection.objects conn !! 0%nat = Some old
  ∧ (∀ k, Connection.streams conn !! k = Some 0%nat → k = 1)
  ∧ Connection.streams conn1 !! 1 = Some 1%nat
  ∧ Connection.closed old = false
  ∧ Connection.objects conn2 !! 0%nat = Some old.
Proof.
  intros conn old conn1 conn2.
  assert (Hnode : @is_node example_platform = true) by reflexivity.
  assert (Hsid : Connection.streams conn !! 1 = Some 0%nat) by reflexivity.
  assert (Hold : Connection.objects conn !! 0%nat = Some old) by reflexivity.
  assert (Honly : ∀ k, Connection.streams conn !! k = Some 0%nat → k = 1).
  { intros k Hk. destruct (decide (k = 1)) as [->|Hne]; [done|].
    change (Connection.streams conn) with (<[1 := 0%nat]> (∅ : gmap Z nat)) in Hk.
    rewrite lookup_insert_ne in Hk by done.
    by rewrite lookup_empty in Hk. }
  destruct (@connect_supersedes_without_closing example_platform conn 1 1
              "example.org" 443 0%nat old Hnode Hsid Hold Honly)
    as (Hnew & _ & _ & _ & _ & Hleft).
  do 4 (split; [assumption|]). split; [exact Hnew|]. split; [reflexivity|].
  exact Hleft.
Defined.

(** X17. [cleanup] closes every stream the table refers to, and only those.
    It returns, sends nothing and leaves the table empty; a stream object
    bound to some id of the table is closed afterwards (its buffer ended
    and its socket closed, when it was not closed before), and a stream
    object that no id is bound to is left as it was. *)
Theorem cleanup_closes_the_table `{Platform} (conn : Connection.ServerConnection)
    (r : nat) :
  let conn' := (Connection.cleanup conn).2 in
  (Connection.cleanup conn).1 = Ok tt
  ∧ Connection.streams conn' = ∅
  ∧ Connection.trace conn' = Connection.trace conn
  ∧ ((∃ k, Connection.streams conn !! k = Some r) →
     Connection.objects conn' !! r
     = Teardown.closed_version <$> Connection.objects conn !! r)
  ∧ ((∀ k, Connection.streams conn !! k ≠ Some r) →
     Connection.objects conn' !! r = Connection.objects conn !! r)
  ∧ ∀ this, Connection.closed (Teardown.closed_version this) = true
            ∧ (Connection.closed this = false →
               Teardown.closed_version this = Connection.shut this).
Proof.
  intros conn'. subst conn'.
  destruct (HandshakeFacts.cleanup_spec conn) as (c2 & Hc & Hs2 & Ht2 & _).
  pose proof (TeardownFacts.objects_cleanup conn) as Hobj.
  rewrite Hc in *. cbn [fst snd] in *.
  split; [done|]. split; [done|]. split; [done|]. rewrite Hobj.
  split; [|split].
  - intros [k Hk]. apply TeardownFacts.objects_close_all_referred.
    exists k. split; [|done].
    apply list_elem_of_fmap. exists (k, r). split; [done|].
    by apply elem_of_map_to_list.
  - intros Hno. apply TeardownFacts.objects_close_all_other.
    intros k _. apply Hno.
  - intros this. split; [apply TeardownFacts.closed_closed_version|].
    intros Hopen. unfold Teardown.closed_version. by rewrite Hopen.
Qed.

Lemma cleanup_closes_the_table_witness :
  let conn :=
    (@Connection.create_stream example_platform 1 1 "example.com" 80 example_conn).2 in
  (∃ k, Connection.streams conn !! k = Some 0%nat)
  ∧ Connection.objects (@Connection.cleanup example_platform conn).2 !! 0%nat
    = Some (Connection.shut (Shape.created_stream 1 1 "example.com" 80)).
Proof.
  intros conn.
  destruct (@cleanup_closes_the_table example_platform conn 0)
    as (_ & _ & _ & Hin & _).
  assert (Hex : ∃ k, Connection.streams conn !! k = Some 0%nat).
  { exists 1. reflexivity. }
  split; [exact Hex|]. exact (eq_trans (Hin Hex) eq_refl).
Defined.

(** ** src/server/server/connection.ts: routing *)

Module RoutingFacts.
Import Connection.

Section Routing.
Context `{Platform}.

(** The payload of a parsed packet, from its type. *)
Lemma payload_of_type b p :
  Packet.parse_all b = Ok p →
  match Packet.payload p with
  | Some (Packet.Connect _) => Packet.type p = 1
  | Some (Packet.Data _) => Packet.type p = 2
  | Some (Packet.Continue _) => Packet.type p = 3
  | Some (Packet.Close _) => Packet.type p = 4
  | Some (Packet.Info _) => Packet.type p = 5
  | None => False
  end.
Proof.
  intros Hp. destruct (PacketFacts.parse_all_payload b p Hp) as (c & pl & _ & Hpl & _).
  rewrite Hpl. pose proof (PacketFacts.parse_all_type b p pl Hp Hpl) as Hty.
  by destruct pl.
Qed.

Lemma route_packet_eq b p conn :
  Packet.parse_all b = Ok p →
  route_packet b conn
  = (if bool_decide (streams conn !! Packet.stream_id p = None)
        && (Packet.type p =? Packet.class_type Packet.DataClass)
     then logging_at logging.warn
            "received a DATA packet for a stream which doesn't exist"
     else
       match Packet.payload p with
       | Some (Packet.Connect payload) =>
           logging_at logging.info "opening new stream";;
           create_stream (Packet.stream_id p) (Packet.stream_type payload)
             (trim (Packet.hostname payload)) (Packet.port payload)
       | Some (Packet.Data payload) =>
           match streams conn !! Packet.stream_id p with
           | Some r =>
               conn ← get;
               match objects conn !! r with
               | Some this => set_object r (put_data this (Packet.data payload))
               | None => skip
               end
           | None => throw (TypeError "stream is undefined")
           end
       | Some (Packet.Continue _) =>
           logging_at logging.warn
             "client sent a CONTINUE packet, this should never be possible"
       | Some (Packet.Close payload) =>
           detached (close_stream (Packet.stream_id p)
                       (Some (Packet.reason payload)) false)
       | Some (Packet.Info _) => skip
       | None => skip
       end) conn.
Proof.
  intros Hp. unfold route_packet. cbv [mbind M_bind lift get]. by rewrite Hp.
Qed.

End Routing.
End RoutingFacts.

(** X18. One turn of the loop of [run] never throws: whatever the message
    and the state, the [catch] around [route_packet] leaves the loop
    running.  A message that [parse_all] refuses changes nothing but the
    log, which gains the warning of the [catch]. *)
Theorem run_message_contains_errors `{Platform}
    (conn : Connection.ServerConnection) (data : list byte) :
  (Connection.run_message data conn).1 = Ok tt
  ∧ ∀ e, Packet.parse_all data = Throw e →
      (Connection.run_message data conn).2
      = Connection.with_log conn
          (Connection.log conn
           ++ [(logging.warn, "routing a packet failed"%string)]).
Proof.
  unfold Connection.run_message, Connection.try_catch. split.
  - by destruct (Connection.route_packet data conn) as [[[]|e] conn'].
  - intros e He. unfold Connection.route_packet.
    cbv [mbind Connection.M_bind Connection.lift]. by rewrite He.
Qed.

Lemma run_message_contains_errors_witness :
  @Packet.parse_all example_platform [x09] = Throw (TypeError "packet too small")
  ∧ (@Connection.run_message example_platform [x09] example_conn).1 = Ok tt
  ∧ (@Connection.run_message example_platform [x09] example_conn).2
    = Connection.with_log example_conn
        [(logging.warn, "routing a packet failed"%string)].
Proof.
  destruct (@run_message_contains_errors example_platform example_conn [x09])
    as [Hok Hlog].
  assert (Hp : @Packet.parse_all example_platform [x09]
               = Throw (TypeError "packet too small")) by reflexivity.
  split; [exact Hp|]. split; [exact Hok|]. exact (Hlog _ Hp).
Defined.

(** X19. Packets that [route_packet] lets pass.  An INFO packet received
    after the handshake changes nothing, and neither does a CLOSE packet
    for a stream id that is not in the table: nothing is logged and
    nothing is sent.  A CONTINUE packet from the client adds a warning to
    the log and changes nothing else, whatever stream it names. *)
Theorem packets_without_effect `{Platform} (conn : Connection.ServerConnection)
    (b : list byte) (p : Packet.WispPacket) :
  Packet.parse_all b = Ok p →
  (Packet.type p = 5 → Connection.route_packet b conn = (Ok tt, conn))
  ∧ (Packet.type p = 4 →
     Connection.streams conn !! Packet.stream_id p = None →
     Connection.route_packet b conn = (Ok tt, conn))
  ∧ (Packet.type p = 3 →
     Connection.route_packet b conn
     = (Ok tt,
        Connection.with_log conn
          (Connection.log conn
           ++ [(logging.warn,
                "client sent a CONTINUE packet, this should never be possible"%string)]))).
Proof.
  intros Hp. rewrite (RoutingFacts.route_packet_eq b p conn Hp).
  pose proof (RoutingFacts.payload_of_type b p Hp) as Hpl.
  split; [|split].
  - intros Hty. rewrite Hty in *. cbn [Z.eqb Pos.eqb Packet.class_type].
    rewrite andb_false_r.
    destruct (Packet.payload p) as [[| | | |]|]; try done; lia.
  - intros Hty Hsid. rewrite Hty in *. cbn [Z.eqb Pos.eqb Packet.class_type].
    rewrite andb_false_r.
    destruct (Packet.payload p) as [[| | |c|]|]; try done; try lia.
    unfold Connection.detached. by rewrite CloseFacts.close_stream_absent.
  - intros Hty. rewrite Hty in *. cbn [Z.eqb Pos.eqb Packet.class_type].
    rewrite andb_false_r.
    destruct (Packet.payload p) as [[| | | |]|]; try done; lia.
Qed.

Lemma packets_without_effect_witness :
  let b := [x05; x00; x00; x00; x00; x02; x00] in
  let p := {| Packet.type := 5; Packet.stream_id := 0;
              Packet.payload_bytes := Some [x02; x00];
              Packet.payload :=
                Some (Packet.Info {| Packet.major_ver := 2; Packet.minor_ver := 0;
                                     Packet.extensions := [] |}) |} in
  @Packet.parse_all example_platform b = Ok p
  ∧ Packet.type p = 5
  ∧ @Connection.route_packet example_platform b example_conn = (Ok tt, example_conn).
Proof.
  intros b p.
  assert (Hp : @Packet.parse_all example_platform b = Ok p) by reflexivity.
  assert (Hty : Packet.type p = 5) by reflexivity.
  destruct (@packets_without_effect example_platform example_conn b p Hp)
    as (Hinfo & _).
  split; [exact Hp|]. split; [exact Hty|]. exact (Hinfo Hty).
Defined.

(** ** src/server/server/connection.ts: what a pump delivers *)

Module DeliveryFacts.
Import Connection Pump Delivery.

Lemma sent_data_app e1 e2 : sent_data (e1 ++ e2) = sent_data e1 ++ sent_data e2.
Proof. unfold sent_data. apply flat_map_app. Qed.

Lemma puts_cons a rest : puts (a :: rest) = puts [a] ++ puts rest.
Proof. unfold puts. cbn [flat_map]. by rewrite app_nil_r. Qed.

Lemma written_close_silently s :
  Net.written (socket (close_silently s)) = Net.written (socket s).
Proof.
  unfold close_silently. destruct (closed s); [done|].
  cbn [shut socket]. unfold Net.Socket_close.
  by destruct (negb (Net.socket (socket s))).
Qed.

Lemma socket_close_silently s :
  Net.socket (socket s) = false ∨ closed s = false →
  Net.socket (socket (close_silently s)) = false.
Proof.
  unfold close_silently. intros [Hs|Hc].
  - destruct (closed s); [done|]. cbn [shut socket]. unfold Net.Socket_close.
    by rewrite Hs.
  - rewrite Hc. cbn [shut socket]. unfold Net.Socket_close.
    by destruct (Net.socket (socket s)) eqn:E; cbn [negb Net.socket].
Qed.

Lemma ended_close_silently s :
  ended (clientToTarget s) = true → ended (clientToTarget (close_silently s)) = true.
Proof. unfold close_silently. by destruct (closed s). Qed.

Lemma queue_close_silently s :
  queue (clientToTarget (close_silently s)) = queue (clientToTarget s).
Proof. unfold close_silently. by destruct (closed s). Qed.

Lemma take_chunk_Some s data s1 :
  take_chunk s = Some (data, s1) →
  queue (clientToTarget s) = data :: queue (clientToTarget s1)
  ∧ ended (clientToTarget s1) = ended (clientToTarget s)
  ∧ socket s1 = socket s ∧ closed s1 = closed s.
Proof.
  unfold take_chunk, PassThrough_next.
  destruct (queue (clientToTarget s)) as [|d rest] eqn:Hq; [done|].
  by intros [= <- <-].
Qed.

Section Body.
Context `{Platform}.

(** A write that returns went to a socket that was set, and is recorded
    last. *)
Lemma ws_to_tcp_body_written this data send_ok this' packet :
  ws_to_tcp_body this data send_ok = Ok (this', packet) →
  Net.socket (socket this) = true
  ∧ Net.written (socket this') = Net.written (socket this) ++ [data].
Proof.
  unfold ws_to_tcp_body, Net.Socket_send.
  destruct (Net.socket (socket this)); [|done].
  destruct send_ok; [|done].
  cbn [negb mbind Result_bind packets_sent clientToTarget stream_id].
  by destruct (negb _); intros [= <- _].
Qed.

Lemma ws_to_tcp_body_unset this data send_ok :
  Net.socket (socket this) = false →
  ∃ e, ws_to_tcp_body this data send_ok = Throw e.
Proof.
  intros Hs. unfold ws_to_tcp_body, Net.Socket_send. rewrite Hs. cbn. eauto.
Qed.

(** One step: what is written is recorded by the socket; and either the
    loop has ended and wrote nothing, or what it wrote and what the buffer
    holds afterwards is what the buffer held followed by what was put. *)
Lemma step_delivery s a :
  let s1 := (step s a).1 in
  let sent := sent_data (step s a).2 in
  written s1 = written s ++ sent
  ∧ ((running s1 = false ∧ sent = [])
     ∨ (sent ++ held s1
        = held s ++ (if ended (clientToTarget (this s)) then [] else puts [a])
        ∧ (ended (clientToTarget (this s)) = true →
           ended (clientToTarget (this s1)) = true))).
Proof.
  unfold written, held. destruct a as [data|send_ok|]; cbn [step].
  - cbn [fst snd this sent_data flat_map put_data socket clientToTarget puts].
    rewrite app_nil_r. split; [done|]. right.
    unfold PassThrough_write.
    destruct (ended (clientToTarget (this s))) eqn:He; cbn [queue ended app];
      by rewrite ?app_nil_r.
  - destruct (running s) eqn:Hrun; cbn [negb].
    2: { cbn [fst snd sent_data flat_map]. rewrite app_nil_r. split; [done|].
         by left. }
    destruct (take_chunk (this s)) as [[data this1]|] eqn:Htake.
    + apply take_chunk_Some in Htake as (Hq & He & Hsock & _).
      destruct (ws_to_tcp_body this1 data send_ok) as [[this2 packet]|e] eqn:Hbody.
      * pose proof (ws_to_tcp_body_written _ _ _ _ _ Hbody) as [_ Hw].
        apply PumpFacts.ws_to_tcp_body_Ok in Hbody as (_ & Hc & _).
        cbn [fst snd this]. rewrite Hw, Hsock, Hc, Hq, He.
        assert (Hsent : sent_data (Sent data :: match packet with
                                                | Some packet => [Issued packet]
                                                | None => []
                                                end) = [data]).
        { by destruct packet. }
        rewrite Hsent. split; [done|]. right.
        cbn [puts flat_map app]. split; [|done].
        by destruct (ended (clientToTarget (this s))); rewrite app_nil_r.
      * cbn [fst snd this sent_data flat_map running].
        rewrite written_close_silently, Hsock, app_nil_r. split; [done|].
        by left.
    + destruct (ended (clientToTarget (this s))) eqn:He;
        cbn [fst snd this sent_data flat_map running].
      * rewrite written_close_silently, app_nil_r. split; [done|]. by left.
      * rewrite app_nil_r. split; [done|]. right. rewrite He.
        cbn [puts flat_map app]. by rewrite app_nil_r.
  - cbn [fst snd this sent_data flat_map puts app].
    rewrite written_close_silently, queue_close_silently, !app_nil_r.
    split; [done|]. right.
    split; [by destruct (ended (clientToTarget (this s))); rewrite ?app_nil_r|].
    apply ended_close_silently.
Qed.

(** A loop that has ended, or whose socket is not set, writes nothing and
    issues nothing. *)
Lemma step_dead s a :
  running s = false ∨ Net.socket (socket (this s)) = false →
  (step s a).2 = []
  ∧ (running (step s a).1 = false
     ∨ Net.socket (socket (this (step s a).1)) = false).
Proof.
  intros Hdead. destruct a as [data|send_ok|]; cbn [step].
  - cbn [fst snd this running put_data socket]. done.
  - destruct (running s) eqn:Hrun; cbn [negb]; [|by split; [|left]].
    destruct Hdead as [?|Hsock]; [done|].
    destruct (take_chunk (this s)) as [[data this1]|] eqn:Htake.
    + apply take_chunk_Some in Htake as (_ & _ & Hs1 & _).
      destruct (ws_to_tcp_body_unset this1 data send_ok) as [e He].
      { by rewrite Hs1. }
      rewrite He. cbn [fst snd running]. by split; [|left].
    + destruct (ended _); cbn [fst snd running]; split; auto.
  - cbn [fst snd this running]. split; [done|].
    destruct Hdead as [?|Hsock]; [by left|right].
    apply socket_close_silently. by left.
Qed.

Lemma run_dead actions : ∀ s,
  running s = false ∨ Net.socket (socket (this s)) = false →
  (run s actions).2 = [] ∧ written (run s actions).1 = written s.
Proof.
  induction actions as [|a rest IH]; intros s Hdead; cbn [run]; [done|].
  destruct (step_dead s a Hdead) as [Hev Hdead1].
  destruct (step_delivery s a) as [Hw _]. cbv zeta in Hw.
  destruct (step s a) as [s1 events1]. cbn [fst snd] in *. subst events1.
  destruct (IH s1 Hdead1) as [Hev2 Hw2].
  destruct (run s1 rest) as [s2 events2]. cbn [fst snd] in *. subst events2.
  split; [done|]. rewrite Hw2, Hw. cbn [sent_data flat_map].
  by rewrite app_nil_r.
Qed.


(** The chunks written are, in order, the first of those the buffer held
    and was given. *)
Lemma run_delivery actions : ∀ s,
  sent_data (run s actions).2
    `prefix_of` held s ++ (if ended (clientToTarget (this s)) then []
                           else puts actions)
  ∧ written (run s actions).1 = written s ++ sent_data (run s actions).2.
Proof.
  induction actions as [|a rest IH]; intros s; cbn [run].
  { cbn. split; [apply prefix_nil|by rewrite app_nil_r]. }
  destruct (step_delivery s a) as [Hw Hstep]. cbv zeta in Hw, Hstep.
  destruct (step s a) as [s1 events1]. cbn [fst snd] in *.
  destruct (IH s1) as [Hpre Hw2].
  pose proof (run_dead rest s1) as Hdead.
  destruct (run s1 rest) as [s2 events2]. cbn [fst snd] in *.
  rewrite sent_data_app. split.
  - destruct Hstep as [[Hstop ->]|[Heq Hend]].
    + destruct (Hdead (or_introl Hstop)) as [-> _]. cbn. apply prefix_nil.
    + rewrite puts_cons.
      destruct (ended (clientToTarget (this s))) eqn:He.
      * rewrite Hend in Hpre by done. rewrite app_nil_r in *.
        rewrite <- Heq. by apply prefix_app.
      * rewrite app_assoc, <- Heq, <- app_assoc. apply prefix_app.
        destruct (ended (clientToTarget (this s1))); [|done].
        rewrite app_nil_r in Hpre. by apply prefix_app_r.
  - by rewrite Hw2, Hw, app_assoc.
Qed.

End Body.
End DeliveryFacts.

(** X20. What reaches the destination of a stream.  Over any sequence of
    DATA payloads put in the buffer, turns of the loop of [ws_to_tcp]
    (with writes that succeed or fail) and closes, from any state of the
    stream object: the chunks written to the socket are, in the order they
    are written, an initial part of the chunks the buffer held at the start
    followed by the payloads put, so that nothing is written twice, out of
    order, or that was not received; and the socket records exactly those
    writes after the ones it had. *)
Theorem destination_gets_a_prefix `{Platform} (s : Pump.state)
    (actions : list Pump.action) :
  let r := Pump.run s actions in
  Delivery.sent_data r.2 `prefix_of` Delivery.held s ++ Delivery.puts actions
  ∧ Delivery.written r.1 = Delivery.written s ++ Delivery.sent_data r.2.
Proof.
  intros r. subst r.
  destruct (DeliveryFacts.run_delivery actions s) as [Hpre Hw].
  split; [|done].
  destruct (ended (Connection.clientToTarget (Pump.this s))); [|done].
  rewrite app_nil_r in Hpre. by apply prefix_app_r.
Qed.



(** ** src/server/server/connection.ts: the handshake *)

Module NegotiationFacts.
Import Connection Negotiation.

Lemma record_extensions_cons exts c cl conn :
  record_extensions exts (c :: cl) conn
  = record_extensions exts cl (record_one exts c conn).
Proof. reflexivity. Qed.

Lemma record_one_cons s exts c conn :
  record_one (s :: exts) c conn
  = record_one exts c
      (if Extensions.id s =? Extensions.id c
       then with_exts conn (<[Extensions.id s := s]> (server_exts conn))
              (<[Extensions.id c := c]> (client_exts conn))
       else conn).
Proof. reflexivity. Qed.

Lemma has_id_dec exts i : has_id exts i ∨ ∀ e, e ∈ exts → Extensions.id e ≠ i.
Proof.
  induction exts as [|e exts IH].
  - right. by intros e ?%elem_of_nil.
  - destruct (decide (Extensions.id e = i)) as [He|He].
    + left. exists e. split; [left|done].
    + destruct IH as [(e' & Hin & He')|Hno].
      * left. exists e'. split; [by right|done].
      * right. intros e' [->|Hin]%elem_of_cons; [done|by apply Hno].
Qed.

Lemma record_one_trace exts c : ∀ conn,
  trace (record_one exts c conn) = trace conn.
Proof.
  induction exts as [|s exts IH]; intros conn; [done|].
  rewrite record_one_cons, IH. by destruct (_ =? _).
Qed.

Lemma record_extensions_trace exts cl : ∀ conn,
  trace (record_extensions exts cl conn) = trace conn.
Proof.
  induction cl as [|c cl IH]; intros conn; [done|].
  by rewrite record_extensions_cons, IH, record_one_trace.
Qed.

(** The inner loop: only the id of the client's extension is touched, and
    it is bound on both sides exactly when the server has the id. *)
Lemma record_one_spec exts c : ∀ conn,
  (∀ i, i ≠ Extensions.id c →
     server_exts (record_one exts c conn) !! i = server_exts conn !! i
     ∧ client_exts (record_one exts c conn) !! i = client_exts conn !! i)
  ∧ ((∀ s, s ∈ exts → Extensions.id s ≠ Extensions.id c) →
     record_one exts c conn = conn)
  ∧ (has_id exts (Extensions.id c) →
     (∃ s, s ∈ exts ∧ Extensions.id s = Extensions.id c
           ∧ server_exts (record_one exts c conn) !! Extensions.id c = Some s)
     ∧ client_exts (record_one exts c conn) !! Extensions.id c = Some c).
Proof.
  induction exts as [|s exts IH]; intros conn.
  { split; [done|]. split; [done|]. intros (e & Hin & _). by apply elem_of_nil in Hin. }
  rewrite record_one_cons.
  set (conn1 := if Extensions.id s =? Extensions.id c then _ else conn).
  destruct (IH conn1) as (I1 & I2 & I3).
  split; [|split].
  - intros i Hi. destruct (I1 i Hi) as [-> ->]. unfold conn1.
    destruct (Extensions.id s =? Extensions.id c) eqn:E; [|done].
    apply Z.eqb_eq in E. cbn [server_exts client_exts with_exts].
    rewrite !lookup_insert_ne by congruence. done.
  - intros Hno. rewrite I2.
    + unfold conn1.
      destruct (Extensions.id s =? Extensions.id c) eqn:E; [|done].
      apply Z.eqb_eq in E. exfalso. apply (Hno s); [left|done].
    + intros s' Hin. apply Hno. by right.
  - intros Hhas. destruct (has_id_dec exts (Extensions.id c)) as [Hin|Hno].
    + destruct (I3 Hin) as [(s' & Hs' & Hid & Hl) Hc].
      split; [|done]. exists s'. split; [by right|done].
    + rewrite (I2 Hno).
      destruct Hhas as (s' & [->|Hin]%elem_of_cons & Hid);
        [|by apply Hno in Hin].
      unfold conn1. apply Z.eqb_eq in Hid as Hid'. rewrite Hid'.
      cbn [server_exts client_exts with_exts]. rewrite Hid.
      rewrite !lookup_insert_eq. split; [|done].
      exists s. split; [left|done].
Qed.

(** The two loops, from any tables. *)
Lemma record_extensions_spec exts cl : ∀ conn i,
  let r := record_extensions exts cl conn in
  (∀ s, server_exts r !! i = Some s →
     server_exts conn !! i = Some s
     ∨ (s ∈ exts ∧ Extensions.id s = i ∧ has_id cl i))
  ∧ (∀ c, client_exts r !! i = Some c →
       client_exts conn !! i = Some c
       ∨ (c ∈ cl ∧ Extensions.id c = i ∧ has_id exts i))
  ∧ (is_Some (server_exts conn !! i) → is_Some (server_exts r !! i))
  ∧ (is_Some (client_exts conn !! i) → is_Some (client_exts r !! i))
  ∧ (common exts cl i →
     is_Some (server_exts r !! i) ∧ is_Some (client_exts r !! i)).
Proof.
  induction cl as [|c cl IH]; intros conn i r; subst r.
  { cbn. split; [auto|]. split; [auto|]. split; [done|]. split; [done|].
    intros [_ (e & Hin & _)]. by apply elem_of_nil in Hin. }
  rewrite record_extensions_cons.
  destruct (record_one_spec exts c conn) as (R1 & R2 & R3).
  set (conn1 := record_one exts c conn) in *.
  destruct (IH conn1 i) as (O1 & O2 & O3 & O4 & O5). cbv zeta in *.
  assert (Hmono : (is_Some (server_exts conn !! i) → is_Some (server_exts conn1 !! i))
                  ∧ (is_Some (client_exts conn !! i) → is_Some (client_exts conn1 !! i))).
  { destruct (decide (i = Extensions.id c)) as [->|Hne].
    - destruct (has_id_dec exts (Extensions.id c)) as [Hin|Hno].
      + destruct (R3 Hin) as [(s & _ & _ & ->) ->]. by split.
      + by rewrite (R2 Hno).
    - by destruct (R1 i Hne) as [-> ->]. }
  destruct Hmono as [Hms Hmc].
  split; [|split; [|split; [|split]]].
  - intros s Hs. destruct (O1 s Hs) as [H1|(Hin & Hid & c' & Hc' & Hidc)].
    2: { right. split; [done|]. split; [done|]. exists c'. split; [by right|done]. }
    destruct (decide (i = Extensions.id c)) as [->|Hne].
    + destruct (has_id_dec exts (Extensions.id c)) as [Hhas|Hno].
      * destruct (R3 Hhas) as [(s' & Hs' & Hid' & Hl) _].
        rewrite Hl in H1. injection H1 as <-. right.
        split; [done|]. split; [done|]. exists c. split; [left|done].
      * rewrite (R2 Hno) in H1. by left.
    + destruct (R1 i Hne) as [Heq _]. rewrite Heq in H1. by left.
  - intros c0 Hc0. destruct (O2 c0 Hc0) as [H1|(Hin & Hid & Hhas)].
    2: { right. split; [by right|done]. }
    destruct (decide (i = Extensions.id c)) as [->|Hne].
    + destruct (has_id_dec exts (Extensions.id c)) as [Hhas|Hno].
      * destruct (R3 Hhas) as [_ Hl].
        rewrite Hl in H1. injection H1 as <-. right.
        split; [left|done].
      * rewrite (R2 Hno) in H1. by left.
    + destruct (R1 i Hne) as [_ Heq]. rewrite Heq in H1. by left.
  - auto.
  - auto.
  - intros [Hs (c0 & [->|Hin]%elem_of_cons & Hid)].
    + subst i. destruct (R3 Hs) as [(s & _ & _ & Hl) Hc].
      split; [apply O3|apply O4]; by eexists.
    + apply O5. split; [done|]. by exists c0.
Qed.

Section Parsed.
Context `{Platform}.

(** What the parser returns is of the classes it was given. *)
Lemma parse_extensions_Ok b valid role es :
  Extensions.parse_extensions b valid role = Ok es →
  Forall (Records.parsed_from valid role) es.
Proof.
  intros Hes.
  destruct (ExtensionsFacts.parse_extensions_total b valid role) as (r & Hr & Heq).
  pose proof (ExtensionListFacts.loop_outcome valid role (length b) b []
                (Forall_nil_2 _)) as Hout.
  rewrite Hr in Hout. rewrite Hes in Heq. subst r. by destruct Hout.
Qed.

End Parsed.
End NegotiationFacts.

(** X22. The extensions a handshake records.  When the client's INFO
    packet is accepted and its extension list parses, [setup_wisp_v2] on a
    connection that has recorded nothing yet returns, and it has sent the
    server's INFO packet and nothing else; afterwards [server_exts] and
    [client_exts] are bound at the same ids, those of the extensions the
    client listed that the server advertises; [server_exts] holds at each
    id an extension of the server's list with that id, and [client_exts]
    one the client listed, parsed with an empty payload. *)
Theorem handshake_records_common_extensions `{Platform}
    (conn : Connection.ServerConnection) (exts : list Extensions.extension)
    (ext_buffer data : list byte) (packet : Packet.WispPacket)
    (payload : Packet.InfoPayload) (client_extensions : list Extensions.extension) :
  Connection.wisp_extensions conn = Some exts →
  Extensions.serialize_extensions exts = Ok ext_buffer →
  DataChannel.is_open (DataChannel.readyState (Connection.ws conn)) = true →
  Connection.server_exts conn = ∅ →
  Connection.client_exts conn = ∅ →
  Packet.parse_all data = Ok packet →
  Packet.payload packet = Some (Packet.Info payload) →
  Extensions.parse_extensions (Packet.extensions payload)
    (Extensions.constructor <$> exts) Extensions.client
  = Ok client_extensions →
  let r := Connection.setup_wisp_v2 (Some data) conn in
  r.1 = Ok tt
  ∧ Connection.trace r.2
    = Connection.trace conn
      ++ [Connection.CarrierSend
            (Wire.info_bytes (Connection.wisp_version conn) ext_buffer)]
  ∧ Connection.streams r.2 = Connection.streams conn
  ∧ ∀ i,
      (is_Some (Connection.server_exts r.2 !! i)
       ↔ Negotiation.has_id client_extensions i)
      ∧ (is_Some (Connection.client_exts r.2 !! i)
         ↔ Negotiation.has_id client_extensions i)
      ∧ (Negotiation.has_id client_extensions i → Negotiation.has_id exts i)
      ∧ (∀ s, Connection.server_exts r.2 !! i = Some s →
           s ∈ exts ∧ Extensions.id s = i)
      ∧ (∀ c, Connection.client_exts r.2 !! i = Some c →
           c ∈ client_extensions ∧ Extensions.id c = i
           ∧ Extensions.payload c = Some Extensions.EmptyPayload).
Proof.
  intros Hexts Hser Hopen Hs0 Hc0 Hparse Hpl Hcl r. subst r.
  rewrite (HandshakeFacts.setup_wisp_v2_spec conn exts ext_buffer) by done.
  rewrite Hparse.
  pose proof (PacketFacts.parse_all_type data packet _ Hparse Hpl) as Hty.
  cbn [Packet.class_of Packet.class_type] in Hty. rewrite Hty, Hpl.
  cbn [Z.eqb Pos.eqb negb].
  cbv [mbind Connection.M_bind Connection.lift Connection.modify]. rewrite Hcl.
  cbn [fst snd]. split; [done|].
  set (conn1 := Connection.with_trace conn _).
  destruct (Invariant.record_extensions_table exts client_extensions conn1)
    as [_ Hstreams].
  rewrite NegotiationFacts.record_extensions_trace.
  split; [done|]. split; [by rewrite Hstreams|].
  intros i.
  destruct (NegotiationFacts.record_extensions_spec exts client_extensions conn1 i)
    as (O1 & O2 & _ & _ & O5).
  cbv zeta in *.
  change (Connection.server_exts conn1) with (Connection.server_exts conn) in *.
  change (Connection.client_exts conn1) with (Connection.client_exts conn) in *.
  rewrite Hs0 in O1. rewrite Hc0 in O2.
  pose proof (NegotiationFacts.parse_extensions_Ok _ _ _ _ Hcl) as Hfrom.
  assert (Hboth : Negotiation.has_id client_extensions i → Negotiation.has_id exts i).
  { intros (c & Hin & Hid).
    rewrite Forall_forall in Hfrom. destruct (Hfrom c Hin) as [Hclass _].
    apply list_elem_of_fmap in Hclass as (s & Hsc & Hsin).
    exists s. split; [done|]. unfold Extensions.id in *. by rewrite <- Hsc. }
  split; [|split; [|split; [done|split]]].
  - split.
    + intros [s Hs]. destruct (O1 s Hs) as [Hemp|(_ & _ & Hhas)]; [|done].
      by rewrite lookup_empty in Hemp.
    + intros Hhas. apply O5. split; [by apply Hboth|done].
  - split.
    + intros [c Hc]. destruct (O2 c Hc) as [Hemp|(Hin & Hid & _)].
      * by rewrite lookup_empty in Hemp.
      * by exists c.
    + intros Hhas. apply O5. split; [by apply Hboth|done].
  - intros s Hs. destruct (O1 s Hs) as [Hemp|(Hin & Hid & _)]; [|done].
    by rewrite lookup_empty in Hemp.
  - intros c Hc. destruct (O2 c Hc) as [Hemp|(Hin & Hid & _)].
    { by rewrite lookup_empty in Hemp. }
    split; [done|]. split; [done|].
    rewrite Forall_forall in Hfrom.
    destruct (Hfrom c Hin) as [_ (p & Hp & Hempty)].
    by rewrite Hp, Hempty.
Qed.

Lemma handshake_records_common_extensions_witness :
  let exts :=
    [{| Extensions.constructor := Extensions.UDPExtension;
        Extensions.payload := Some Extensions.EmptyPayload |};
     {| Extensions.constructor := Extensions.MOTDExtension;
        Extensions.payload := Some (Extensions.MOTDServer "hi") |}] in
  let conn := Connection.new_ServerConnection Options.options
                {| DataChannel.readyState := DataChannel.rs_open;
                   DataChannel.connected := true |} (Some 2) (Some exts) in
  let ext_buffer := [x01; x00; x00; x00; x00; x04; x02; x00; x00; x00; x68; x69] in
  let data := [x05; x00; x00; x00; x00; x02; x00; x01; x00; x00; x00; x00] in
  let payload := {| Packet.major_ver := 2; Packet.minor_ver := 0;
                    Packet.extensions := [x01; x00; x00; x00; x00] |} in
  let packet := {| Packet.type := 5; Packet.stream_id := 0;
                   Packet.payload_bytes := Some (drop 5 data);
                   Packet.payload := Some (Packet.Info payload) |} in
  let client_extensions :=
    [{| Extensions.constructor := Extensions.UDPExtension;
        Extensions.payload := Some Extensions.EmptyPayload |}] in
  let r := @Connection.setup_wisp_v2 example_platform (Some data) conn in
  Connection.wisp_extensions conn = Some exts
  ∧ @Extensions.serialize_extensions example_platform exts = Ok ext_buffer
  ∧ DataChannel.is_open (DataChannel.readyState (Connection.ws conn)) = true
  ∧ Connection.server_exts conn = ∅
  ∧ Connection.client_exts conn = ∅
  ∧ @Packet.parse_all example_platform data = Ok packet
  ∧ Packet.payload packet = Some (Packet.Info payload)
  ∧ @Extensions.parse_extensions example_platform (Packet.extensions payload)
      (Extensions.constructor <$> exts) Extensions.client
    = Ok client_extensions
  ∧ r.1 = Ok tt
  ∧ is_Some (Connection.server_exts r.2 !! 1)
  ∧ Connection.server_exts r.2 !! 4 = None.
Proof.
  intros exts conn ext_buffer data payload packet client_extensions r.
  assert (H1 : Connection.wisp_extensions conn = Some exts) by reflexivity.
  assert (H2 : @Extensions.serialize_extensions example_platform exts = Ok ext_buffer)
    by reflexivity.
  assert (H3 : DataChannel.is_open (DataChannel.readyState (Connection.ws conn)) = true)
    by reflexivity.
  assert (H4 : Connection.server_exts conn = ∅) by reflexivity.
  assert (H5 : Connection.client_exts conn = ∅) by reflexivity.
  assert (H6 : @Packet.parse_all example_platform data = Ok packet) by reflexivity.
  assert (H7 : Packet.payload packet = Some (Packet.Info payload)) by reflexivity.
  assert (H8 : @Extensions.parse_extensions example_platform
                 (Packet.extensions payload) (Extensions.constructor <$> exts)
                 Extensions.client = Ok client_extensions) by reflexivity.
  destruct (@handshake_records_common_extensions example_platform conn exts
              ext_buffer data packet payload client_extensions
              H1 H2 H3 H4 H5 H6 H7 H8) as (Hok & _ & _ & Hids).
  do 8 (split; [assumption|]). split; [exact Hok|].
  destruct (Hids 1) as ((_ & Hin1) & _). destruct (Hids 4) as ((Hout4 & _) & _).
  split.
  - apply Hin1. eexists. split; [apply list_elem_of_singleton; reflexivity|].
    reflexivity.
  - apply eq_None_not_Some. intros Hsome.
    destruct (Hout4 Hsome) as (c & Hc & Hid).
    apply list_elem_of_singleton in Hc. subst c. discriminate Hid.
Defined.



(** ** src/server/datachannel.ts: the queue of received messages *)

Module InboxFacts.
Import Receiver Inbox.

Lemma balanced_new channel : balanced (new channel).
Proof. split; [by left|done]. Qed.

Lemma resolved_resolve_all ws : resolved (resolve_all ws) = ws.
Proof.
  unfold resolved, resolve_all. rewrite <- list_fmap_compose.
  by rewrite <- (list_fmap_id ws) at 2.
Qed.

Lemma delivered_resolve_all ws : delivered (resolve_all ws) = [].
Proof. induction ws as [|w ws IH]; [done|]. exact IH. Qed.

Lemma delivered_app o1 o2 : delivered (o1 ++ o2) = delivered o1 ++ delivered o2.
Proof. unfold delivered. apply flat_map_app. Qed.

Lemma resolved_app o1 o2 : resolved (o1 ++ o2) = resolved o1 ++ resolved o2.
Proof. unfold resolved. apply fmap_app. Qed.

(** One event: the balance is kept; what is delivered and what is queued
    afterwards is what was queued followed by what arrived; what is
    resolved and what waits afterwards is what waited followed by what was
    requested. *)
Lemma handle_spec s e :
  balanced s →
  balanced (handle s e).1
  ∧ delivered (handle s e).2 ++ _queue (handle s e).1 = _queue s ++ arrived [e]
  ∧ resolved (handle s e).2 ++ _waiters (handle s e).1
    = _waiters s ++ requested [e]
  ∧ (_closed s = true → _closed (handle s e).1 = true).
Proof.
  intros [Hbal Hclosed]. destruct e as [data| |err|opens|p]; cbn [handle].
  - unfold _onMessage. destruct (_waiters s) as [|w ws] eqn:Hw.
    + cbn. rewrite ?app_nil_r. split; [|done]. split; [by right|done].
    + destruct Hbal as [Hq|?]; [|done]. rewrite Hq. cbn. rewrite ?app_nil_r.
      split; [|done]. split; [by left|]. intros Hc. by specialize (Hclosed Hc).
  - unfold _onClose. cbn [fst snd _queue _waiters _closed arrived requested flat_map].
    rewrite delivered_resolve_all, resolved_resolve_all, ?app_nil_r.
    split; [|done]. split; [by right|done].
  - unfold _onError. destruct (negb (DataChannel.connected (base s)));
      cbn [fst snd _queue _waiters _closed arrived requested flat_map].
    + rewrite delivered_resolve_all, resolved_resolve_all, ?app_nil_r.
      split; [|done]. split; [by right|done].
    + rewrite ?app_nil_r. cbn. done.
  - unfold connect. destruct (DataChannel.connect (base s) opens);
      cbn [fst snd _queue _waiters _closed arrived requested flat_map];
      by rewrite ?app_nil_r.
  - unfold _getNext. destruct (_queue s) as [|d q] eqn:Hq.
    + destruct (_closed s) eqn:Hc.
      * cbn [fst snd _queue _waiters _closed arrived requested flat_map].
        rewrite Hq, Hclosed by done. cbn. rewrite ?app_nil_r. split; [|done].
        split; [by left|]. intros _. by apply Hclosed.
      * cbn [fst snd _queue _waiters _closed arrived requested flat_map].
        rewrite ?app_nil_r. cbn. rewrite ?app_nil_r. split; [|done].
        split; [by left|]. done.
    + destruct Hbal as [?|Hw]; [done|].
      cbn [fst snd _queue _waiters _closed arrived requested flat_map].
      rewrite Hw. cbn. rewrite ?app_nil_r. split; [|done].
      split; [by right|]. cbn. intros Hc. by rewrite <- Hw, Hclosed.
Qed.

Lemma handle_all_spec events : ∀ s,
  balanced s →
  balanced (handle_all s events).1
  ∧ delivered (handle_all s events).2 ++ _queue (handle_all s events).1
    = _queue s ++ arrived events
  ∧ resolved (handle_all s events).2 ++ _waiters (handle_all s events).1
    = _waiters s ++ requested events.
Proof.
  induction events as [|e rest IH]; intros s Hbal; cbn [handle_all].
  { cbn. by rewrite !app_nil_r. }
  destruct (handle_spec s e Hbal) as (Hb1 & Hd1 & Hr1 & _).
  destruct (handle s e) as [s1 out1]. cbn [fst snd] in *.
  destruct (IH s1 Hb1) as (Hb2 & Hd2 & Hr2).
  destruct (handle_all s1 rest) as [s2 out2]. cbn [fst snd] in *.
  split; [done|].
  rewrite delivered_app, resolved_app, <- !app_assoc, Hd2, Hr2.
  rewrite !app_assoc, Hd1, Hr1, <- !app_assoc.
  unfold arrived, requested. cbn [flat_map]. by rewrite !app_nil_r.
Qed.

End InboxFacts.

(** X24. The received messages are handed over once, in order.  From the
    state the constructor leaves, over any sequence of messages, close and
    error events of the channel, calls of [connect] and calls of [_getNext]
    (those of [recv] and of the iterator): the messages handed to promises,
    in the order
    they are handed over, followed by the messages still queued are the
    messages in the order they arrived; the promises resolved, in the order
    they are resolved, followed by the promises still waiting are the
    promises in the order they were made.  No message is lost, repeated or
    overtaken, a close or an error event discards none, and no promise is
    resolved before an older one. *)
Theorem messages_are_handed_over_in_order (channel : DataChannel.ready_state)
    (events : list Receiver.event) :
  let r := Receiver.handle_all (Receiver.new channel) events in
  Inbox.delivered r.2 ++ Receiver._queue r.1 = Inbox.arrived events
  ∧ Inbox.resolved r.2 ++ Receiver._waiters r.1 = Inbox.requested events.
Proof.
  intros r. subst r.
  destruct (InboxFacts.handle_all_spec events (Receiver.new channel)
              (InboxFacts.balanced_new channel)) as (_ & Hd & Hr).
  done.
Qed.

(** X25. Messages and promises never wait together.  After any sequence of
    events and calls from the state the constructor leaves, the queue or
    the list of waiting promises is empty, and once the wrapper is closed
    no promise waits: a message that arrives while a promise waits goes to
    the oldest such promise, a promise made while messages are queued gets
    the oldest of them, and a promise made after the close with nothing
    queued is resolved with null at once.  [close()] then discards what is
    queued and resolves every waiting promise with null. *)
Theorem queue_and_waiters_are_balanced (channel : DataChannel.ready_state)
    (events : list Receiver.event) :
  let s := (Receiver.handle_all (Receiver.new channel) events).1 in
  Inbox.balanced s
  ∧ Receiver._queue (Receiver.close s).1 = []
  ∧ Receiver._waiters (Receiver.close s).1 = []
  ∧ Receiver._closed (Receiver.close s).1 = true
  ∧ Inbox.resolved (Receiver.close s).2 = Receiver._waiters s
  ∧ Inbox.delivered (Receiver.close s).2 = []
  ∧ ∀ p, Receiver._getNext (Receiver.close s).1 p = ((Receiver.close s).1, [(p, None)]).
Proof.
  intros s. subst s.
  destruct (InboxFacts.handle_all_spec events (Receiver.new channel)
              (InboxFacts.balanced_new channel)) as (Hbal & _ & _).
  split; [done|]. unfold Receiver.close, Receiver._cleanup.
  cbn [fst snd Receiver._queue Receiver._waiters Receiver._closed].
  rewrite InboxFacts.resolved_resolve_all, InboxFacts.delivered_resolve_all.
  done.
Qed.

(** ** src/server/server/connection.ts: what [setup] sends *)

Module SetupFacts.
Import Connection Wire.



Section Setup.
Context `{Platform}.





(** [ws.send] of a packet over an open carrier. *)
Lemma ws_send_open packet bytes conn :
  DataChannel.is_open (DataChannel.readyState (ws conn)) = true →
  Packet.serialize packet = Ok bytes →
  ws_send packet conn = (Ok tt, with_trace conn (trace conn ++ [CarrierSend bytes])).
Proof.
  intros Hopen Hser. unfold ws_send, DataChannel.send.
  cbv [mbind M_bind get lift modify]. by rewrite Hopen, andb_false_r, Hser.
Qed.

End Setup.
End SetupFacts.



(** ** src/server/server/connection.ts: data from the destination, and the
       loop of the connection *)

Module FramingFacts.
Import Packet PacketFacts Wire.

Section Framing.
Context `{Platform}.

(** [parse_all] on a header followed by a payload of the class the header
    names. *)
Lemma parse_all_framed c sid pb pl :
  min_size c ≤ size pb →
  payload_parse c pb = Ok pl →
  parse_all (to_u8 (class_type c) :: le32 sid ++ pb)
  = Ok {| type := class_type c; stream_id := sid mod 2 ^ 32;
          payload_bytes := Some pb; payload := Some pl |}.
Proof.
  intros Hmin Hparse. rewrite CodecFacts.parse_all_eq.
  assert (Hsz : size (to_u8 (class_type c) :: le32 sid ++ pb) = 5 + size pb).
  { unfold size. cbn [length le32 app]. lia. }
  rewrite Hsz. pose proof (size_nonneg pb) as Hnn.
  destruct (5 + size pb <? 5) eqn:E; [apply Z.ltb_lt in E; lia|].
  unfold le32. cbn [app].
  rewrite ReserializeFacts.header_type, ReserializeFacts.header_stream_id.
  rewrite !u8_to_u8, CodecFacts.le32_recompose_mod.
  rewrite (Z.mod_small (class_type c)) by (destruct c; cbn; lia).
  rewrite packet_classes_class_type.
  replace (5 + size pb - 5) with (size pb) by lia.
  destruct (size pb <? min_size c) eqn:E2; [apply Z.ltb_lt in E2; lia|].
  change (drop 5 (_ :: _ :: _ :: _ :: _ :: pb)) with pb. by rewrite Hparse.
Qed.

End Framing.
End FramingFacts.

(** X27. A chunk read from the destination of a stream is sent to the
    client as a DATA packet that the codec reads back: over an open
    carrier, [tcp_to_ws] for one chunk returns and sends one message, the
    type byte 2, the stream id in four bytes and the chunk; and
    [parse_all] of that message is the DATA packet of the stream (its id
    modulo 2^32) whose payload is the chunk, byte for byte, whatever the
    chunk holds, the empty chunk included.  Nothing else of the connection
    changes. *)
Theorem destination_data_is_framed `{Platform} (conn : Connection.ServerConnection)
    (r : nat) (this : Connection.ServerStream) (data : list byte) :
  Connection.objects conn !! r = Some this →
  DataChannel.is_open (DataChannel.readyState (Connection.ws conn)) = true →
  let bytes := to_u8 2 :: Wire.le32 (Connection.stream_id this) ++ data in
  Connection.tcp_to_ws_data r data conn
  = (Ok tt,
     Connection.with_trace conn
       (Connection.trace conn ++ [Connection.CarrierSend bytes]))
  ∧ Packet.parse_all bytes
    = Ok {| Packet.type := 2;
            Packet.stream_id := Connection.stream_id this mod 2 ^ 32;
            Packet.payload_bytes := Some data;
            Packet.payload := Some (Packet.Data {| Packet.data := data |}) |}.
Proof.
  intros Hobj Hopen bytes. split.
  - unfold Connection.tcp_to_ws_data.
    cbv [mbind Connection.M_bind Connection.get Connection.lift]. rewrite Hobj.
    change (Packet.new_WispPacket (Packet.class_type Packet.DataClass)
              (Connection.stream_id this)
              (Some (Packet.Data {| Packet.data := data |})) None)
      with (Ok {| Packet.type := 2; Packet.stream_id := Connection.stream_id this;
                  Packet.payload_bytes := Some data;
                  Packet.payload := Some (Packet.Data {| Packet.data := data |}) |}).
    cbv beta iota. by rewrite (SetupFacts.ws_send_open _ bytes).
  - apply (FramingFacts.parse_all_framed Packet.DataClass); [|done].
    apply PacketFacts.size_nonneg.
Qed.

Lemma destination_data_is_framed_witness :
  let conn :=
    (@Connection.create_stream example_platform 1 1 "example.com" 80 example_conn).2 in
  let this := Shape.created_stream 1 1 "example.com" 80 in
  Connection.objects conn !! 0%nat = Some this
  ∧ DataChannel.is_open (DataChannel.readyState (Connection.ws conn)) = true
  ∧ Connection.trace (@Connection.tcp_to_ws_data example_platform 0 [x48; x49] conn).2
    = [Connection.CarrierSend [x02; x01; x00; x00; x00; x48; x49]]
  ∧ @Packet.parse_all example_platform [x02; x01; x00; x00; x00; x48; x49]
    = Ok {| Packet.type := 2; Packet.stream_id := 1;
            Packet.payload_bytes := Some [x48; x49];
            Packet.payload := Some (Packet.Data {| Packet.data := [x48; x49] |}) |}.
Proof.
  intros conn this.
  assert (Hobj : Connection.objects conn !! 0%nat = Some this) by reflexivity.
  assert (Hopen : DataChannel.is_open (DataChannel.readyState (Connection.ws conn))
                  = true) by reflexivity.
  destruct (@destination_data_is_framed example_platform conn 0 this [x48; x49]
              Hobj Hopen) as [Hsend Hparse].
  split; [exact Hobj|]. split; [exact Hopen|]. split.
  - exact (eq_trans (f_equal (λ x, Connection.trace x.2) Hsend) eq_refl).
  - exact (eq_trans Hparse eq_refl).
Defined.

(** X28. [run]: the loop of a connection ends with [cleanup] and never
    throws.  Whatever messages the carrier yields, well formed or not,
    each is routed in turn and an error of one does not stop the loop;
    when the carrier ends, [cleanup] runs on the state the messages left:
    [run] returns, the stream table is empty, the carrier is not open, and
    [cleanup] has sent nothing after what the messages caused to be
    sent. *)
Theorem run_ends_with_cleanup `{Platform} (conn : Connection.ServerConnection)
    (messages : list (list byte)) :
  let after_messages :=
    foldl (λ c data, (Connection.run_message data c).2) conn messages in
  let r := Loop.run messages conn in
  r = Connection.cleanup after_messages
  ∧ r.1 = Ok tt
  ∧ Connection.streams r.2 = ∅
  ∧ Connection.trace r.2 = Connection.trace after_messages
  ∧ DataChannel.is_open (DataChannel.readyState (Connection.ws r.2)) = false.
Proof.
  intros after_messages r. subst after_messages r.
  assert (Heq : ∀ c, Loop.run messages c
                     = Connection.cleanup
                         (foldl (λ c data, (Connection.run_message data c).2)
                            c messages)).
  { induction messages as [|data rest IH]; intros c; [done|].
    cbn [Loop.run foldr foldl]. cbv [mbind Connection.M_bind].
    fold (Loop.run rest).
    assert (Hok : (Connection.run_message data c).1 = Ok tt).
    { unfold Connection.run_message, Connection.try_catch.
      by destruct (Connection.route_packet data c) as [[[]|e] c']. }
    destruct (Connection.run_message data c) as [[[]|e] c1];
      cbn [fst snd] in *; [|done].
    apply IH. }
  rewrite Heq. split; [done|].
  destruct (HandshakeFacts.cleanup_spec
              (foldl (λ c data, (Connection.run_message data c).2) conn messages))
    as (c2 & Hc & Hs & Ht & Hw & _).
  rewrite Hc. cbn [fst snd]. split; [done|]. split; [done|]. split; [done|].
  rewrite Hw. unfold DataChannel.close.
  destruct (DataChannel.readyState (Connection.ws _)) eqn:E;
    cbn [DataChannel.readyState DataChannel.is_open]; by rewrite ?E.
Qed.

(** ** src/server/server/connection.ts: errors of a stream *)

(** X29. A write to the destination that fails is not reported to the
    client.  When the write of a chunk taken from the buffer throws, the
    [catch] that [setup] attaches to [ws_to_tcp] logs an error and closes
    the stream object without reason: the turn returns, the chunk is
    neither written nor kept, no CLOSE packet (and nothing else) is sent,
    and the id stays in the stream table, bound to the closed stream
    object. *)
Theorem failed_write_closes_silently `{Platform}
    (conn : Connection.ServerConnection) (r : nat)
    (this this1 : Connection.ServerStream) (data : list byte) (send_ok : bool)
    (e : exn) :
  Connection.objects conn !! r = Some this →
  Connection.take_chunk this = Some (data, this1) →
  Connection.ws_to_tcp_body this1 data send_ok = Throw e →
  let res := Connection.ws_to_tcp_step r send_ok conn in
  res.1 = Ok tt
  ∧ Connection.trace res.2 = Connection.trace conn
  ∧ Connection.streams res.2 = Connection.streams conn
  ∧ Connection.objects res.2 !! r = Some (Teardown.closed_version this1)
  ∧ Connection.closed (Teardown.closed_version this1) = true
  ∧ Connection.log res.2
    = Connection.log conn
      ++ [(logging.error, "a ws to tcp/udp task encountered an error"%string)].
Proof.
  intros Hobj Htake Hbody res. subst res.
  unfold Connection.ws_to_tcp_step, Connection.ws_to_tcp_iteration,
    Connection.try_catch.
  cbv [mbind Connection.M_bind Connection.get]. rewrite Hobj, Htake.
  cbv [Connection.set_object Connection.modify Connection.lift].
  cbn [Connection.objects Connection.with_objects]. rewrite Hbody.
  cbv [Connection.logging_at Connection.modify Connection.ServerStream_close
       mbind Connection.M_bind Connection.get].
  cbn [Connection.objects Connection.with_log Connection.with_objects].
  rewrite (PumpOnConnection.lookup_set_object _ _ this this1 Hobj).
  unfold Teardown.closed_version.
  destruct (Connection.closed this1) eqn:Hc;
    cbv [Connection.skip mret Connection.M_ret Connection.set_object
         Connection.modify mbind Connection.M_bind];
    cbn [fst snd Connection.objects Connection.trace Connection.streams
         Connection.log Connection.with_log Connection.with_objects];
    (split; [done|]); (split; [done|]); (split; [done|]); (split; [|done]).
  - by apply (PumpOnConnection.lookup_set_object _ _ this).
  - eapply PumpOnConnection.lookup_set_object,
      PumpOnConnection.lookup_set_object, Hobj.
Qed.

Lemma failed_write_closes_silently_witness :
  let this := Connection.put_data (example_stream 0) [x61] in
  let this1 := example_stream 0 in
  let conn := Connection.with_streams
                (Connection.with_objects example_conn [this]) {[ 1 := 0%nat ]} in
  let res := @Connection.ws_to_tcp_step example_platform 0 false conn in
  Connection.objects conn !! 0%nat = Some this
  ∧ Connection.take_chunk this = Some ([x61], this1)
  ∧ @Connection.ws_to_tcp_body example_platform this1 [x61] false
    = Throw (Error "write failed")
  ∧ res.1 = Ok tt
  ∧ Connection.trace res.2 = []
  ∧ Connection.streams res.2 !! 1 = Some 0%nat
  ∧ Connection.objects res.2 !! 0%nat = Some (Connection.shut this1).
Proof.
  intros this this1 conn res.
  assert (H1 : Connection.objects conn !! 0%nat = Some this) by reflexivity.
  assert (H2 : Connection.take_chunk this = Some ([x61], this1)) by reflexivity.
  assert (H3 : @Connection.ws_to_tcp_body example_platform this1 [x61] false
               = Throw (Error "write failed")) by reflexivity.
  destruct (@failed_write_closes_silently example_platform conn 0 this this1
              [x61] false _ H1 H2 H3) as (Hok & Ht & Hs & Ho & _).
  do 3 (split; [assumption|]). split; [exact Hok|]. split; [exact Ht|].
  split.
  - exact (eq_trans (f_equal (λ m : gmap Z nat, m !! 1) Hs)
             (lookup_singleton_eq (M:=gmap Z) 1 0%nat)).
  - exact (eq_trans Ho eq_refl).
Defined.

(** X30. The task of a superseded stream closes the stream that superseded
    it.  The background task that [create_stream] starts closes its stream
    through the stream id.  When the id has been bound to a newer stream
    object by the time the task gives up (here: the policy lets the
    destination through and [connect()] fails, at the lookup or at the
    destination), the CLOSE packet with [NetworkError] goes out for the id,
    the id leaves the table, and the stream object closed is the newer one.
    The stream object of the task is not closed: it stays as [connect()]
    left it, and after a refusal by the destination that is with its socket
    assigned, which nothing ends any more. *)
Theorem superseded_task_closes_the_newer_stream `{Platform} (options : Options.t)
    (conn : Connection.ServerConnection) (t : Connection.task)
    (lookup : Result string) (how : Net.connecting) (r1 : nat)
    (old newer : Connection.ServerStream) :
  Connection.objects conn !! Connection.task_stream t = Some old →
  Connection.streams conn !! Connection.task_stream_id t = Some r1 →
  Connection.objects conn !! r1 = Some newer →
  r1 ≠ Connection.task_stream t →
  Connection.closed newer = false →
  DataChannel.is_open (DataChannel.readyState (Connection.ws conn)) = true →
  Filter.is_stream_allowed (Connection.socket_hostname conn) options
    (Some (Connection.streams conn)) (Connection.task_type t)
    (Connection.task_hostname t) (Connection.task_port t) lookup = 0 →
  how ≠ Net.Accepted →
  let res := Connection.run_task options t lookup how conn in
  res.1 = Ok tt
  ∧ Connection.trace res.2
    = Connection.trace conn
      ++ [Connection.CarrierSend
            (Wire.close_bytes (Connection.stream_id newer)
               Packet.close_reasons.NetworkError)]
  ∧ Connection.streams res.2 !! Connection.task_stream_id t = None
  ∧ Connection.objects res.2 !! r1 = Some (Connection.shut newer)
  ∧ (∃ old', Connection.objects res.2 !! Connection.task_stream t = Some old'
             ∧ Connection.closed old' = Connection.closed old
             ∧ Connection.clientToTarget old' = Connection.clientToTarget old
             ∧ Net.written (Connection.socket old')
               = Net.written (Connection.socket old)
             ∧ Net.connected (Connection.socket old')
               = Net.connected (Connection.socket old)
             ∧ Net.socket (Connection.socket old')
               = match how with
                 | Net.Refused => true
                 | _ => Net.socket (Connection.socket old)
                 end).
Proof.
  intros Hold Hsid Hnew Hne Hopen_stream Hopen Hpass Hhow res. subst res.
  unfold Connection.run_task.
  cbv [mbind Connection.M_bind Connection.get]. rewrite Hpass.
  cbn [Z.eqb negb]. unfold Connection.try_catch, Connection.ServerStream_setup.
  cbv [mbind Connection.M_bind Connection.get Connection.lift
       Connection.set_object Connection.modify]. rewrite Hold.
  assert (Hthrow : ∃ e, (Net.Socket_connect (Connection.socket old) how).1 = Throw e).
  { destruct how; [by eexists|by eexists|done]. }
  destruct Hthrow as [e ->].
  cbv [Connection.logging_at Connection.modify].
  rewrite (CloseFacts.close_stream_spec _ _ r1 newer);
    [|done|cbn [Connection.objects Connection.with_log Connection.with_objects];
           by rewrite list_lookup_insert_ne|done].
  cbn [fst snd]. split; [done|].
  unfold Shape.after_close_stream. cbn [Connection.truthy].
  cbn [Connection.streams Connection.objects Connection.trace
       Connection.with_streams].
  rewrite CloseFacts.trace_after_close, CloseFacts.objects_after_close,
    CloseFacts.streams_after_close, Hopen_stream.
  destruct (negb (Packet.close_reasons.NetworkError =? 0) && negb false);
    cbn [Connection.trace Connection.objects Connection.streams
         Connection.with_log Connection.with_objects];
    (split; [done|]); (split; [apply lookup_delete_eq|]);
    (split; [apply list_lookup_insert_eq; rewrite length_insert;
             by eapply lookup_lt_Some|]);
    exists (Connection.connect_socket old how);
    (split; [rewrite list_lookup_insert_ne by done;
             apply list_lookup_insert_eq; by eapply lookup_lt_Some|]);
    by destruct how.
Qed.

Lemma superseded_task_closes_the_newer_stream_witness :
  let conn0 :=
    (@Connection.create_stream example_platform 1 1 "example.com" 80 example_conn).2 in
  let conn :=
    (@Connection.create_stream example_platform 1 1 "example.org" 443 conn0).2 in
  let old := Shape.created_stream 1 1 "example.com" 80 in
  let newer := Shape.created_stream 1 1 "example.org" 443 in
  let lookup : Result string := Ok "93.184.216.34"%string in
  let res := @Connection.run_task example_platform Options.options connect_task
               lookup Net.Refused conn in
  Connection.objects conn !! Connection.task_stream connect_task = Some old
  ∧ Connection.streams conn !! Connection.task_stream_id connect_task = Some 1%nat
  ∧ Connection.objects conn !! 1%nat = Some newer
  ∧ 1%nat ≠ Connection.task_stream connect_task
  ∧ Connection.closed newer = false
  ∧ DataChannel.is_open (DataChannel.readyState (Connection.ws conn)) = true
  ∧ @Filter.is_stream_allowed example_platform nat
      (Connection.socket_hostname conn) Options.options
      (Some (Connection.streams conn)) (Connection.task_type connect_task)
      (Connection.task_hostname connect_task) (Connection.task_port connect_task)
      lookup = 0
  ∧ Net.Refused ≠ Net.Accepted
  ∧ Connection.trace res.2
    = [Connection.CarrierSend [x04; x01; x00; x00; x00; x03]]
  ∧ Connection.objects res.2 !! 1%nat = Some (Connection.shut newer)
  ∧ ∃ old', Connection.objects res.2 !! 0%nat = Some old'
            ∧ Connection.closed old' = false
            ∧ Net.socket (Connection.socket old') = true.
Proof.
  intros conn0 conn old newer lookup res.
  assert (H1 : Connection.objects conn !! Connection.task_stream connect_task
               = Some old) by reflexivity.
  assert (H2 : Connection.streams conn !! Connection.task_stream_id connect_task
               = Some 1%nat) by reflexivity.
  assert (H3 : Connection.objects conn !! 1%nat = Some newer) by reflexivity.
  assert (H4 : 1%nat ≠ Connection.task_stream connect_task) by (cbn; lia).
  assert (H5 : Connection.closed newer = false) by reflexivity.
  assert (H6 : DataChannel.is_open (DataChannel.readyState (Connection.ws conn))
               = true) by reflexivity.
  assert (H7 : @Filter.is_stream_allowed example_platform nat
                 (Connection.socket_hostname conn) Options.options
                 (Some (Connection.streams conn)) (Connection.task_type connect_task)
                 (Connection.task_hostname connect_task)
                 (Connection.task_port connect_task) lookup = 0) by reflexivity.
  assert (H8 : Net.Refused ≠ Net.Accepted) by discriminate.
  destruct (@superseded_task_closes_the_newer_stream example_platform
              Options.options conn connect_task lookup Net.Refused 1%nat old newer
              H1 H2 H3 H4 H5 H6 H7 H8)
    as (_ & Ht & _ & Hn & old' & Ho & Hc & _ & _ & _ & Hs).
  do 8 (split; [assumption|]).
  split; [exact (eq_trans Ht eq_refl)|]. split; [exact Hn|].
  exists old'. split; [exact Ho|]. split; [exact (eq_trans Hc eq_refl)|exact Hs].
Defined.
